(** * AreTheyIn API: the normalization pipeline of [server.js]

    A shallow embedding of the board scraper's pure core (cell decoder,
    field parsers, row assembler, board reducer) and of its snapshot
    cache, followed by the properties the specification states about
    them and by further properties of the same functions, of the root
    route and of the earlier versions the sources keep.

    JavaScript strings are sequences of UTF-16 code units; they are
    modelled as lists of [N].  Regular expressions of the source are
    translated one by one into matchers with the same left-to-right,
    greedy, backtracking behaviour; each matcher quotes its regex. *)

From Stdlib Require Import String Ascii DecimalString.
From Stdlib Require Import List NArith ZArith Bool Lia Arith.
From Stdlib Require Import Sorted Permutation.
Import ListNotations.

Local Open Scope N_scope.

(* ================================================================= *)
(** ** JavaScript strings *)

Abbreviation cu := N (only parsing).
Abbreviation jsstring := (list N) (only parsing).

(** An ASCII literal of the source, as code units. *)
Definition lit (s : string) : jsstring :=
  map N_of_ascii (list_ascii_of_string s).
Arguments lit s%_string.

Fixpoint jseqb (a b : jsstring) : bool :=
  match a, b with
  | [], [] => true
  | x :: a', y :: b' => (x =? y) && jseqb a' b'
  | _, _ => false
  end.

(** [s.startsWith(p)] *)
Fixpoint prefixb (p s : jsstring) : bool :=
  match p, s with
  | [], _ => true
  | x :: p', y :: s' => (x =? y) && prefixb p' s'
  | _ :: _, [] => false
  end.

(** [s.includes(p)], which is what [/p/.test(s)] is for a literal [p]. *)
Fixpoint includes (p s : jsstring) : bool :=
  prefixb p s ||
  match s with
  | [] => false
  | _ :: s' => includes p s'
  end.

Fixpoint takeWhile (f : cu -> bool) (s : jsstring) : jsstring :=
  match s with
  | [] => []
  | c :: r => if f c then c :: takeWhile f r else []
  end.

Fixpoint dropWhile (f : cu -> bool) (s : jsstring) : jsstring :=
  match s with
  | [] => []
  | c :: r => if f c then dropWhile f r else s
  end.

(** *** Character classes *)

Definition SP : cu := 32.
Definition TAB : cu := 9.
Definition LF : cu := 10.
Definition NBSP : cu := 160.
Definition AMP : cu := 38.

Definition between (lo hi c : cu) : bool := (lo <=? c) && (c <=? hi).

(** [\s]: WhiteSpace and LineTerminator of ECMAScript. *)
Definition isSpace (c : cu) : bool :=
  between 9 13 c || (c =? 32) || (c =? 160) || (c =? 5760) ||
  between 8192 8202 c || (c =? 8232) || (c =? 8233) || (c =? 8239) ||
  (c =? 8287) || (c =? 12288) || (c =? 65279).

(** [[ \t]] *)
Definition isBlank (c : cu) : bool := (c =? SP) || (c =? TAB).

(** [\d] *)
Definition isDigit (c : cu) : bool := between 48 57 c.

(** [[A-Za-z]] *)
Definition isAlpha (c : cu) : bool := between 65 90 c || between 97 122 c.

(** [\w] *)
Definition isWord (c : cu) : bool := isAlpha c || isDigit c || (c =? 95).

(** The class of hyphen, en dash U+2013 and em dash U+2014. *)
Definition isDash (c : cu) : bool := (c =? 45) || (c =? 8211) || (c =? 8212).

(** *** [String.prototype.trim] *)

Definition trimStart (s : jsstring) : jsstring := dropWhile isSpace s.
Definition trimEnd (s : jsstring) : jsstring := rev (dropWhile isSpace (rev s)).
Definition trim (s : jsstring) : jsstring := trimEnd (trimStart s).

(** *** [String.prototype.replace] with a global regex and a constant
    replacement

    A matcher tells, for the text that starts at the current position,
    how many code units the regex consumes there ([None]: no match at
    this position).  The scan is the one of [RegExp.prototype[@@replace]]:
    left to right, the next attempt starts where the last match ended.
    None of the regexes of this program matches the empty string, so a
    match of length 0 is not given a meaning of its own. *)

Definition matcher := jsstring -> option nat.

(** [skip] counts the code units of the current match still to drop. *)
Fixpoint replaceFrom (m : matcher) (rep : jsstring) (skip : nat)
    (s : jsstring) : jsstring :=
  match s with
  | [] => []
  | c :: r =>
      match skip with
      | S k => replaceFrom m rep k r
      | O =>
          match m s with
          | Some (S n) => rep ++ replaceFrom m rep n r
          | _ => c :: replaceFrom m rep 0 r
          end
      end
  end.

Definition replaceAll (m : matcher) (rep s : jsstring) : jsstring :=
  replaceFrom m rep 0 s.

(** A literal pattern. *)
Definition m_lit (p : jsstring) : matcher :=
  fun s => if prefixb p s then Some (length p) else None.

(** [/\u00A0|&nbsp;/g] *)
Definition m_nbsp : matcher :=
  fun s =>
    match s with
    | c :: _ =>
        if c =? NBSP then Some 1%nat
        else if prefixb (lit "&nbsp;") s then Some 6%nat else None
    | [] => None
    end.

(** [/[ \t]+/] *)
Definition m_blanks : matcher :=
  fun s =>
    match length (takeWhile isBlank s) with
    | O => None
    | n => Some n
    end.

(** Index of the last occurrence of [c] in [l]. *)
Fixpoint lastIndexOf (c : cu) (l : jsstring) : option nat :=
  match l with
  | [] => None
  | x :: r =>
      match lastIndexOf c r with
      | Some i => Some (S i)
      | None => if x =? c then Some 0%nat else None
      end
  end.

(** [/\s+\n/]: [\s+] is greedy and gives back until a line feed follows,
    so the match ends at the last line feed of the whitespace run, which
    must not be the run's first code unit. *)
Definition m_ws_nl : matcher :=
  fun s =>
    match s with
    | c :: r =>
        if isSpace c then
          match lastIndexOf LF (takeWhile isSpace r) with
          | Some i => Some (i + 2)%nat
          | None => None
          end
        else None
    | [] => None
    end.

(** [/\n\s+/] *)
Definition m_nl_ws : matcher :=
  fun s =>
    match s with
    | c :: r =>
        if c =? LF then
          match length (takeWhile isSpace r) with
          | O => None
          | n => Some (S n)
          end
        else None
    | [] => None
    end.

(* ================================================================= *)
(** ** Cell Decoder *)

(** [decode], server.js:17.  [s ?? ""] is the identity on strings. *)
Definition decode_entities (s : jsstring) : jsstring :=
  replaceAll (m_lit (lit "&gt;")) (lit ">")
    (replaceAll (m_lit (lit "&lt;")) (lit "<")
      (replaceAll (m_lit (lit "&amp;")) (lit "&")
        (replaceAll m_nbsp (lit " ") s))).

Definition decode_spaces (s : jsstring) : jsstring :=
  replaceAll m_nl_ws [LF]
    (replaceAll m_ws_nl [LF]
      (replaceAll m_blanks (lit " ") s)).

Definition decode (s : jsstring) : jsstring :=
  trim (decode_spaces (decode_entities s)).

(** *** Case conversion

    [toLowerCase] follows the Unicode default case conversion.  The
    program only ever tests a lower-cased text against ASCII patterns,
    so what matters is which code units produce an ASCII letter: the
    letters A to Z, U+0130 (which becomes [i] followed by U+0307) and
    the Kelvin sign U+212A (which becomes [k]).  Every other code unit
    is left as it is here: an ASCII one is its own lower case, and a
    non-ASCII one lower-cases to non-ASCII code units, which no test of
    the program tells apart. *)

Definition lowerCU (c : cu) : jsstring :=
  if between 65 90 c then [c + 32]
  else if c =? 304 then [105; 775]
  else if c =? 8490 then [107]
  else [c].

Definition toLowerCase (s : jsstring) : jsstring := flat_map lowerCU s.

(** [toUpperCase] on ASCII letters; the program applies it only to the
    text captured by [(AM|PM)]. *)
Definition upperCU (c : cu) : cu := if between 97 122 c then c - 32 else c.
Definition toUpperCase (s : jsstring) : jsstring := map upperCU s.

(** Matching one pattern character under the [i] flag (no [u] flag):
    both sides are canonicalised by upper-casing, and a non-ASCII code
    unit is never canonicalised to an ASCII one. *)
Definition ciEq (p c : cu) : bool := upperCU p =? upperCU c.

(** A literal pattern under the [i] flag, anchored at the current
    position: the text left after it. *)
Fixpoint stripPrefixCI (p s : jsstring) : option jsstring :=
  match p, s with
  | [], _ => Some s
  | x :: p', y :: s' => if ciEq x y then stripPrefixCI p' s' else None
  | _ :: _, [] => None
  end.

(** *** Further matchers *)

(** [/\D+/] *)
Definition m_nondigits : matcher :=
  fun s =>
    match length (takeWhile (fun c => negb (isDigit c)) s) with
    | O => None
    | n => Some n
    end.

(** [/[A-Za-z]+/] *)
Definition m_alphas : matcher :=
  fun s =>
    match length (takeWhile isAlpha s) with
    | O => None
    | n => Some n
    end.

(** [/<[^>]*>/]: from a [<] to the first [>] after it. *)
Definition m_tag : matcher :=
  fun s =>
    match s with
    | c :: r =>
        if c =? 60 then
          let body := takeWhile (fun x => negb (x =? 62)) r in
          match skipn (length body) r with
          | _ :: _ => Some (length body + 2)%nat
          | [] => None
          end
        else None
    | [] => None
    end.

(** [/\s*[-\u2013\u2014]\s+/], the separator of the name and title field: the
    whitespace before the dash, the dash, and the whitespace after it,
    of which there is at least one. *)
Definition m_sep : matcher :=
  fun s =>
    let lead := takeWhile isSpace s in
    match skipn (length lead) s with
    | d :: r =>
        if isDash d then
          match length (takeWhile isSpace r) with
          | O => None
          | n => Some (length lead + 1 + n)%nat
          end
        else None
    | [] => None
    end.

(** [s.match(re)] with a global regex: the matched texts, in order. *)
Fixpoint matchesFrom (m : matcher) (skip : nat) (s : jsstring)
    : list jsstring :=
  match s with
  | [] => []
  | c :: r =>
      match skip with
      | S k => matchesFrom m k r
      | O =>
          match m s with
          | Some (S n) => firstn (S n) s :: matchesFrom m n r
          | _ => matchesFrom m 0 r
          end
      end
  end.

Definition matchAll (m : matcher) (s : jsstring) : list jsstring :=
  matchesFrom m 0 s.

(** [s.split(re)] on a non-empty [s]: the texts between the matches.
    The splitter tries the regex at each position in turn; a match ends
    the current segment, and the text left after the last match is the
    last segment. *)
Fixpoint splitFrom (m : matcher) (skip : nat) (s : jsstring)
    : list jsstring :=
  match s with
  | [] => [[]]
  | c :: r =>
      match skip with
      | S k => splitFrom m k r
      | O =>
          match m s with
          | Some (S n) => [] :: splitFrom m n r
          | _ =>
              match splitFrom m 0 r with
              | seg :: rest => (c :: seg) :: rest
              | [] => [[c]]
              end
          end
      end
  end.

Definition split (m : matcher) (s : jsstring) : list jsstring :=
  splitFrom m 0 s.

(** [parts.join(sep)] *)
Fixpoint join (sep : jsstring) (parts : list jsstring) : jsstring :=
  match parts with
  | [] => []
  | [p] => p
  | p :: rest => p ++ sep ++ join sep rest
  end.

(** [s.padStart(n, "0")] *)
Definition padStart0 (n : nat) (s : jsstring) : jsstring :=
  repeat 48 (n - length s) ++ s.

(** [Number(s)] for a text of decimal digits. *)
Definition Number_of_digits (s : jsstring) : N :=
  fold_left (fun acc c => 10 * acc + (c - 48)) s 0.

(** [String(n)] for a natural number. *)
Definition String_of_N (n : N) : jsstring :=
  lit (DecimalString.NilZero.string_of_uint (N.to_uint n)).

(** [x || null] for a string [x]: the empty string is falsy. *)
Definition orNull (s : jsstring) : option jsstring :=
  match s with
  | [] => None
  | _ => Some s
  end.

(** [x || ""] for a string or null. *)
Definition orEmpty (o : option jsstring) : jsstring :=
  match o with
  | Some s => s
  | None => []
  end.

(** [a || b] on options of strings. *)
Definition orElse {A} (a b : option A) : option A :=
  match a with
  | Some _ => a
  | None => b
  end.

(* ================================================================= *)
(** ** The document tree, as the program reads it

    The program sees the page through cheerio.  A cell is what
    [$(td).text()] and [$(td).html()] return for it; a row carries its
    [class] and [id] attributes and the cells [$tr.find("td.OtlkItem")]
    selects. *)

Record Cell := mkCell {
  cell_text : jsstring;
  cell_html : option jsstring
}.

Record Row := mkRow {
  attr_class : option jsstring;
  attr_id : option jsstring;
  cells : list Cell
}.

(** [/^MM\/dd(\s+)HH:mm$/i] *)
Definition isFormatToken (text : jsstring) : bool :=
  match stripPrefixCI (lit "MM/dd") text with
  | Some r =>
      match takeWhile isSpace r with
      | [] => false
      | _ :: _ =>
          match stripPrefixCI (lit "HH:mm") (dropWhile isSpace r) with
          | Some [] => true
          | _ => false
          end
      end
  | None => false
  end.

Definition EM_DASH : cu := 8212.

(** [extractCellText], server.js:28 *)
Definition extractCellText (td : Cell) : jsstring :=
  let text := decode (cell_text td) in
  if isFormatToken text || jseqb text [] || jseqb text [EM_DASH] then
    let html := orEmpty (cell_html td) in
    let stripped := decode (replaceAll m_tag [] html) in
    match stripped with
    | [] => text
    | _ :: _ => stripped
    end
  else text.

(* ================================================================= *)
(** ** Field parsers *)

(** *** Name and title *)

Record NameTitle := mkNameTitle {
  nt_name : option jsstring;
  nt_title : option jsstring
}.

(** [splitNameAndTitle], server.js:38 *)
Definition splitNameAndTitle (raw : jsstring) : NameTitle :=
  let t := decode raw in
  match t with
  | [] => mkNameTitle None None
  | _ :: _ =>
      match split m_sep t with
      | first :: ((_ :: _) as rest) =>
          mkNameTitle (orNull (trim first))
                      (orNull (trim (join (lit " - ") rest)))
      | _ => mkNameTitle (Some t) None
      end
  end.

(** *** Phone *)

Module Contact.
Record t := mk {
  raw : option jsstring;
  digits : option jsstring;
  e164 : option jsstring;
  pretty : option jsstring
}.
End Contact.

(** [parsePhone], server.js:51 *)
Definition parsePhone (raw : jsstring) : Contact.t :=
  let text := decode raw in
  match text with
  | [] => Contact.mk None None None None
  | _ :: _ =>
      let digits := replaceAll m_nondigits [] text in
      match digits with
      | [] => Contact.mk (Some text) None None (Some text)
      | _ :: _ =>
          if Nat.eqb (length digits) 10 then
            let e164 := lit "+1" ++ digits in
            let pretty :=
              lit "(" ++ firstn 3 digits ++ lit ") " ++
              firstn 3 (skipn 3 digits) ++ lit "-" ++ skipn 6 digits in
            Contact.mk (Some text) (Some digits) (Some e164) (Some pretty)
          else if Nat.eqb (length digits) 7 then
            let pretty := firstn 3 digits ++ lit "-" ++ skipn 3 digits in
            Contact.mk (Some text) (Some digits) None (Some pretty)
          else
            Contact.mk (Some text) (Some digits)
              (if Nat.leb 11 (length digits) then Some (lit "+" ++ digits)
               else None)
              (Some text)
      end
  end.

(** *** Returning time *)

Module Returning.
Record t := mk {
  raw : option jsstring;
  hhmm : option jsstring;
  pretty : option jsstring;
  tokens : list jsstring
}.
End Returning.

(** [/^\d{3,4}$/] *)
Definition isHHMM (text : jsstring) : bool :=
  forallb isDigit text &&
  (Nat.eqb (length text) 3 || Nat.eqb (length text) 4).

(** [\b] between two neighbouring code units ([None]: an end of the
    text). *)
Definition isWordAt (c : option cu) : bool :=
  match c with
  | Some x => isWord x
  | None => false
  end.

Definition wordBoundary (prev next : option cu) : bool :=
  xorb (isWordAt prev) (isWordAt next).

(** The captures of [/\b(\d{1,2}):?(\d{2})?\s*(AM|PM)\b/i]. *)
Record Meridiem := mkMeridiem {
  m_hour : jsstring;
  m_minutes : option jsstring;
  m_ampm : jsstring
}.

(** Exactly [n] digits at the current position: the digits and the
    text after them. *)
Definition digitsAt (n : nat) (s : jsstring) : option (jsstring * jsstring) :=
  if Nat.eqb (length (firstn n s)) n && forallb isDigit (firstn n s)
  then Some (firstn n s, skipn n s)
  else None.

(** [\s*(AM|PM)\b]: [\s*] takes the whole whitespace run (after a
    shorter one a whitespace follows, which neither alternative
    matches); then AM is tried before PM. *)
Definition ampmAt (s : jsstring) : option jsstring :=
  let s' := dropWhile isSpace s in
  let alt (p : jsstring) :=
    match stripPrefixCI p s' with
    | Some rest =>
        if wordBoundary (Some 77) (hd_error rest)
        then Some (firstn 2 s') else None
    | None => None
    end in
  orElse (alt (lit "AM")) (alt (lit "PM")).

(** [(\d{2})?\s*(AM|PM)\b]: the optional group is greedy, it is tried
    with two digits first and without them when the rest then fails. *)
Definition minutesAt (s : jsstring) : option (option jsstring * jsstring) :=
  orElse
    (match digitsAt 2 s with
     | Some (mm, r) => option_map (pair (Some mm)) (ampmAt r)
     | None => None
     end)
    (option_map (pair None) (ampmAt s)).

(** [:?(\d{2})?\s*(AM|PM)\b] *)
Definition colonAt (s : jsstring) : option (option jsstring * jsstring) :=
  orElse
    (match s with
     | c :: r => if c =? 58 then minutesAt r else None
     | [] => None
     end)
    (minutesAt s).

(** The whole regex at one position: [\d{1,2}] tries two digits, then
    one. *)
Definition meridiemAt (prev : option cu) (s : jsstring) : option Meridiem :=
  if wordBoundary prev (hd_error s) then
    let hour (n : nat) :=
      match digitsAt n s with
      | Some (h, r) =>
          option_map (fun x => mkMeridiem h (fst x) (snd x)) (colonAt r)
      | None => None
      end in
    orElse (hour 2%nat) (hour 1%nat)
  else None.

(** [text.match(re)]: the first position, from the left, at which the
    regex matches. *)
Fixpoint meridiemFrom (prev : option cu) (s : jsstring) : option Meridiem :=
  match meridiemAt prev s with
  | Some m => Some m
  | None =>
      match s with
      | [] => None
      | c :: r => meridiemFrom (Some c) r
      end
  end.

Definition matchMeridiem (text : jsstring) : option Meridiem :=
  meridiemFrom None text.

Definition COLON : jsstring := lit ":".

(** [parseReturning], server.js:75 *)
Definition parseReturning (raw : jsstring) : Returning.t :=
  let text := decode raw in
  match text with
  | [] => Returning.mk None None None []
  | _ :: _ =>
      if isHHMM text then
        let padded := padStart0 4 text in
        let hh := firstn 2 padded in
        let mm := firstn 2 (skipn 2 padded) in
        let pretty := String_of_N (Number_of_digits hh) ++ COLON ++ mm in
        Returning.mk (Some text) (Some (hh ++ COLON ++ mm)) (Some pretty)
          [pretty]
      else
        match matchMeridiem text with
        | Some m =>
            let h := padStart0 2 (m_hour m) in
            let mm :=
              padStart0 2
                (match orEmpty (m_minutes m) with
                 | [] => lit "00"
                 | x => x
                 end) in
            let ampm := toUpperCase (m_ampm m) in
            Returning.mk (Some text) (Some (h ++ COLON ++ mm))
              (Some (String_of_N (Number_of_digits h) ++ COLON ++ mm ++
                     lit " " ++ ampm))
              [ampm]
        | None =>
            let tokens := matchAll m_alphas text in
            Returning.mk (Some text) None (Some text) tokens
        end
  end.

(** *** Status *)

(** [normalizeStatus], server.js:131.  [/initem/.test(c)] is a substring
    test, [/^in$/.test(t)] an equality test (no [m] flag). *)
Definition normalizeStatus (trClass cellText : jsstring) : jsstring :=
  let c := toLowerCase trClass in
  let t := toLowerCase cellText in
  if includes (lit "initem") c || jseqb t (lit "in") then lit "In"
  else if includes (lit "outitem") c || jseqb t (lit "out") then lit "Out"
  else if includes (lit "unavailable") c || jseqb t (lit "unavailable")
  then lit "Unavailable"
  else lit "Unknown".

(** *** Updated timestamp *)

Module Updated.
Record t := mk {
  local : option jsstring;
  isoGuess : option jsstring;
  epochMs : option Z;
  debug : option jsstring
}.
End Updated.

(* ================================================================= *)
(** ** Records, the board and the snapshot cache *)

Record Flags := mkFlags {
  isIn : bool;
  isOut : bool;
  isUnavailable : bool
}.

Record Meta := mkMeta {
  meta_trClass : option jsstring;
  meta_rowIdAttr : option jsstring;
  meta_parsedAt : jsstring;
  meta_flags : Flags
}.

Record Rec := mkRec {
  rec_id : jsstring;
  rec_status : jsstring;
  rec_name : option jsstring;
  rec_title : option jsstring;
  rec_contact : Contact.t;
  rec_remarks : option jsstring;
  rec_returning : Returning.t;
  rec_updated : Updated.t;
  rec_meta : Meta
}.

Record ErrorInfo := mkErrorInfo {
  err_message : jsstring;
  err_time : jsstring
}.

Record Cache := mkCache {
  lastFetched : option jsstring;
  items : list Rec;
  error : option ErrorInfo
}.

(** [let cache = { lastFetched: null, items: [], error: null }] *)
Definition cache0 : Cache := mkCache None [] None.

(** *** An ordinary object used as a map

    [items.reduce((acc, r) => ((acc[r.id] = r), acc), {})] stores the
    records in an ordinary object, and [Object.values] reads them back.
    The own properties of an object are enumerated with the array-index
    keys first, in ascending numeric order, and then the other keys in
    the order of their creation; assigning to an existing key keeps its
    place.  Assigning to the key [__proto__] runs the accessor inherited
    from [Object.prototype]: it changes the prototype of the object and
    creates no own property. *)

Record JSObject (V : Type) := mkObject {
  obj_proto : option V;
  obj_own : list (jsstring * V)
}.
Arguments mkObject {V}.
Arguments obj_proto {V}.
Arguments obj_own {V}.

Definition emptyObject {V} : JSObject V := mkObject None [].

(** A canonical numeric string of an integer up to [2^32 - 2]. *)
Definition arrayIndex (k : jsstring) : option N :=
  match k with
  | [] => None
  | c :: r =>
      if forallb isDigit k && (negb (c =? 48) || jseqb r []) &&
         (Number_of_digits k <=? 4294967294)
      then Some (Number_of_digits k)
      else None
  end.

Definition PROTO : jsstring := lit "__proto__".

Section ObjectMap.
Context {V : Type}.

Fixpoint hasOwn (k : jsstring) (o : list (jsstring * V)) : bool :=
  match o with
  | [] => false
  | (k', _) :: rest => jseqb k k' || hasOwn k rest
  end.

Fixpoint overwrite (k : jsstring) (v : V) (o : list (jsstring * V))
    : list (jsstring * V) :=
  match o with
  | [] => []
  | (k', v') :: rest =>
      if jseqb k k' then (k', v) :: rest
      else (k', v') :: overwrite k v rest
  end.

Fixpoint insertIndex (n : N) (k : jsstring) (v : V)
    (o : list (jsstring * V)) : list (jsstring * V) :=
  match o with
  | [] => [(k, v)]
  | (k', v') :: rest =>
      match arrayIndex k' with
      | Some n' =>
          if n <? n' then (k, v) :: o
          else (k', v') :: insertIndex n k v rest
      | None => (k, v) :: o
      end
  end.

(** [o[k] = v] *)
Definition setProp (o : JSObject V) (k : jsstring) (v : V) : JSObject V :=
  if jseqb k PROTO then mkObject (Some v) (obj_own o)
  else if hasOwn k (obj_own o)
  then mkObject (obj_proto o) (overwrite k v (obj_own o))
  else
    match arrayIndex k with
    | Some n => mkObject (obj_proto o) (insertIndex n k v (obj_own o))
    | None => mkObject (obj_proto o) (obj_own o ++ [(k, v)])
    end.

(** [Object.values(o)] *)
Definition Object_values (o : JSObject V) : list V := map snd (obj_own o).
End ObjectMap.

(** *** [Array.prototype.sort]

    The sort is stable, and with a consistent comparator its result is
    the one sorted arrangement that keeps equal elements in their order;
    an insertion sort from the right computes it. *)

Section Sort.
Context {A : Type} (cmp : A -> A -> Z).

Fixpoint insertBy (x : A) (l : list A) : list A :=
  match l with
  | [] => [x]
  | y :: r => if (0 <? cmp x y)%Z then y :: insertBy x r else x :: l
  end.

Definition sortBy (l : list A) : list A := fold_right insertBy [] l.
End Sort.

(** [order[status] ?? 99] with
    [order = { In: 0, Out: 1, Unavailable: 2, Unknown: 3 }] *)
Definition statusOrder (status : jsstring) : Z :=
  if jseqb status (lit "In") then 0
  else if jseqb status (lit "Out") then 1
  else if jseqb status (lit "Unavailable") then 2
  else if jseqb status (lit "Unknown") then 3
  else 99.

(** *** The pipeline

    What the program takes from its host is a parameter here: the
    reading of the clock at each [new Date().toISOString()], the date
    parser behind [new Date(text)] ([None] for an invalid date), the
    rendering [toISOString] of a time value, and the collation order of
    [localeCompare]. *)

Section Pipeline.
Variable clock : nat -> jsstring.
Variable Date_parse : jsstring -> option Z.
Variable toISOString : Z -> jsstring.
Variable localeCompare : jsstring -> jsstring -> Z.

(** Computations that read the clock: the state is the number of
    readings taken so far. *)
Definition M (A : Type) : Type := nat -> A * nat.
Definition ret {A} (x : A) : M A := fun n => (x, n).
Definition bind {A B} (c : M A) (f : A -> M B) : M B :=
  fun n => let (x, n') := c n in f x n'.
Definition now : M jsstring := fun n => (clock n, S n).

Notation "x <- c ;; k" := (bind c (fun x => k))
  (at level 61, c at next level, right associativity).

(** [parseUpdatedFromCell], server.js:106.  A valid date has a finite
    time value, so the second test of [epochMs] never fires. *)
Definition parseUpdatedFromCell (td : Cell) : Updated.t :=
  let text := extractCellText td in
  if isFormatToken text then
    Updated.mk None None None (Some (lit "FormatTokenSeen"))
  else
    let d :=
      match text with
      | [] => None
      | _ :: _ => Date_parse text
      end in
    Updated.mk (orNull text) (option_map toISOString d) d None.

(** [s.replace(/^Row/, "")] *)
Definition stripRow (s : jsstring) : jsstring :=
  if prefixb (lit "Row") s then skipn 3 s else s.

(** [rowToRecord], server.js:147 *)
Definition rowToRecord (tr : Row) : M (option Rec) :=
  match cells tr with
  | td0 :: td1 :: td2 :: td3 :: td4 :: td5 :: td6 :: _ =>
      let trClass := trim (orEmpty (attr_class tr)) in
      let idFromHidden := extractCellText td0 in
      let idFromAttr := stripRow (orEmpty (attr_id tr)) in
      match orElse (orNull idFromHidden) (orNull idFromAttr) with
      | None => ret None
      | Some id =>
          let statusCellText := extractCellText td1 in
          let status := normalizeStatus trClass statusCellText in
          let nameTitleRaw := extractCellText td2 in
          let nt := splitNameAndTitle nameTitleRaw in
          let contactRaw := extractCellText td3 in
          let phone := parsePhone contactRaw in
          let remarks := orNull (extractCellText td4) in
          let returning := parseReturning (extractCellText td5) in
          let updated := parseUpdatedFromCell td6 in
          parsedAt <- now ;;
          ret (Some
            (mkRec id status
               (orNull (orEmpty (nt_name nt)))
               (orNull (orEmpty (nt_title nt)))
               (Contact.mk (Contact.raw phone) (Contact.digits phone)
                  (Contact.e164 phone) (Contact.pretty phone))
               remarks
               (Returning.mk (Returning.raw returning)
                  (Returning.hhmm returning) (Returning.pretty returning)
                  (Returning.tokens returning))
               (Updated.mk (Updated.local updated)
                  (Updated.isoGuess updated) (Updated.epochMs updated)
                  (Updated.debug updated))
               (mkMeta (orNull trClass)
                  (orNull (orEmpty (attr_id tr)))
                  parsedAt
                  (mkFlags (jseqb status (lit "In"))
                     (jseqb status (lit "Out"))
                     (jseqb status (lit "Unavailable"))))))
      end
  | _ => ret None
  end.

(** [rows.each(...)]: the records of the rows, in source order; a
    rejected row adds nothing. *)
Fixpoint collect (rows : list Row) : M (list Rec) :=
  match rows with
  | [] => ret []
  | tr :: rest =>
      rec <- rowToRecord tr ;;
      items <- collect rest ;;
      ret (match rec with
           | Some r =>
               match rec_id r with
               | [] => items
               | _ :: _ => r :: items
               end
           | None => items
           end)
  end.

(** Dedup by id, keep last. *)
Definition dedupe (items : list Rec) : list Rec :=
  Object_values
    (fold_left (fun acc r => setProp acc (rec_id r) r) items emptyObject).

(** The comparator of [deduped.sort]. *)
Definition compareRecords (a b : Rec) : Z :=
  let aK := statusOrder (rec_status a) in
  let bK := statusOrder (rec_status b) in
  if negb (aK =? bK)%Z then (aK - bK)%Z
  else localeCompare (orEmpty (rec_name a)) (orEmpty (rec_name b)).

(** The Board Reducer: lines 239 to 251 of [fetchBoard]. *)
Definition reduceBoard (items : list Rec) : list Rec :=
  sortBy compareRecords (dedupe items).

(** What [await axios.get] and [cheerio.load] come to: an exception,
    of which the handler reads [err?.message], or the rows selected
    from the page. *)
Inductive Fetched :=
| Thrown (message : option jsstring)
| Loaded (rows : list Row).

(** [fetchBoard], server.js:214.  The console output is left out. *)
Definition fetchBoard (page : Fetched) (cache : Cache) : M Cache :=
  match page with
  | Loaded rows =>
      items <- collect rows ;;
      let deduped := reduceBoard items in
      t <- now ;;
      ret (mkCache (Some t) deduped None)
  | Thrown message =>
      t <- now ;;
      let msg :=
        match orEmpty message with
        | [] => lit "Unknown error"
        | m => m
        end in
      ret (mkCache (lastFetched cache) (items cache)
             (Some (mkErrorInfo msg t)))
  end.

(** The refresh cycles of a run, one after the other. *)
Fixpoint refreshAll (pages : list Fetched) (cache : Cache) : M Cache :=
  match pages with
  | [] => ret cache
  | page :: rest =>
      cache' <- fetchBoard page cache ;;
      refreshAll rest cache'
  end.
End Pipeline.

(** *** The root route *)

(** The body of the answer to [GET /]. *)
Record Root := mkRoot {
  root_service : jsstring;
  root_source : jsstring;
  root_lastFetched : option jsstring;
  root_count : nat;
  root_error : option ErrorInfo
}.

Definition SOURCE_URL : jsstring :=
  lit "https://aretheyin.boldmethod.com/index.aspx?op=public&sid=d2f78e63-1fb3-40ae-957f-920d2a455d85".

(** [app.get("/", ...)], server.js:299 *)
Definition getRoot (cache : Cache) : Root :=
  mkRoot (lit "are-they-in-api") SOURCE_URL (lastFetched cache)
    (length (items cache)) (error cache).

(* ================================================================= *)
(** ** Earlier versions of the program

    The sources keep earlier versions of the program beside the one
    modelled above: [server.js] from its line 334 on, and the first
    scraper in [part_000] and [part_001].  Those of their functions
    that differ are modelled here, under the names they have there. *)

(** [/\s+/] *)
Definition m_spaces : matcher :=
  fun s =>
    match length (takeWhile isSpace s) with
    | O => None
    | n => Some n
    end.

Module First.

(** [decode], part_000:22 and part_001:27 *)
Definition decode (s : jsstring) : jsstring :=
  trim (replaceAll m_spaces (lit " ")
          (replaceAll (m_lit [NBSP]) (lit " ") s)).

End First.

Module Earlier.

(** [decode], server.js:354: the whitespace passes of the later
    version, without the entities. *)
Definition decode (s : jsstring) : jsstring :=
  trim (decode_spaces (replaceAll (m_lit [NBSP]) (lit " ") s)).

(** What [normalizeStatus] returned then: the status and its flags. *)
Record Status := mkStatus {
  value : jsstring;
  isIn : bool;
  isOut : bool;
  isUnavailable : bool
}.

(** [pick], server.js:454: the flags compare the status with the
    lower-case words. *)
Definition pick (s : jsstring) : Status :=
  mkStatus s (jseqb s (lit "in")) (jseqb s (lit "out"))
    (jseqb s (lit "unavailable")).

Section Host.
(** The case conversions of the host, with its full Unicode tables:
    [cellText.toLowerCase()] as the fallback shows it, and
    [t[0].toUpperCase()], the upper case of one code unit. *)
Variable lowerText : jsstring -> jsstring.
Variable upperFirst : cu -> jsstring.

(** [normalizeStatus], server.js:450.  The three tests compare the
    lower-cased texts with ASCII patterns, for which [toLowerCase]
    above is exact; the fallback returns the lower-cased cell text
    itself, capitalised, and there the lower-casing is the host's. *)
Definition normalizeStatus (trClass cellText : jsstring) : Status :=
  let c := toLowerCase trClass in
  let t := toLowerCase cellText in
  if includes (lit "initem") c || jseqb t (lit "in") then pick (lit "In")
  else if includes (lit "outitem") c || jseqb t (lit "out")
  then pick (lit "Out")
  else if includes (lit "unavailable") c || jseqb t (lit "unavailable")
  then pick (lit "Unavailable")
  else
    pick (match lowerText cellText with
          | [] => lit "Unknown"
          | x :: r => upperFirst x ++ r
          end).
End Host.

End Earlier.

(* ================================================================= *)
(** ** Notions the properties are stated with *)

(** [p] occurs in [s]. *)
Definition contains (p s : jsstring) : Prop :=
  exists pre post, s = pre ++ p ++ post.

(** A meridiem-shaped time inside a text: an hour of one or two digits
    that does not continue a word, an optional colon, optional minutes
    of two digits, optional whitespace, and AM or PM in either case,
    after which no word character follows. *)
Definition MeridiemIn (text : jsstring) (m : Meridiem) : Prop :=
  exists pre colon ws post,
    text = pre ++ m_hour m ++ colon ++ orEmpty (m_minutes m) ++ ws ++
           m_ampm m ++ post /\
    isWordAt (hd_error (rev pre)) = false /\
    (length (m_hour m) = 1%nat \/ length (m_hour m) = 2%nat) /\
    forallb isDigit (m_hour m) = true /\
    (colon = [] \/ colon = lit ":") /\
    (m_minutes m = None \/
     exists x, m_minutes m = Some x /\ length x = 2%nat /\
               forallb isDigit x = true) /\
    forallb isSpace ws = true /\
    (toUpperCase (m_ampm m) = lit "AM" \/
     toUpperCase (m_ampm m) = lit "PM") /\
    isWordAt (hd_error post) = false.

(** The minutes of a meridiem time, "00" when it has none. *)
Definition minutesOf (m : Meridiem) : jsstring :=
  match m_minutes m with
  | Some x => x
  | None => lit "00"
  end.

(** The alphabetic words of a text, in their order: the maximal runs
    of letters. *)
Inductive AlphaWords : jsstring -> list jsstring -> Prop :=
| AW_end : AlphaWords [] []
| AW_skip (c : cu) (s : jsstring) (ws : list jsstring) :
    isAlpha c = false -> AlphaWords s ws -> AlphaWords (c :: s) ws
| AW_word (w s : jsstring) (ws : list jsstring) :
    w <> [] -> forallb isAlpha w = true ->
    match s with [] => True | c :: _ => isAlpha c = false end ->
    AlphaWords s ws -> AlphaWords (w ++ s) (w :: ws).

(** A hyphen-like separator followed by whitespace occurs in [t]. *)
Definition hasSeparator (t : jsstring) : Prop :=
  exists pre d w post,
    t = pre ++ d :: w :: post /\ isDash d = true /\ isSpace w = true.

(** No whitespace at the head of [s]. *)
Definition noSpaceAhead (s : jsstring) : Prop :=
  match s with
  | [] => True
  | c :: _ => isSpace c = false
  end.

(** The last record of [items], in source order, whose id is [k]. *)
Definition lastWithId (k : jsstring) (items : list Rec) : option Rec :=
  find (fun r => jseqb (rec_id r) k) (rev items).

(** The records of a list whose id is [k]. *)
Definition withId (k : jsstring) (items : list Rec) : list Rec :=
  filter (fun r => jseqb (rec_id r) k) items.

(** The sort key of the board: status priority first, name second. *)
Definition keyLe (localeCompare : jsstring -> jsstring -> Z) (a b : Rec)
    : Prop :=
  (statusOrder (rec_status a) < statusOrder (rec_status b))%Z \/
  (statusOrder (rec_status a) = statusOrder (rec_status b) /\
   (localeCompare (orEmpty (rec_name a)) (orEmpty (rec_name b)) <= 0)%Z).

(** A collation order answers consistently when its arguments are
    swapped. *)
Definition Consistent (localeCompare : jsstring -> jsstring -> Z) : Prop :=
  forall x y, (0 < localeCompare x y)%Z -> (localeCompare y x <= 0)%Z.

(** Comparison by code units, an order [localeCompare] may be. *)
Fixpoint compareUnits (x y : jsstring) : Z :=
  match x, y with
  | [], [] => 0
  | [], _ :: _ => -1
  | _ :: _, [] => 1
  | a :: x', b :: y' =>
      if a <? b then -1 else if b <? a then 1 else compareUnits x' y'
  end.

(** The values an object stores under the key [k]. *)
Definition storedUnder {V : Type} (k : jsstring) (o : list (jsstring * V))
    : list V :=
  map snd (filter (fun kv => jseqb (fst kv) k) o).

(** One of the entities [decode] unescapes starts at some position of
    the text. *)
Fixpoint hasEntity (s : jsstring) : bool :=
  match s with
  | [] => false
  | _ :: r =>
      prefixb (lit "&nbsp;") s || prefixb (lit "&amp;") s ||
      prefixb (lit "&lt;") s || prefixb (lit "&gt;") s || hasEntity r
  end.

(** Neighbouring code units a decoded text never shows: two spaces, a
    whitespace before a line feed, a whitespace after a line feed. *)
Definition notTwoSpaces (a b : cu) : Prop := ~ (a = SP /\ b = SP).
Definition notSpaceThenLF (a b : cu) : Prop :=
  ~ (isSpace a = true /\ b = LF).
Definition notLFThenSpace (a b : cu) : Prop :=
  ~ (a = LF /\ isSpace b = true).

(** The form of a decoded text: no non-breaking space, no tab, none of
    the three forbidden neighbourhoods, and no whitespace at either
    end. *)
Definition Decoded (y : jsstring) : Prop :=
  Forall (fun c => c <> NBSP) y /\
  Forall (fun c => c <> TAB) y /\
  Sorted notTwoSpaces y /\
  Sorted notSpaceThenLF y /\
  Sorted notLFThenSpace y /\
  trim y = y.

(** The unpopulated template of the Updated column: the letters of
    [MM/dd] in either case, whitespace, and the letters of [HH:mm]. *)
Definition FormatToken (text : jsstring) : Prop :=
  exists p ws q,
    text = p ++ ws ++ q /\
    map upperCU p = lit "MM/DD" /\
    ws <> [] /\ forallb isSpace ws = true /\
    map upperCU q = lit "HH:MM".

(** No [<] is followed by a [>]: the neighbourhood, at any distance,
    that a text without tags never shows. *)
Definition noTagLeft (a b : cu) : Prop := ~ (a = 60 /\ b = 62).

(** A code unit that is no whitespace, or the plain space. *)
Definition plainOrSpace (x : cu) : Prop := isSpace x = false \/ x = SP.

(** The cell of a row at a column, an empty cell when the row is too
    short. *)
Definition cellAt (i : nat) (tr : Row) : Cell :=
  nth i (cells tr) (mkCell [] None).

(** The id the Row Assembler gives a row: the text of the hidden first
    cell, or else the [id] attribute without its [Row] prefix. *)
Definition rowId (tr : Row) : jsstring :=
  match extractCellText (cellAt 0 tr) with
  | [] => stripRow (orEmpty (attr_id tr))
  | x => x
  end.

(** The rows the Row Assembler accepts: seven cells at least and an id
    that is not empty. *)
Definition accepted (tr : Row) : bool :=
  Nat.leb 7 (length (cells tr)) && negb (jseqb (rowId tr) []).

(** The ids of a page that reach the board: those of the accepted
    rows, [__proto__] apart, each once. *)
Definition boardIds (rows : list Row) : list jsstring :=
  nodup (list_eq_dec N.eq_dec)
    (filter (fun k => negb (jseqb k PROTO)) (map rowId (filter accepted rows))).

(** Two records the comparator of the board does not tell apart: the
    same status rank and the same name. *)
Definition sameKey (e r : Rec) : bool :=
  (statusOrder (rec_status e) =? statusOrder (rec_status r))%Z &&
  jseqb (orEmpty (rec_name e)) (orEmpty (rec_name r)).

(** A collation order that is transitive. *)
Definition Transitive (localeCompare : jsstring -> jsstring -> Z) : Prop :=
  forall x y z,
    (localeCompare x y <= 0)%Z -> (localeCompare y z <= 0)%Z ->
    (localeCompare x z <= 0)%Z.

(** The key is an array index. *)
Definition isIndexKey (k : jsstring) : bool :=
  match arrayIndex k with
  | Some _ => true
  | None => false
  end.

(** The order in which an object enumerates two of its keys: the
    array indices by ascending number, and each of them before every
    other key. *)
Definition keyOrder (a b : jsstring) : Prop :=
  match arrayIndex a, arrayIndex b with
  | Some i, Some j => i < j
  | Some _, None => True
  | None, Some _ => False
  | None, None => True
  end.

(** The keys of a list, each once, in the order of their first
    occurrence. *)
Definition firstSeen (ks : list jsstring) : list jsstring :=
  fold_left
    (fun acc k => if existsb (jseqb k) acc then acc else acc ++ [k]) ks [].

(** A record as the Row Assembler makes them: an id that is neither
    empty nor [__proto__], one of the four statuses, the flags of that
    status, and a name that is null or not empty. *)
Definition WellFormed (r : Rec) : Prop :=
  rec_id r <> [] /\ rec_id r <> PROTO /\
  In (rec_status r) [lit "In"; lit "Out"; lit "Unavailable"; lit "Unknown"] /\
  meta_flags (rec_meta r) =
    mkFlags (jseqb (rec_status r) (lit "In"))
            (jseqb (rec_status r) (lit "Out"))
            (jseqb (rec_status r) (lit "Unavailable")) /\
  rec_name r <> Some [] /\ rec_title r <> Some [].

(** A snapshot fit to be served: records with distinct ids, each well
    formed, in the order of the board, and none before the first
    successful refresh. *)
Definition BoardOK (localeCompare : jsstring -> jsstring -> Z) (c : Cache)
    : Prop :=
  NoDup (map rec_id (items c)) /\
  Forall WellFormed (items c) /\
  Sorted (keyLe localeCompare) (items c) /\
  (lastFetched c = None -> items c = []).



(** A record without its [parsedAt] stamp. *)
Definition unstamped (r : Rec) : Rec :=
  mkRec (rec_id r) (rec_status r) (rec_name r) (rec_title r)
    (rec_contact r) (rec_remarks r) (rec_returning r) (rec_updated r)
    (mkMeta (meta_trClass (rec_meta r)) (meta_rowIdAttr (rec_meta r)) []
       (meta_flags (rec_meta r))).

(** An object with a function applied to its values. *)
Definition mapValues {V W : Type} (f : V -> W) (o : JSObject V)
    : JSObject W :=
  mkObject (option_map f (obj_proto o))
    (map (fun kv => (fst kv, f (snd kv))) (obj_own o)).

(* ================================================================= *)
(** ** The specification's wording, for comparison *)

(** The Status Classifier as the specification words it: the class
    markers are tried first, in the order in, out, unavailable, and the
    cell text is consulted only when no class marker matches. *)
Definition classify_class_first (trClass cellText : jsstring) : jsstring :=
  let c := toLowerCase trClass in
  let t := toLowerCase cellText in
  if includes (lit "initem") c then lit "In"
  else if includes (lit "outitem") c then lit "Out"
  else if includes (lit "unavailable") c then lit "Unavailable"
  else if jseqb t (lit "in") then lit "In"
  else if jseqb t (lit "out") then lit "Out"
  else if jseqb t (lit "unavailable") then lit "Unavailable"
  else lit "Unknown".

(* ================================================================= *)
(** ** Sample inputs *)

Definition clock0 : nat -> jsstring :=
  fun n => lit "2025-10-16T08:34:0" ++ String_of_N (N.of_nat n) ++ lit "Z".
Definition Date_parse0 : jsstring -> option Z := fun _ => None.
Definition toISOString0 : Z -> jsstring := fun _ => [].

Definition textCell (s : jsstring) : Cell := mkCell s (Some s).

Definition sampleRow (class id status : string) : Row :=
  mkRow (Some (lit class)) (Some (lit "Row1"))
    [ textCell (lit id); textCell (lit status);
      textCell (lit "Aaron TerBest - FDM Analyst");
      textCell (lit "701.777.7868"); textCell (lit "Campus");
      textCell (lit "1145"); textCell (lit "MM/dd HH:mm") ].

Definition placeholderCell : Cell := textCell (lit "MM/dd HH:mm").

(** A record as the Row Assembler builds it, with a given id, status
    and name. *)
Definition sampleRec (id status name : string) : Rec :=
  mkRec (lit id) (lit status) (orNull (lit name)) None
    (Contact.mk None None None None) None
    (Returning.mk None None None [])
    (Updated.mk None None None None)
    (mkMeta None None (clock0 0)
       (mkFlags (jseqb (lit status) (lit "In"))
          (jseqb (lit status) (lit "Out"))
          (jseqb (lit status) (lit "Unavailable")))).

(* ================================================================= *)
(** ** Properties *)

(** *** Strings and lists *)

Lemma jseqb_eq (a b : jsstring) : jseqb a b = true <-> a = b.
Proof.
  revert b; induction a as [|x a IH]; intros [|y b]; simpl;
    try (split; [discriminate | intros H; discriminate H]);
    try (split; reflexivity).
  rewrite andb_true_iff, N.eqb_eq, IH.
  split; [intros [-> ->]; reflexivity | intros H; inversion H; auto].
Qed.

Lemma jseqb_refl (a : jsstring) : jseqb a a = true.
Proof. apply jseqb_eq; reflexivity. Qed.

Lemma jseqb_neq (a b : jsstring) : jseqb a b = false <-> a <> b.
Proof.
  rewrite <- jseqb_eq. destruct (jseqb a b); split; congruence.
Qed.

Lemma between_spec (lo hi c : cu) :
  between lo hi c = true <-> lo <= c /\ c <= hi.
Proof.
  unfold between. rewrite andb_true_iff, !N.leb_le. reflexivity.
Qed.

Lemma prefixb_spec (p s : jsstring) :
  prefixb p s = true <-> exists post, s = p ++ post.
Proof.
  revert s; induction p as [|x p IH]; intros s; simpl.
  - split; eauto.
  - destruct s as [|y s].
    + split; [discriminate | intros [post H]; discriminate H].
    + rewrite andb_true_iff, N.eqb_eq, IH. split.
      * intros [-> [post ->]]. eauto.
      * intros [post H]. injection H as -> ->. eauto.
Qed.

Lemma prefixb_length (p s : jsstring) :
  prefixb p s = true -> (length p <= length s)%nat.
Proof.
  revert s; induction p as [|x p IH]; intros [|y s]; simpl;
    try discriminate; try lia.
  rewrite andb_true_iff. intros [_ H]. specialize (IH s H). lia.
Qed.

Lemma includes_spec (p s : jsstring) :
  includes p s = true <-> contains p s.
Proof.
  unfold contains. induction s as [|c s IH].
  - simpl. rewrite orb_false_r, prefixb_spec. split.
    + intros [post H]. exists [], post. exact H.
    + intros (pre & post & H). destruct pre as [|x pre]; [eauto|discriminate].
  - cbn [includes]. rewrite orb_true_iff, prefixb_spec, IH. split.
    + intros [[post H]|(pre & post & H)].
      * exists [], post. exact H.
      * exists (c :: pre), post. simpl. congruence.
    + intros (pre & post & H). destruct pre as [|x pre].
      * left. eauto.
      * right. injection H as -> ->. eauto.
Qed.

Lemma includes_suffix (p pre t : jsstring) :
  prefixb p t = true -> includes p (pre ++ t) = true.
Proof.
  intros H. induction pre as [|c pre IH]; cbn [app].
  - destruct t; cbn [includes]; rewrite H; reflexivity.
  - cbn [includes]. rewrite IH. apply orb_true_r.
Qed.

Lemma includes_found (p s : jsstring) :
  includes p s = true -> exists pre t, s = pre ++ t /\ prefixb p t = true.
Proof.
  induction s as [|c s IH]; cbn [includes].
  - rewrite orb_false_r. intros H. exists [], []. auto.
  - rewrite orb_true_iff. intros [H|H].
    + exists [], (c :: s). auto.
    + destruct (IH H) as (pre & t & -> & Ht). exists (c :: pre), t. auto.
Qed.

(** What [isFormatToken] accepts: the letters of [MM/dd], in either
    case, a non-empty run of whitespace, and the letters of [HH:mm]. *)
Lemma stripPrefixCI_spec (p s r : jsstring) :
  stripPrefixCI p s = Some r <->
  exists q, s = q ++ r /\ map upperCU q = map upperCU p.
Proof.
  revert s; induction p as [|x p IH]; intros s; simpl.
  - split.
    + intros H; injection H as <-. exists []; auto.
    + intros (q & -> & Hq). destruct q; [reflexivity | discriminate].
  - destruct s as [|y s].
    + split; [discriminate|].
      intros (q & Hs & Hq). destruct q; [discriminate Hq | discriminate Hs].
    + unfold ciEq. destruct (N.eqb_spec (upperCU x) (upperCU y)) as [E|E].
      * rewrite IH. split.
        -- intros (q & -> & Hq). exists (y :: q). simpl. split; congruence.
        -- intros (q & Hs & Hq). destruct q as [|z q]; [discriminate|].
           simpl in *. injection Hs as -> ->. injection Hq as _ Hq. eauto.
      * split; [discriminate|].
        intros (q & Hs & Hq). destruct q as [|z q]; [discriminate|].
        simpl in *. injection Hs as -> ->. injection Hq as Hx _. congruence.
Qed.

Lemma length_ind (P : jsstring -> Prop) :
  (forall s, (forall t, (length t < length s)%nat -> P t) -> P s) ->
  forall s, P s.
Proof.
  intros H s. remember (length s) as n eqn:E. revert s E.
  induction n as [n IH] using lt_wf_ind. intros s ->.
  apply H. intros t Ht. exact (IH _ Ht t eq_refl).
Qed.

Lemma takeWhile_dropWhile (f : cu -> bool) (s : jsstring) :
  takeWhile f s ++ dropWhile f s = s.
Proof.
  induction s as [|c s IH]; simpl; [reflexivity|].
  destruct (f c); simpl; congruence.
Qed.

Lemma takeWhile_all (f : cu -> bool) (s : jsstring) :
  forallb f (takeWhile f s) = true.
Proof.
  induction s as [|c s IH]; simpl; [reflexivity|].
  destruct (f c) eqn:E; simpl; [rewrite E; exact IH | reflexivity].
Qed.

Lemma takeWhile_length (f : cu -> bool) (s : jsstring) :
  (length (takeWhile f s) <= length s)%nat.
Proof.
  induction s as [|c s IH]; simpl; [lia|]. destruct (f c); simpl; lia.
Qed.

Lemma firstn_takeWhile (f : cu -> bool) (s : jsstring) :
  firstn (length (takeWhile f s)) s = takeWhile f s.
Proof.
  induction s as [|c s IH]; simpl; [reflexivity|].
  destruct (f c); simpl; [rewrite IH|]; reflexivity.
Qed.

Lemma skipn_takeWhile (f : cu -> bool) (s : jsstring) :
  skipn (length (takeWhile f s)) s = dropWhile f s.
Proof.
  induction s as [|c s IH]; simpl; [reflexivity|].
  destruct (f c); simpl; [exact IH | reflexivity].
Qed.

Lemma takeWhile_skipn (f : cu -> bool) (i : nat) (s : jsstring) :
  (i <= length (takeWhile f s))%nat ->
  takeWhile f (skipn i s) = skipn i (takeWhile f s).
Proof.
  revert s; induction i as [|i IH]; intros s; [reflexivity|].
  destruct s as [|c r]; [reflexivity|]. cbn [takeWhile].
  destruct (f c) eqn:E; cbn [length skipn]; [|lia].
  intros H. apply IH. lia.
Qed.

Lemma takeWhile_app_stop (f : cu -> bool) (a : jsstring) (c : cu)
    (r : jsstring) :
  forallb f a = true -> f c = false ->
  takeWhile f (a ++ c :: r) = a.
Proof.
  intros Ha Hc. induction a as [|x a IH]; simpl in *.
  - rewrite Hc. reflexivity.
  - apply andb_true_iff in Ha as [Hx Ha]. rewrite Hx, IH by exact Ha.
    reflexivity.
Qed.

Lemma takeWhile_app_end (f : cu -> bool) (a r : jsstring) :
  forallb f a = true ->
  match r with [] => True | c :: _ => f c = false end ->
  takeWhile f (a ++ r) = a.
Proof.
  intros Ha Hr. destruct r as [|c r].
  - rewrite app_nil_r. clear Hr.
    induction a as [|x a IH]; simpl in *; [reflexivity|].
    apply andb_true_iff in Ha as [Hx Ha]. rewrite Hx, IH by exact Ha.
    reflexivity.
  - apply takeWhile_app_stop; assumption.
Qed.

Lemma dropWhile_app_stop (f : cu -> bool) (a : jsstring) (c : cu)
    (r : jsstring) :
  forallb f a = true -> f c = false ->
  dropWhile f (a ++ c :: r) = c :: r.
Proof.
  intros Ha Hc. induction a as [|x a IH]; simpl in *.
  - rewrite Hc. reflexivity.
  - apply andb_true_iff in Ha as [Hx Ha]. rewrite Hx. auto.
Qed.

Lemma dropWhile_head (f : cu -> bool) (s : jsstring) :
  match dropWhile f s with
  | [] => True
  | c :: _ => f c = false
  end.
Proof.
  induction s as [|c s IH]; simpl; [exact I|].
  destruct (f c) eqn:E; [exact IH | exact E].
Qed.

Lemma dropWhile_stop (f : cu -> bool) (l : jsstring) :
  match l with [] => True | c :: _ => f c = false end ->
  dropWhile f l = l.
Proof.
  destruct l as [|c l]; [reflexivity|]. cbn [dropWhile]. intros ->.
  reflexivity.
Qed.

Lemma dropWhile_length (f : cu -> bool) (s : jsstring) :
  (length (dropWhile f s) <= length s)%nat.
Proof.
  induction s as [|c s IH]; simpl; [lia|]. destruct (f c); simpl; lia.
Qed.

Lemma skipn_app_exact (a b : jsstring) (n : nat) :
  n = length a -> skipn n (a ++ b) = b.
Proof.
  intros ->. rewrite skipn_app, skipn_all, Nat.sub_diag. reflexivity.
Qed.

Lemma skipn_length_lt (n : nat) (c : cu) (r : jsstring) :
  (length (skipn n r) < length (c :: r))%nat.
Proof. rewrite length_skipn. simpl. lia. Qed.

Lemma forallb_app_true (f : cu -> bool) (a b : jsstring) :
  forallb f (a ++ b) = true -> forallb f a = true /\ forallb f b = true.
Proof. rewrite forallb_app, andb_true_iff. auto. Qed.

Lemma hd_error_rev_cons (c : cu) (pre : jsstring) :
  hd_error (rev (c :: pre)) =
    match hd_error (rev pre) with
    | Some x => Some x
    | None => Some c
    end.
Proof.
  cbn [rev]. destruct (rev pre) as [|x l]; reflexivity.
Qed.

Lemma Forall_skipn_N (P : cu -> Prop) (n : nat) (s : jsstring) :
  Forall P s -> Forall P (skipn n s).
Proof.
  intros H. rewrite <- (firstn_skipn n s) in H.
  apply Forall_app in H. tauto.
Qed.

Lemma Forall_at (P : cu -> Prop) (pre : jsstring) (c : cu) (r : jsstring) :
  Forall P (pre ++ c :: r) -> P c /\ Forall P r.
Proof.
  intros H. apply Forall_app in H as [_ H].
  apply Forall_cons_iff in H. exact H.
Qed.

Lemma Sorted_app_r (R : cu -> cu -> Prop) (a b : jsstring) :
  Sorted R (a ++ b) -> Sorted R b.
Proof.
  induction a as [|x a IH]; cbn [app]; [auto|].
  intros H. apply Sorted_inv in H as [H _]. auto.
Qed.

Lemma Sorted_app_l (R : cu -> cu -> Prop) (a b : jsstring) :
  Sorted R (a ++ b) -> Sorted R a.
Proof.
  induction a as [|x a IH]; cbn [app]; [constructor|].
  intros H. apply Sorted_inv in H as [H Hx]. constructor; [auto|].
  destruct a; [constructor|]. cbn [app] in Hx.
  constructor. exact (HdRel_inv Hx).
Qed.

Lemma Sorted_skipn (R : cu -> cu -> Prop) (n : nat) (s : jsstring) :
  Sorted R s -> Sorted R (skipn n s).
Proof.
  intros H. rewrite <- (firstn_skipn n s) in H.
  exact (Sorted_app_r _ _ _ H).
Qed.

Lemma Sorted_weaken {A : Type} (R R' : A -> A -> Prop) (l : list A) :
  (forall a b, R a b -> R' a b) -> Sorted R l -> Sorted R' l.
Proof.
  intros H. induction 1 as [|x l Hl IH Hx]; constructor; [exact IH|].
  destruct Hx; constructor; auto.
Qed.

Lemma HdRel_any (R : cu -> cu -> Prop) (a : cu) (l : jsstring) :
  (forall y, R a y) -> HdRel R a l.
Proof. intros H. destruct l; constructor. apply H. Qed.

Lemma lastIndexOf_none (c : cu) (l : jsstring) :
  lastIndexOf c l = None <-> ~ In c l.
Proof.
  induction l as [|x l IH]; cbn [lastIndexOf In]; [tauto|].
  destruct (lastIndexOf c l) as [i|].
  - split; [discriminate|]. intros H. exfalso.
    assert (Hn : ~ In c l) by tauto.
    apply IH in Hn. discriminate.
  - destruct (N.eqb_spec x c) as [->|Hx].
    + split; [discriminate | tauto].
    + split; [|reflexivity]. intros _ [E|E]; [congruence|].
      apply (proj1 IH eq_refl E).
Qed.

Lemma lastIndexOf_some (c : cu) (l : jsstring) (i : nat) :
  lastIndexOf c l = Some i -> ~ In c (skipn (S i) l).
Proof.
  revert i; induction l as [|x l IH]; intros i; cbn [lastIndexOf].
  - discriminate.
  - destruct (lastIndexOf c l) as [j|] eqn:E.
    + intros H; injection H as <-. cbn [skipn]. apply IH. reflexivity.
    + destruct (x =? c); [|discriminate].
      intros H; injection H as <-. cbn [skipn].
      apply lastIndexOf_none. exact E.
Qed.

Lemma lastIndexOf_bound (c : cu) (l : jsstring) (i : nat) :
  lastIndexOf c l = Some i -> (i < length l)%nat.
Proof.
  revert i; induction l as [|x l IH]; intros i; cbn [lastIndexOf].
  - discriminate.
  - destruct (lastIndexOf c l) as [j|].
    + intros H; injection H as <-. specialize (IH j eq_refl). simpl. lia.
    + destruct (x =? c); [|discriminate].
      intros H; injection H as <-. simpl. lia.
Qed.

(** *** The scanning functions, one step at a time *)

Lemma replaceFrom_skip (m : matcher) (rep : jsstring) (k : nat)
    (s : jsstring) :
  replaceFrom m rep k s = replaceAll m rep (skipn k s).
Proof.
  revert k; induction s as [|c r IH]; intros [|k]; try reflexivity.
  simpl. apply IH.
Qed.

Lemma replaceAll_cons (m : matcher) (rep : jsstring) (c : cu)
    (r : jsstring) :
  replaceAll m rep (c :: r) =
    match m (c :: r) with
    | Some (S n) => rep ++ replaceAll m rep (skipn n r)
    | _ => c :: replaceAll m rep r
    end.
Proof.
  unfold replaceAll at 1. cbn [replaceFrom].
  destruct (m (c :: r)) as [[|n]|]; try reflexivity.
  rewrite replaceFrom_skip. reflexivity.
Qed.

Lemma matchesFrom_skip (m : matcher) (k : nat) (s : jsstring) :
  matchesFrom m k s = matchAll m (skipn k s).
Proof.
  revert k; induction s as [|c r IH]; intros [|k]; try reflexivity.
  simpl. apply IH.
Qed.

Lemma matchAll_cons (m : matcher) (c : cu) (r : jsstring) :
  matchAll m (c :: r) =
    match m (c :: r) with
    | Some (S n) => (c :: firstn n r) :: matchAll m (skipn n r)
    | _ => matchAll m r
    end.
Proof.
  unfold matchAll at 1. cbn [matchesFrom].
  destruct (m (c :: r)) as [[|n]|]; try reflexivity.
  rewrite matchesFrom_skip. reflexivity.
Qed.

Lemma splitFrom_skip (m : matcher) (k : nat) (s : jsstring) :
  splitFrom m k s = split m (skipn k s).
Proof.
  revert k; induction s as [|c r IH]; intros [|k]; try reflexivity.
  simpl. apply IH.
Qed.

Lemma split_cons (m : matcher) (c : cu) (r : jsstring) :
  split m (c :: r) =
    match m (c :: r) with
    | Some (S n) => [] :: split m (skipn n r)
    | _ =>
        match split m r with
        | seg :: rest => (c :: seg) :: rest
        | [] => [[c]]
        end
    end.
Proof.
  unfold split at 1. cbn [splitFrom].
  destruct (m (c :: r)) as [[|n]|]; try reflexivity.
  rewrite splitFrom_skip. reflexivity.
Qed.

Lemma split_nonempty (m : matcher) (s : jsstring) : split m s <> [].
Proof.
  destruct s as [|c r]; [discriminate|]. rewrite split_cons.
  destruct (m (c :: r)) as [[|n]|]; try discriminate;
    destruct (split m r); discriminate.
Qed.

(** A replacement that puts back what each match took changes
    nothing. *)
Lemma replaceAll_fixed (m : matcher) (rep s : jsstring) :
  (forall pre c r n,
      s = pre ++ c :: r -> m (c :: r) = Some (S n) ->
      c :: firstn n r = rep) ->
  replaceAll m rep s = s.
Proof.
  induction s as [s IH] using length_ind. intros H.
  destruct s as [|c r]; [reflexivity|].
  rewrite replaceAll_cons.
  destruct (m (c :: r)) as [[|n]|] eqn:E.
  - f_equal. apply IH; [simpl; lia|].
    intros pre c' r' n' -> E'. exact (H (c :: pre) c' r' n' eq_refl E').
  - rewrite IH;
      [rewrite <- (H [] c r n eq_refl E); cbn [app];
       rewrite firstn_skipn; reflexivity
      | apply skipn_length_lt |].
    intros pre c' r' n' Hs E'.
    apply (H (c :: firstn n r ++ pre) c' r' n'); [|exact E'].
    cbn [app]. rewrite <- app_assoc, <- Hs, firstn_skipn. reflexivity.
  - f_equal. apply IH; [simpl; lia|].
    intros pre c' r' n' -> E'. exact (H (c :: pre) c' r' n' eq_refl E').
Qed.

Lemma replaceAll_ext (m m' : matcher) (rep s : jsstring) :
  (forall pre t, s = pre ++ t -> m t = m' t) ->
  replaceAll m rep s = replaceAll m' rep s.
Proof.
  induction s as [s IH] using length_ind. intros H.
  destruct s as [|c r]; [reflexivity|].
  rewrite !replaceAll_cons, <- (H [] (c :: r) eq_refl).
  assert (Hr : replaceAll m rep r = replaceAll m' rep r).
  { apply IH; [simpl; lia|]. intros pre t ->. exact (H (c :: pre) t eq_refl). }
  destruct (m (c :: r)) as [[|n]|]; try (rewrite Hr; reflexivity).
  f_equal. apply IH; [apply skipn_length_lt|].
  intros pre t Ht. apply (H (c :: firstn n r ++ pre) t).
  cbn [app]. rewrite <- app_assoc, <- Ht, firstn_skipn. reflexivity.
Qed.

(** What holds of every code unit of the text and of the replacement
    holds of every code unit of the result. *)
Lemma replaceAll_Forall (P : cu -> Prop) (m : matcher) (rep s : jsstring) :
  Forall P rep -> Forall P s -> Forall P (replaceAll m rep s).
Proof.
  intros Hrep. induction s as [s IH] using length_ind. intros Hs.
  destruct s as [|c r]; [constructor|].
  rewrite replaceAll_cons. apply Forall_cons_iff in Hs as [Hc Hr].
  destruct (m (c :: r)) as [[|n]|].
  - constructor; [exact Hc|]. apply IH; [simpl; lia | exact Hr].
  - apply Forall_app. split; [exact Hrep|].
    apply IH; [apply skipn_length_lt | apply Forall_skipn_N, Hr].
  - constructor; [exact Hc|]. apply IH; [simpl; lia | exact Hr].
Qed.

(** A code unit at which the regex always matches does not survive,
    unless the replacement has it. *)
Lemma replaceAll_removes (P : cu -> Prop) (m : matcher) (rep s : jsstring) :
  Forall P rep ->
  (forall c r, P c \/ exists n, m (c :: r) = Some (S n)) ->
  Forall P (replaceAll m rep s).
Proof.
  intros Hrep Hm. induction s as [s IH] using length_ind.
  destruct s as [|c r]; [constructor|].
  rewrite replaceAll_cons.
  destruct (m (c :: r)) as [[|n]|] eqn:E.
  - destruct (Hm c r) as [Hc|[n Hn]]; [|congruence].
    constructor; [exact Hc|]. apply IH. simpl; lia.
  - apply Forall_app. split; [exact Hrep|]. apply IH, skipn_length_lt.
  - destruct (Hm c r) as [Hc|[n Hn]]; [|congruence].
    constructor; [exact Hc|]. apply IH. simpl; lia.
Qed.

(** Neighbours stay admissible when every match starts with the
    replacing code unit, or that unit may follow anything, and what
    comes after the match may follow it. *)
Lemma replaceAll_neighbours (R : cu -> cu -> Prop) (m : matcher) (c0 : cu)
    (s : jsstring) :
  (forall c r n,
      m (c :: r) = Some (S n) ->
      (c = c0 \/ forall x, R x c0) /\ HdRel R c0 (replaceAll m [c0] (skipn n r))) ->
  Sorted R s ->
  Sorted R (replaceAll m [c0] s) /\
  forall a, HdRel R a s -> HdRel R a (replaceAll m [c0] s).
Proof.
  intros Hm. induction s as [s IH] using length_ind. intros Hs.
  destruct s as [|c r]; [split; [constructor | auto]|].
  rewrite replaceAll_cons. apply Sorted_inv in Hs as [Hr Hc].
  assert (Hcopy :
    Sorted R (c :: replaceAll m [c0] r) /\
    forall a, HdRel R a (c :: r) -> HdRel R a (c :: replaceAll m [c0] r)).
  { destruct (IH r ltac:(simpl; lia) Hr) as [H1 H2]. split.
    - constructor; [exact H1 | exact (H2 _ Hc)].
    - intros a Ha. constructor. exact (HdRel_inv Ha). }
  destruct (m (c :: r)) as [[|n]|] eqn:E; try exact Hcopy.
  destruct (Hm c r n E) as [Hhead Hafter]. cbn [app].
  destruct (IH (skipn n r) (skipn_length_lt n c r) (Sorted_skipn _ n _ Hr))
    as [H1 _].
  split.
  - constructor; [exact H1 | exact Hafter].
  - intros a Ha. constructor. destruct Hhead as [->|Hany].
    + exact (HdRel_inv Ha).
    + apply Hany.
Qed.

(** A pass whose replacement is never longer than a match does not
    lengthen the text, and shortens it when the replacement is shorter
    than every match and there is a match. *)
Lemma replaceAll_length_le (m : matcher) (rep s : jsstring) :
  (forall c r n, m (c :: r) = Some (S n) ->
                 (length rep <= S n)%nat /\ (n <= length r)%nat) ->
  (length (replaceAll m rep s) <= length s)%nat.
Proof.
  intros Hm. induction s as [s IH] using length_ind.
  destruct s as [|c r]; [simpl; lia|].
  rewrite replaceAll_cons.
  destruct (m (c :: r)) as [[|n]|] eqn:E.
  - specialize (IH r ltac:(simpl; lia)). simpl. lia.
  - destruct (Hm c r n E) as [H1 H2].
    specialize (IH (skipn n r) (skipn_length_lt n c r)).
    rewrite length_app. rewrite length_skipn in IH. simpl. lia.
  - specialize (IH r ltac:(simpl; lia)). simpl. lia.
Qed.

Lemma replaceAll_length_lt (m : matcher) (rep s : jsstring) :
  (forall c r n, m (c :: r) = Some (S n) ->
                 (length rep < S n)%nat /\ (n <= length r)%nat) ->
  (exists pre c r n, s = pre ++ c :: r /\ m (c :: r) = Some (S n)) ->
  (length (replaceAll m rep s) < length s)%nat.
Proof.
  intros Hm. induction s as [s IH] using length_ind.
  intros (pre & c0 & r0 & n0 & Hs & Ht).
  assert (Hle : forall u, (length (replaceAll m rep u) <= length u)%nat).
  { intros u. apply replaceAll_length_le. intros c r n E.
    destruct (Hm c r n E). lia. }
  destruct s as [|c r]; [destruct pre; discriminate|].
  assert (Hcopy : m (c :: r) <> Some (S n0) \/ pre <> [] ->
    (length (c :: replaceAll m rep r) < length (c :: r))%nat).
  { intros Hno. destruct pre as [|x pre].
    - injection Hs as -> ->. destruct Hno; congruence.
    - injection Hs as -> ->.
      assert (L : (length (replaceAll m rep (pre ++ c0 :: r0))
                   < length (pre ++ c0 :: r0))%nat).
      { apply IH; [simpl; lia|]. eauto 6. }
      simpl. lia. }
  rewrite replaceAll_cons.
  destruct (m (c :: r)) as [[|n]|] eqn:E.
  - apply Hcopy. left. discriminate.
  - destruct (Hm c r n E) as [H1 H2].
    specialize (Hle (skipn n r)). rewrite length_skipn in Hle.
    rewrite length_app. simpl. lia.
  - apply Hcopy. left. discriminate.
Qed.

(** *** Cell Decoder *)

Lemma isSpace_LF : isSpace LF = true.
Proof. reflexivity. Qed.

Lemma isBlank_space (c : cu) : isBlank c = true -> isSpace c = true.
Proof.
  unfold isBlank. rewrite orb_true_iff, !N.eqb_eq.
  intros [->| ->]; reflexivity.
Qed.

(** The three whitespace passes of [decode], one step at a time. *)
Lemma blanks_cons (c : cu) (r : jsstring) :
  replaceAll m_blanks [SP] (c :: r) =
    if isBlank c then SP :: replaceAll m_blanks [SP] (dropWhile isBlank r)
    else c :: replaceAll m_blanks [SP] r.
Proof.
  rewrite replaceAll_cons. unfold m_blanks. cbn [takeWhile].
  destruct (isBlank c); cbn [length]; [|reflexivity].
  rewrite skipn_takeWhile. reflexivity.
Qed.

Lemma ws_nl_cons (c : cu) (r : jsstring) :
  replaceAll m_ws_nl [LF] (c :: r) =
    match (if isSpace c then lastIndexOf LF (takeWhile isSpace r) else None)
    with
    | Some i => LF :: replaceAll m_ws_nl [LF] (skipn (S i) r)
    | None => c :: replaceAll m_ws_nl [LF] r
    end.
Proof.
  rewrite replaceAll_cons. unfold m_ws_nl.
  destruct (isSpace c); [|reflexivity].
  destruct (lastIndexOf LF (takeWhile isSpace r)) as [i|]; [|reflexivity].
  replace (i + 2)%nat with (S (S i)) by lia. reflexivity.
Qed.

Lemma nl_ws_cons (c : cu) (r : jsstring) :
  replaceAll m_nl_ws [LF] (c :: r) =
    if (c =? LF) && negb (jseqb (takeWhile isSpace r) [])
    then LF :: replaceAll m_nl_ws [LF] (dropWhile isSpace r)
    else c :: replaceAll m_nl_ws [LF] r.
Proof.
  rewrite replaceAll_cons. unfold m_nl_ws.
  destruct (c =? LF); [|reflexivity].
  rewrite <- skipn_takeWhile.
  destruct (takeWhile isSpace r) as [|w ws]; reflexivity.
Qed.

(** After the first pass no two spaces are neighbours and no tab is
    left. *)
Lemma blanks_head (s : jsstring) :
  match s with [] => True | c :: _ => isBlank c = false end ->
  HdRel notTwoSpaces SP (replaceAll m_blanks [SP] s).
Proof.
  destruct s as [|c r]; [constructor|]. intros Hc.
  rewrite blanks_cons, Hc. constructor. intros [_ ->]. discriminate Hc.
Qed.

Lemma blanks_sorted (s : jsstring) :
  Sorted notTwoSpaces (replaceAll m_blanks [SP] s).
Proof.
  induction s as [s IH] using length_ind.
  destruct s as [|c r]; [constructor|].
  rewrite blanks_cons. destruct (isBlank c) eqn:E.
  - constructor.
    + apply IH. simpl. pose proof (dropWhile_length isBlank r). lia.
    + apply blanks_head, dropWhile_head.
  - constructor; [apply IH; simpl; lia|].
    destruct (replaceAll m_blanks [SP] r); constructor.
    intros [-> _]. discriminate E.
Qed.

Lemma blanks_no_tab (s : jsstring) :
  Forall (fun c => c <> TAB) (replaceAll m_blanks [SP] s).
Proof.
  apply replaceAll_removes; [repeat constructor; discriminate|].
  intros c r. destruct (N.eq_dec c TAB) as [->|H]; [right|left; exact H].
  unfold m_blanks. cbn [takeWhile]. change (isBlank TAB) with true.
  cbn [length]. eexists. reflexivity.
Qed.

(** After the second pass no whitespace stands before a line feed. *)
Lemma ws_nl_head (s : jsstring) :
  ~ In LF (takeWhile isSpace s) ->
  HdRel notSpaceThenLF LF (replaceAll m_ws_nl [LF] s).
Proof.
  destruct s as [|c r]; [constructor|]. cbn [takeWhile]. intros H.
  rewrite ws_nl_cons. destruct (isSpace c) eqn:E.
  - assert (Hn : lastIndexOf LF (takeWhile isSpace r) = None).
    { apply lastIndexOf_none. intros Hin. apply H. right. exact Hin. }
    rewrite Hn. constructor. intros [_ ->]. apply H. left. reflexivity.
  - constructor. intros [_ ->]. discriminate E.
Qed.

Lemma ws_nl_sorted (s : jsstring) :
  Sorted notSpaceThenLF (replaceAll m_ws_nl [LF] s).
Proof.
  induction s as [s IH] using length_ind.
  destruct s as [|c r]; [constructor|].
  rewrite ws_nl_cons.
  destruct (isSpace c) eqn:E;
    [destruct (lastIndexOf LF (takeWhile isSpace r)) as [i|] eqn:El|].
  - constructor; [apply IH, skipn_length_lt|].
    apply ws_nl_head. rewrite takeWhile_skipn.
    + apply lastIndexOf_some. exact El.
    + apply lastIndexOf_bound in El. lia.
  - constructor; [apply IH; simpl; lia|].
    apply lastIndexOf_none in El.
    pose proof (ws_nl_head r El) as Hh.
    destruct (replaceAll m_ws_nl [LF] r) as [|y l]; constructor.
    apply HdRel_inv in Hh. intros [_ ->]. apply Hh. auto.
  - constructor; [apply IH; simpl; lia|].
    destruct (replaceAll m_ws_nl [LF] r); constructor.
    intros [Hc _]. congruence.
Qed.

(** After the third pass no whitespace stands after a line feed. *)
Lemma nl_ws_head (s : jsstring) :
  noSpaceAhead s -> noSpaceAhead (replaceAll m_nl_ws [LF] s).
Proof.
  destruct s as [|c r]; [auto|]. cbn [noSpaceAhead]. intros Hc.
  rewrite nl_ws_cons.
  destruct (N.eqb_spec c LF) as [->|Hn]; [discriminate Hc|].
  cbn [andb]. exact Hc.
Qed.

Lemma noSpaceAhead_HdRel (l : jsstring) :
  noSpaceAhead l -> HdRel notLFThenSpace LF l.
Proof.
  destruct l as [|y l]; constructor. intros [_ Hy].
  cbn [noSpaceAhead] in H. congruence.
Qed.

Lemma nl_ws_sorted (s : jsstring) :
  Sorted notLFThenSpace (replaceAll m_nl_ws [LF] s).
Proof.
  induction s as [s IH] using length_ind.
  destruct s as [|c r]; [constructor|].
  rewrite nl_ws_cons.
  destruct (N.eqb_spec c LF) as [->|Hn]; cbn [andb].
  - destruct (takeWhile isSpace r) as [|w ws] eqn:Et; cbn [jseqb negb].
    + constructor; [apply IH; simpl; lia|].
      apply noSpaceAhead_HdRel, nl_ws_head.
      destruct r as [|x r']; [exact I|]. cbn [takeWhile] in Et.
      cbn [noSpaceAhead]. destruct (isSpace x); [discriminate|reflexivity].
    + constructor.
      * apply IH. simpl. pose proof (dropWhile_length isSpace r). lia.
      * apply noSpaceAhead_HdRel, nl_ws_head, dropWhile_head.
  - constructor; [apply IH; simpl; lia|].
    destruct (replaceAll m_nl_ws [LF] r); constructor.
    intros [Hc _]. congruence.
Qed.

(** [trim] keeps a middle part of the text. *)
Lemma trim_middle (s : jsstring) : exists a b, s = a ++ trim s ++ b.
Proof.
  exists (takeWhile isSpace s), (rev (takeWhile isSpace (rev (trimStart s)))).
  unfold trim, trimEnd. rewrite <- rev_app_distr, takeWhile_dropWhile.
  rewrite rev_involutive. unfold trimStart.
  rewrite takeWhile_dropWhile. reflexivity.
Qed.

Lemma trim_Forall (P : cu -> Prop) (s : jsstring) :
  Forall P s -> Forall P (trim s).
Proof.
  destruct (trim_middle s) as (a & b & E). intros H. rewrite E in H.
  apply Forall_app in H as [_ H]. apply Forall_app in H as [H _]. exact H.
Qed.

Lemma trim_Sorted (R : cu -> cu -> Prop) (s : jsstring) :
  Sorted R s -> Sorted R (trim s).
Proof.
  destruct (trim_middle s) as (a & b & E). intros H. rewrite E in H.
  apply Sorted_app_r, Sorted_app_l in H. exact H.
Qed.

Lemma trim_idempotent (s : jsstring) : trim (trim s) = trim s.
Proof.
  unfold trim. set (t := trimStart s).
  assert (Ht : match t with [] => True | c :: _ => isSpace c = false end)
    by apply dropWhile_head.
  assert (E : trimStart (trimEnd t) = trimEnd t).
  { unfold trimStart. apply dropWhile_stop.
    assert (Hp : exists b, t = trimEnd t ++ b).
    { exists (rev (takeWhile isSpace (rev t))). unfold trimEnd.
      rewrite <- rev_app_distr, takeWhile_dropWhile, rev_involutive.
      reflexivity. }
    destruct Hp as [b Hb]. destruct (trimEnd t) as [|c l]; [exact I|].
    rewrite Hb in Ht. exact Ht. }
  rewrite E. unfold trimEnd. rewrite rev_involutive.
  rewrite (dropWhile_stop isSpace (dropWhile isSpace (rev t)))
    by apply dropWhile_head.
  reflexivity.
Qed.

(** The three whitespace passes and [trim] give the decoded form to a
    text without non-breaking spaces. *)
Lemma decode_spaces_Decoded (s4 : jsstring) :
  Forall (fun c => c <> NBSP) s4 -> Decoded (trim (decode_spaces s4)).
Proof.
  intros N4. unfold Decoded, decode_spaces.
  set (s5 := replaceAll m_blanks (lit " ") s4).
  set (s6 := replaceAll m_ws_nl [LF] s5).
  set (s7 := replaceAll m_nl_ws [LF] s6).
  assert (N7 : Forall (fun c => c <> NBSP) s7).
  { unfold s7, s6, s5.
    do 3 (apply replaceAll_Forall;
            [vm_compute; repeat constructor; discriminate|]).
    exact N4. }
  assert (T7 : Forall (fun c => c <> TAB) s7).
  { unfold s7, s6.
    do 2 (apply replaceAll_Forall;
            [vm_compute; repeat constructor; discriminate|]).
    apply blanks_no_tab. }
  assert (A5 : Sorted notTwoSpaces s5) by apply blanks_sorted.
  assert (A6 : Sorted notTwoSpaces s6).
  { apply replaceAll_neighbours; [|exact A5]. intros c r n _. split.
    - right. intros x0 [_ H]. discriminate H.
    - apply HdRel_any. intros y [H _]. discriminate H. }
  assert (A7 : Sorted notTwoSpaces s7).
  { apply replaceAll_neighbours; [|exact A6]. intros c r n _. split.
    - right. intros x0 [_ H]. discriminate H.
    - apply HdRel_any. intros y [H _]. discriminate H. }
  assert (B6 : Sorted notSpaceThenLF s6) by apply ws_nl_sorted.
  assert (B7 : Sorted notSpaceThenLF s7).
  { apply replaceAll_neighbours; [|exact B6]. intros c r n E.
    unfold m_nl_ws in E.
    destruct (N.eqb_spec c LF) as [->|Hc]; [|discriminate].
    split; [left; reflexivity|].
    destruct (length (takeWhile isSpace r)) as [|k] eqn:El; [discriminate|].
    injection E as <-. rewrite <- El, skipn_takeWhile.
    pose proof (nl_ws_head _ (dropWhile_head isSpace r)) as Hh.
    destruct (replaceAll m_nl_ws [LF] (dropWhile isSpace r)) as [|y l];
      constructor.
    intros [_ ->]. cbn [noSpaceAhead] in Hh. discriminate Hh. }
  assert (C7 : Sorted notLFThenSpace s7) by apply nl_ws_sorted.
  repeat split; auto using trim_Forall, trim_Sorted, trim_idempotent.
Qed.

(** Every text [decode] returns has the decoded form. *)
Lemma decode_Decoded (x : jsstring) : Decoded (decode x).
Proof.
  unfold decode. apply decode_spaces_Decoded.
  unfold decode_entities.
  do 3 (apply replaceAll_Forall;
          [vm_compute; repeat constructor; discriminate|]).
  apply replaceAll_removes; [vm_compute; repeat constructor; discriminate|].
  intros c r. destruct (N.eqb_spec c NBSP) as [->|H]; [right|left; exact H].
  exists 0%nat. reflexivity.
Qed.

Lemma hasEntity_suffix (pre t : jsstring) :
  hasEntity (pre ++ t) = false -> hasEntity t = false.
Proof.
  induction pre as [|c pre IH]; cbn [app hasEntity]; [auto|].
  rewrite orb_false_iff. intros [_ H]. auto.
Qed.

Lemma hasEntity_head (c : cu) (r : jsstring) :
  hasEntity (c :: r) = false ->
  prefixb (lit "&nbsp;") (c :: r) = false /\
  prefixb (lit "&amp;") (c :: r) = false /\
  prefixb (lit "&lt;") (c :: r) = false /\
  prefixb (lit "&gt;") (c :: r) = false.
Proof.
  cbn [hasEntity]. rewrite !orb_false_iff. tauto.
Qed.

Lemma no_LF_in_run (r : jsstring) :
  forall c, Sorted notSpaceThenLF (c :: r) -> isSpace c = true ->
            ~ In LF (takeWhile isSpace r).
Proof.
  induction r as [|x r IH]; intros c Hs Hc; cbn [takeWhile]; [auto|].
  apply Sorted_inv in Hs as [Hs Hx]. apply HdRel_inv in Hx.
  destruct (isSpace x) eqn:Ex; [|auto].
  intros [E|E].
  - apply Hx. auto.
  - exact (IH x Hs Ex E).
Qed.

(** A text of the decoded form is left as it is by the whitespace
    passes and [trim]. *)
Lemma decode_spaces_fixed (y : jsstring) :
  Decoded y -> trim (decode_spaces y) = y.
Proof.
  intros (Hn & Ht & Ha & Hb & Hc & Htrim).
  assert (E5 : replaceAll m_blanks (lit " ") y = y).
  { apply replaceAll_fixed. intros pre c r n -> E.
    apply Forall_at in Ht as [Hct Hrt]. apply Sorted_app_r in Ha.
    apply Sorted_inv in Ha as [_ Ha].
    unfold m_blanks in E. cbn [takeWhile] in E.
    destruct (isBlank c) eqn:Ec; [|discriminate].
    assert (c = SP) as ->.
    { unfold isBlank in Ec. apply orb_true_iff in Ec as [H|H];
        apply N.eqb_eq in H; congruence. }
    assert (Hr : takeWhile isBlank r = []).
    { destruct r as [|x r']; [reflexivity|]. cbn [takeWhile].
      destruct (isBlank x) eqn:Ex; [exfalso|reflexivity].
      apply Forall_cons_iff in Hrt as [Hx _]. apply HdRel_inv in Ha.
      unfold isBlank in Ex. apply orb_true_iff in Ex as [H|H];
        apply N.eqb_eq in H; [apply Ha; auto | congruence]. }
    rewrite Hr in E. cbn [length] in E. injection E as <-. reflexivity. }
  assert (E6 : replaceAll m_ws_nl [LF] y = y).
  { apply replaceAll_fixed. intros pre c r n -> E. exfalso.
    apply Sorted_app_r in Hb. unfold m_ws_nl in E.
    destruct (isSpace c) eqn:Ec; [|discriminate].
    pose proof (no_LF_in_run r c Hb Ec) as Hno.
    apply lastIndexOf_none in Hno. rewrite Hno in E. discriminate. }
  assert (E7 : replaceAll m_nl_ws [LF] y = y).
  { apply replaceAll_fixed. intros pre c r n -> E. exfalso.
    apply Sorted_app_r in Hc. apply Sorted_inv in Hc as [_ Hc].
    unfold m_nl_ws in E.
    destruct (N.eqb_spec c LF) as [->|Hne]; [|discriminate].
    destruct r as [|x r']; [discriminate|]. cbn [takeWhile] in E.
    apply HdRel_inv in Hc.
    destruct (isSpace x) eqn:Ex; [|discriminate]. apply Hc. auto. }
  unfold decode_spaces. rewrite E5, E6, E7. exact Htrim.
Qed.

(** A text of the decoded form that holds no entity is left as it is
    by [decode]. *)
Lemma Decoded_fixed (y : jsstring) :
  Decoded y -> hasEntity y = false -> decode y = y.
Proof.
  intros Hd He. pose proof Hd as (Hn & _).
  assert (E1 : replaceAll m_nbsp (lit " ") y = y).
  { apply replaceAll_fixed. intros pre c r n -> E. exfalso.
    apply Forall_at in Hn as [Hn _].
    apply hasEntity_suffix, hasEntity_head in He as (H1 & _).
    unfold m_nbsp in E. apply N.eqb_neq in Hn. rewrite Hn, H1 in E.
    discriminate. }
  assert (Elit : forall p rep,
    (forall c r, hasEntity (c :: r) = false -> prefixb p (c :: r) = false) ->
    replaceAll (m_lit p) rep y = y).
  { intros p rep Hp. apply replaceAll_fixed. intros pre c r n -> E.
    exfalso. apply hasEntity_suffix in He. unfold m_lit in E.
    rewrite (Hp _ _ He) in E. discriminate. }
  assert (E4 : decode_entities y = y).
  { unfold decode_entities. rewrite E1.
    rewrite (Elit (lit "&amp;")) by (intros c r H; apply hasEntity_head, H).
    rewrite (Elit (lit "&lt;")) by (intros c r H; apply hasEntity_head, H).
    apply Elit. intros c r H; apply hasEntity_head, H. }
  unfold decode. rewrite E4. exact (decode_spaces_fixed _ Hd).
Qed.

Lemma hasEntity_includes (s : jsstring) :
  hasEntity s =
    includes (lit "&nbsp;") s || includes (lit "&amp;") s ||
    includes (lit "&lt;") s || includes (lit "&gt;") s.
Proof.
  induction s as [|c s IH]; [reflexivity|].
  cbn [hasEntity includes]. rewrite IH.
  destruct (prefixb (lit "&nbsp;") (c :: s)),
           (prefixb (lit "&amp;") (c :: s)),
           (prefixb (lit "&lt;") (c :: s)),
           (prefixb (lit "&gt;") (c :: s)),
           (includes (lit "&nbsp;") s), (includes (lit "&amp;") s),
           (includes (lit "&lt;") s), (includes (lit "&gt;") s);
    reflexivity.
Qed.

(** One pass over a literal entity: nothing changes without an
    occurrence, and the text gets shorter with one. *)
Lemma entity_pass (p rep s : jsstring) :
  length rep = 1%nat -> (1 < length p)%nat ->
  (includes p s = false -> replaceAll (m_lit p) rep s = s) /\
  (includes p s = true ->
   (length (replaceAll (m_lit p) rep s) < length s)%nat) /\
  (length (replaceAll (m_lit p) rep s) <= length s)%nat.
Proof.
  intros Hrep Hp.
  assert (Hm : forall c r n, m_lit p (c :: r) = Some (S n) ->
                 (length rep < S n)%nat /\ (n <= length r)%nat).
  { intros c r n. unfold m_lit.
    destruct (prefixb p (c :: r)) eqn:E; [|discriminate].
    intros H; injection H as H. apply prefixb_length in E. simpl in E. lia. }
  split; [|split].
  - intros Hno. apply replaceAll_fixed. intros pre c r n -> E. exfalso.
    unfold m_lit in E. destruct (prefixb p (c :: r)) eqn:Ep; [|discriminate].
    rewrite (includes_suffix _ pre _ Ep) in Hno. discriminate.
  - intros Hyes. apply replaceAll_length_lt; [exact Hm|].
    destruct (includes_found _ _ Hyes) as (pre & t & -> & Ht).
    destruct t as [|c r].
    + apply prefixb_length in Ht. simpl in Ht. lia.
    + exists pre, c, r, (length p - 1)%nat. split; [reflexivity|].
      unfold m_lit. rewrite Ht. f_equal. lia.
  - apply replaceAll_length_le. intros c r n E. destruct (Hm c r n E). lia.
Qed.

Lemma decode_spaces_length (s : jsstring) :
  (length (trim (decode_spaces s)) <= length s)%nat.
Proof.
  assert (H5 : (length (replaceAll m_blanks (lit " ") s) <= length s)%nat).
  { apply replaceAll_length_le. intros c r n E. unfold m_blanks in E.
    pose proof (takeWhile_length isBlank (c :: r)) as L.
    destruct (length (takeWhile isBlank (c :: r))); [discriminate|].
    injection E as <-. simpl in *. lia. }
  assert (H6 : forall u, (length (replaceAll m_ws_nl [LF] u) <= length u)%nat).
  { intros u. apply replaceAll_length_le. intros c r n E. unfold m_ws_nl in E.
    destruct (isSpace c); [|discriminate].
    destruct (lastIndexOf LF (takeWhile isSpace r)) as [i|] eqn:El;
      [|discriminate].
    injection E as E. apply lastIndexOf_bound in El.
    pose proof (takeWhile_length isSpace r). simpl. lia. }
  assert (H7 : forall u, (length (replaceAll m_nl_ws [LF] u) <= length u)%nat).
  { intros u. apply replaceAll_length_le. intros c r n E. unfold m_nl_ws in E.
    destruct (c =? LF); [|discriminate].
    pose proof (takeWhile_length isSpace r).
    destruct (length (takeWhile isSpace r)); [discriminate|].
    injection E as <-. simpl. lia. }
  assert (Ht : forall u, (length (trim u) <= length u)%nat).
  { intros u. destruct (trim_middle u) as (a & b & E).
    rewrite E at 2. rewrite !length_app. lia. }
  unfold decode_spaces.
  specialize (H7 (replaceAll m_ws_nl [LF] (replaceAll m_blanks (lit " ") s))).
  specialize (H6 (replaceAll m_blanks (lit " ") s)).
  specialize (Ht (replaceAll m_nl_ws [LF]
                    (replaceAll m_ws_nl [LF]
                       (replaceAll m_blanks (lit " ") s)))).
  lia.
Qed.

(** Decoding a text without non-breaking spaces that holds an entity
    makes it shorter. *)
Lemma decode_shrinks (y : jsstring) :
  Forall (fun c => c <> NBSP) y -> hasEntity y = true ->
  (length (decode y) < length y)%nat.
Proof.
  intros Hn He.
  assert (E1 : replaceAll m_nbsp (lit " ") y =
               replaceAll (m_lit (lit "&nbsp;")) (lit " ") y).
  { apply replaceAll_ext. intros pre t ->. destruct t as [|c r]; [reflexivity|].
    apply Forall_at in Hn as [Hc _]. apply N.eqb_neq in Hc.
    unfold m_nbsp, m_lit. rewrite Hc. reflexivity. }
  pose proof (decode_spaces_length (decode_entities y)) as Hs.
  assert (H4 : (length (decode_entities y) < length y)%nat); [|unfold decode; lia].
  unfold decode_entities. rewrite E1. clear E1 Hs.
  rewrite hasEntity_includes in He.
  set (s1 := replaceAll (m_lit (lit "&nbsp;")) (lit " ") y).
  set (s2 := replaceAll (m_lit (lit "&amp;")) (lit "&") s1).
  set (s3 := replaceAll (m_lit (lit "&lt;")) (lit "<") s2).
  destruct (entity_pass (lit "&nbsp;") (lit " ") y eq_refl
              ltac:(simpl; lia)) as (I1 & S1 & L1).
  destruct (entity_pass (lit "&amp;") (lit "&") s1 eq_refl
              ltac:(simpl; lia)) as (I2 & S2 & L2).
  destruct (entity_pass (lit "&lt;") (lit "<") s2 eq_refl
              ltac:(simpl; lia)) as (I3 & S3 & L3).
  destruct (entity_pass (lit "&gt;") (lit ">") s3 eq_refl
              ltac:(simpl; lia)) as (I4 & S4 & L4).
  fold s1 in I1, S1, L1. fold s2 in I2, S2, L2. fold s3 in I3, S3, L3.
  destruct (includes (lit "&nbsp;") y) eqn:O1.
  { specialize (S1 eq_refl). lia. }
  specialize (I1 eq_refl). 
  destruct (includes (lit "&amp;") y) eqn:O2.
  { rewrite <- I1 in O2. specialize (S2 O2). lia. }
  assert (I2' : s2 = y).
  { rewrite <- I1 in O2. rewrite (I2 O2). exact I1. }
  destruct (includes (lit "&lt;") y) eqn:O3.
  { rewrite <- I2' in O3. specialize (S3 O3). lia. }
  assert (I3' : s3 = y).
  { rewrite <- I2' in O3. rewrite (I3 O3). exact I2'. }
  destruct (includes (lit "&gt;") y) eqn:O4; [|discriminate He].
  rewrite <- I3' in O4. specialize (S4 O4). lia.
Qed.

Lemma no_amp_no_entity (y : jsstring) :
  Forall (fun c => c <> AMP) y -> hasEntity y = false.
Proof.
  induction 1 as [|c r Hc Hr IH]; [reflexivity|].
  cbn [hasEntity]. rewrite IH. apply N.eqb_neq in Hc.
  assert (E : (AMP =? c) = false) by (rewrite N.eqb_sym; exact Hc).
  change (lit "&nbsp;") with (AMP :: lit "nbsp;").
  change (lit "&amp;") with (AMP :: lit "amp;").
  change (lit "&lt;") with (AMP :: lit "lt;").
  change (lit "&gt;") with (AMP :: lit "gt;").
  cbn [prefixb]. rewrite E. reflexivity.
Qed.

(** A text without an ampersand decodes to a text without one. *)
Lemma decode_no_amp (x : jsstring) :
  ~ In AMP x -> Forall (fun c => c <> AMP) (decode x).
Proof.
  intros Hx.
  assert (H0 : Forall (fun c => c <> AMP) x).
  { apply Forall_forall. intros c Hc ->. exact (Hx Hc). }
  assert (H1 : Forall (fun c => c <> AMP) (replaceAll m_nbsp (lit " ") x)).
  { apply replaceAll_Forall; [|exact H0].
    vm_compute; repeat constructor; discriminate. }
  assert (Hlit : forall p rep s,
    Forall (fun c => c <> AMP) s ->
    replaceAll (m_lit (AMP :: p)) rep s = s).
  { intros p rep s Hs. apply replaceAll_fixed. intros pre c r n -> E.
    exfalso. apply Forall_at in Hs as [Hc _]. unfold m_lit in E.
    cbn [prefixb] in E. apply N.eqb_neq in Hc. rewrite N.eqb_sym in Hc.
    rewrite Hc in E. discriminate. }
  unfold decode, decode_entities, decode_spaces.
  change (lit "&amp;") with (AMP :: lit "amp;").
  change (lit "&lt;") with (AMP :: lit "lt;").
  change (lit "&gt;") with (AMP :: lit "gt;").
  rewrite (Hlit (lit "amp;") (lit "&") _ H1).
  rewrite (Hlit (lit "lt;") (lit "<") _ H1).
  rewrite (Hlit (lit "gt;") (lit ">") _ H1).
  apply trim_Forall.
  do 3 (apply replaceAll_Forall;
        [vm_compute; repeat constructor; discriminate|]).
  exact H1.
Qed.

(** C5 (amended). The Cell Decoder is idempotent exactly on the inputs
    whose decoded text holds none of the entities [&nbsp;], [&amp;],
    [&lt;], [&gt;]: for these, and so for every input without an
    ampersand, [decode(decode(x)) == decode(x)], and for the others
    the second decoding gives a different, shorter text.  Every decoded
    text is
    free of non-breaking spaces and of tabs, has no two spaces in a
    row and no whitespace at its ends, so decoding "A" followed by two
    non-breaking spaces and "B" yields "A B". *)
Theorem decode_idempotent_iff (x : jsstring) :
  (decode (decode x) = decode x <-> hasEntity (decode x) = false) /\
  (~ In AMP x -> decode (decode x) = decode x) /\
  Decoded (decode x) /\
  decode (lit "A" ++ [NBSP; NBSP] ++ lit "B") = lit "A B" /\
  (hasEntity (decode x) = true ->
   (length (decode (decode x)) < length (decode x))%nat).
Proof.
  pose proof (decode_Decoded x) as Hd.
  split; [|split; [|split; [exact Hd | split; [vm_compute; reflexivity|]]]].
  - split.
    + intros E. destruct (hasEntity (decode x)) eqn:He; [|reflexivity].
      exfalso. destruct Hd as (Hn & _).
      pose proof (decode_shrinks _ Hn He) as L. rewrite E in L. lia.
    + apply Decoded_fixed. exact Hd.
  - intros Hx. apply Decoded_fixed; [exact Hd|].
    apply no_amp_no_entity, decode_no_amp, Hx.
  - intros He. destruct Hd as (Hn & _). exact (decode_shrinks _ Hn He).
Qed.

Lemma decode_idempotent_iff_witness :
  ~ In AMP (lit "A" ++ [NBSP; NBSP] ++ lit "B") /\
  decode (decode (lit "A" ++ [NBSP; NBSP] ++ lit "B")) =
    decode (lit "A" ++ [NBSP; NBSP] ++ lit "B").
Proof.
  assert (H : ~ In AMP (lit "A" ++ [NBSP; NBSP] ++ lit "B")).
  { vm_compute. intros [E|[E|[E|[E|[]]]]]; discriminate E. }
  split; [exact H|].
  exact (proj1 (proj2 (decode_idempotent_iff _)) H).
Defined.

(** C5 as stated fails: "&amp;amp;" decodes to "&amp;", which decodes
    to "&". *)
Lemma decode_not_idempotent_counterexample :
  decode (lit "&amp;amp;") = lit "&amp;" /\
  decode (decode (lit "&amp;amp;")) = lit "&" /\
  decode (decode (lit "&amp;amp;")) <> decode (lit "&amp;amp;").
Proof.
  repeat split; try (vm_compute; reflexivity). vm_compute. discriminate.
Qed.

(** *** Status Classifier *)

Lemma normalizeStatus_closed (c t : jsstring) :
  In (normalizeStatus c t)
     [lit "In"; lit "Out"; lit "Unavailable"; lit "Unknown"].
Proof.
  unfold normalizeStatus.
  destruct (_ || _); [now left|].
  destruct (_ || _); [now right; left|].
  destruct (_ || _); [now right; right; left | now right; right; right; left].
Qed.

(** C2 (amended). The Status Classifier tests the two signals of one
    status together, status by status: it returns In if the class
    contains "initem" or the cell text is exactly "in"; else Out if the
    class contains "outitem" or the cell text is exactly "out"; else
    Unavailable if the class contains "unavailable" or the cell text is
    exactly "unavailable"; else Unknown (all tests on the lower-cased
    texts).  Hence a class with the "in" marker gives In whatever the
    cell text, and when no class marker matches, or when the cell text
    names no status, the result is the one of trying the class markers
    first and the cell text after them. *)
Theorem normalizeStatus_spec (trClass cellText : jsstring) :
  let c := toLowerCase trClass in
  let t := toLowerCase cellText in
  let is_in := contains (lit "initem") c \/ t = lit "in" in
  let is_out := contains (lit "outitem") c \/ t = lit "out" in
  let is_unavailable :=
    contains (lit "unavailable") c \/ t = lit "unavailable" in
  (is_in -> normalizeStatus trClass cellText = lit "In") /\
  (~ is_in -> is_out -> normalizeStatus trClass cellText = lit "Out") /\
  (~ is_in -> ~ is_out -> is_unavailable ->
   normalizeStatus trClass cellText = lit "Unavailable") /\
  (~ is_in -> ~ is_out -> ~ is_unavailable ->
   normalizeStatus trClass cellText = lit "Unknown") /\
  (contains (lit "initem") c ->
   normalizeStatus trClass cellText = lit "In") /\
  ((~ contains (lit "initem") c /\ ~ contains (lit "outitem") c /\
    ~ contains (lit "unavailable") c) \/
   (t <> lit "in" /\ t <> lit "out" /\ t <> lit "unavailable") ->
   normalizeStatus trClass cellText =
     classify_class_first trClass cellText).
Proof.
  cbv zeta. unfold normalizeStatus, classify_class_first.
  rewrite <- !includes_spec, <- !jseqb_eq.
  destruct (includes (lit "initem") (toLowerCase trClass));
    destruct (includes (lit "outitem") (toLowerCase trClass));
    destruct (includes (lit "unavailable") (toLowerCase trClass));
    destruct (jseqb (toLowerCase cellText) (lit "in")) eqn:E1;
    destruct (jseqb (toLowerCase cellText) (lit "out")) eqn:E2;
    destruct (jseqb (toLowerCase cellText) (lit "unavailable")) eqn:E3;
    cbn [orb];
    repeat split; intros; try reflexivity; try tauto;
    repeat match goal with
           | H : _ \/ _ |- _ => destruct H
           | H : _ /\ _ |- _ => destruct H
           end; try discriminate; try tauto; try congruence.
Qed.

Lemma normalizeStatus_spec_witness :
  contains (lit "initem") (toLowerCase (lit "InItem")) /\
  normalizeStatus (lit "InItem") (lit "Out") = lit "In".
Proof.
  assert (H : contains (lit "initem") (toLowerCase (lit "InItem"))).
  { apply includes_spec. vm_compute. reflexivity. }
  split; [exact H|].
  exact (proj1 (proj2 (proj2 (proj2 (proj2
           (normalizeStatus_spec (lit "InItem") (lit "Out")))))) H).
Defined.

(** C2 as stated fails: with the class "OutItem" and the cell text "In"
    the class carries the "out" marker and no "in" marker, so the
    class-first reading gives Out, but the program returns In. *)
Lemma normalizeStatus_precedence_counterexample :
  includes (lit "initem") (toLowerCase (lit "OutItem")) = false /\
  includes (lit "outitem") (toLowerCase (lit "OutItem")) = true /\
  classify_class_first (lit "OutItem") (lit "In") = lit "Out" /\
  normalizeStatus (lit "OutItem") (lit "In") = lit "In" /\
  normalizeStatus (lit "OutItem") (lit "In") <>
    classify_class_first (lit "OutItem") (lit "In").
Proof.
  repeat split; try (vm_compute; reflexivity). vm_compute. discriminate.
Qed.

(** *** Name/Title Splitter *)

Lemma isDash_not_space (c : cu) : isDash c = true -> isSpace c = false.
Proof.
  unfold isDash. rewrite !orb_true_iff, !N.eqb_eq.
  intros [[->| ->]| ->]; reflexivity.
Qed.

(** What the separator regex consumes at a position. *)
Lemma m_sep_spec (s : jsstring) (n : nat) :
  m_sep s = Some n ->
  exists ws1 d ws2 tail,
    s = ws1 ++ d :: ws2 ++ tail /\
    forallb isSpace ws1 = true /\ isDash d = true /\
    ws2 <> [] /\ forallb isSpace ws2 = true /\ noSpaceAhead tail /\
    n = (length ws1 + 1 + length ws2)%nat /\
    skipn n s = tail.
Proof.
  unfold m_sep. rewrite skipn_takeWhile.
  destruct (dropWhile isSpace s) as [|d r] eqn:E; [discriminate|].
  destruct (isDash d) eqn:Hd; [|discriminate].
  destruct (takeWhile isSpace r) as [|w ws2] eqn:E2; [discriminate|].
  intros H; injection H as <-.
  assert (Hs : s = takeWhile isSpace s ++ d :: (w :: ws2) ++ dropWhile isSpace r).
  { rewrite <- E2, takeWhile_dropWhile, <- E, takeWhile_dropWhile.
    reflexivity. }
  exists (takeWhile isSpace s), d, (w :: ws2), (dropWhile isSpace r).
  split; [exact Hs|]. split; [apply takeWhile_all|]. split; [exact Hd|].
  split; [discriminate|]. split; [rewrite <- E2; apply takeWhile_all|].
  split; [apply dropWhile_head|]. split; [reflexivity|].
  rewrite Hs at 2.
  replace (takeWhile isSpace s ++ d :: (w :: ws2) ++ dropWhile isSpace r)
    with ((takeWhile isSpace s ++ d :: w :: ws2) ++ dropWhile isSpace r)
    by (rewrite <- app_assoc; reflexivity).
  apply skipn_app_exact. rewrite length_app. simpl. lia.
Qed.

(** A dash followed by whitespace is a match where it stands. *)
Lemma m_sep_at_dash (d w : cu) (r : jsstring) :
  isDash d = true -> isSpace w = true ->
  exists n, m_sep (d :: w :: r) = Some (S n).
Proof.
  intros Hd Hw. unfold m_sep. cbn [takeWhile].
  rewrite (isDash_not_space _ Hd). cbn [length skipn]. rewrite Hd.
  cbn [takeWhile]. rewrite Hw. cbn [length]. eexists. reflexivity.
Qed.

Lemma m_sep_positive (s : jsstring) : m_sep s <> Some 0%nat.
Proof.
  intros H. apply m_sep_spec in H as (ws1 & d & ws2 & tail & _ & _ & _ & _
    & _ & _ & Hn & _). lia.
Qed.

Lemma hasSeparator_cons (c : cu) (r : jsstring) :
  hasSeparator (c :: r) <->
  (exists w r', r = w :: r' /\ isDash c = true /\ isSpace w = true) \/
  hasSeparator r.
Proof.
  unfold hasSeparator. split.
  - intros (pre & d & w & post & E & Hd & Hw). destruct pre as [|x pre].
    + injection E as -> ->. left. eauto.
    + injection E as -> ->. right. eauto 8.
  - intros [(w & r' & -> & Hd & Hw)|(pre & d & w & post & -> & Hd & Hw)].
    + exists [], c, w, r'. auto.
    + exists (c :: pre), d, w, post. auto.
Qed.

Lemma spaces_no_separator (ws : jsstring) :
  forallb isSpace ws = true -> ~ hasSeparator ws.
Proof.
  intros H (pre & d & w & post & -> & Hd & _).
  apply forallb_app_true in H as [_ H]. cbn [forallb] in H.
  rewrite (isDash_not_space _ Hd) in H. discriminate.
Qed.

(** The first segment of the split ends where the first separator
    starts; without a separator the text is its only segment. *)
Lemma split_sep_first (t : jsstring) :
  (~ hasSeparator t /\ split m_sep t = [t]) \/
  (exists first ws1 d ws2 tail,
      t = first ++ ws1 ++ d :: ws2 ++ tail /\
      ~ hasSeparator (first ++ ws1) /\
      forallb isSpace ws1 = true /\ isDash d = true /\
      ws2 <> [] /\ forallb isSpace ws2 = true /\ noSpaceAhead tail /\
      split m_sep t = first :: split m_sep tail).
Proof.
  induction t as [|c r IH].
  - left. split; [|reflexivity].
    intros (pre & d & w & post & E & _). destruct pre; discriminate.
  - rewrite split_cons.
    destruct (m_sep (c :: r)) as [[|n]|] eqn:E.
    + exfalso. exact (m_sep_positive _ E).
    + right. apply m_sep_spec in E as (ws1 & d & ws2 & tail & Hs & H1 & Hd
        & Hne & H2 & Ht & Hn & Hk).
      exists [], ws1, d, ws2, tail. cbn [app].
      repeat split; auto using spaces_no_separator.
      cbn [skipn] in Hk. rewrite Hk. reflexivity.
    + assert (Hc : ~ exists w r', r = w :: r' /\ isDash c = true /\
                                  isSpace w = true).
      { intros (w & r' & -> & Hd & Hw).
        destruct (m_sep_at_dash c w r' Hd Hw) as [n Hn]. congruence. }
      destruct IH as [[Hno Hsp]|(first & ws1 & d & ws2 & tail & Hr & Hno &
                                 H1 & Hd & Hne & H2 & Ht & Hsp)].
      * left. rewrite Hsp. split; [|reflexivity].
        rewrite hasSeparator_cons. tauto.
      * right. rewrite Hsp. exists (c :: first), ws1, d, ws2, tail.
        split; [rewrite Hr; reflexivity|].
        split; [|repeat split; auto].
        cbn [app]. rewrite hasSeparator_cons. intros [Hx|Hx]; [|tauto].
        apply Hc. destruct Hx as (w & r' & Hx & Hdc & Hw).
        exists w. rewrite Hr.
        destruct (first ++ ws1) as [|y l] eqn:Ey; [discriminate Hx|].
        injection Hx as -> ->.
        replace (first ++ ws1 ++ d :: ws2 ++ tail)
          with ((first ++ ws1) ++ d :: ws2 ++ tail)
          by (rewrite <- app_assoc; reflexivity).
        rewrite Ey. cbn [app]. eauto.
Qed.

Lemma split_sep_has (t : jsstring) :
  hasSeparator t ->
  exists first ws1 d ws2 tail,
    t = first ++ ws1 ++ d :: ws2 ++ tail /\
    ~ hasSeparator (first ++ ws1) /\
    forallb isSpace ws1 = true /\ isDash d = true /\
    ws2 <> [] /\ forallb isSpace ws2 = true /\ noSpaceAhead tail /\
    split m_sep t = first :: split m_sep tail.
Proof.
  intros H. destruct (split_sep_first t) as [[Hno _]|Hyes];
    [contradiction | exact Hyes].
Qed.

(** C9 (amended). For every input to the Name/Title Splitter: an empty
    decoded text gives name and title both null; a text with no
    hyphen-like separator (hyphen, en dash, em dash) followed by
    whitespace gives the whole decoded text as name and title null;
    otherwise the text is cut at the first such separator, with the
    whitespace around it, the trimmed first segment becomes name, null
    when that segment is empty, and the remaining segments, rejoined
    with " - " and trimmed, become title. *)
Theorem splitNameAndTitle_cases (raw : jsstring) :
  let t := decode raw in
  let r := splitNameAndTitle raw in
  (t = [] -> r = mkNameTitle None None) /\
  (t <> [] -> ~ hasSeparator t -> r = mkNameTitle (Some t) None) /\
  (hasSeparator t ->
   exists first ws1 d ws2 tail,
     t = first ++ ws1 ++ d :: ws2 ++ tail /\
     ~ hasSeparator (first ++ ws1) /\
     forallb isSpace ws1 = true /\ isDash d = true /\
     ws2 <> [] /\ forallb isSpace ws2 = true /\ noSpaceAhead tail /\
     split m_sep t = first :: split m_sep tail /\
     r = mkNameTitle (orNull (trim first))
           (orNull (trim (join (lit " - ") (split m_sep tail))))).
Proof.
  cbv zeta. unfold splitNameAndTitle.
  destruct (decode raw) as [|t0 t'] eqn:Et.
  { split; [reflexivity|]. split; [congruence|].
    intros (pre & d & w & post & E & _). destruct pre; discriminate. }
  split; [discriminate|]. split.
  - intros _ Hno. destruct (split_sep_first (t0 :: t')) as [[_ E]|H].
    + rewrite E. reflexivity.
    + destruct H as (first & ws1 & d & ws2 & tail & Ht & Hno' & H1 & Hd &
                     Hne & H2 & _ & _).
      exfalso. apply Hno. rewrite Ht.
      destruct ws2 as [|w ws2]; [congruence|].
      exists (first ++ ws1), d, w, (ws2 ++ tail).
      split; [rewrite <- app_assoc; reflexivity|]. split; [exact Hd|].
      cbn [forallb] in H2. apply andb_true_iff in H2 as [Hw _]. exact Hw.
  - intros Hsep. destruct (split_sep_has _ Hsep)
      as (first & ws1 & d & ws2 & tail & Ht & Hno & H1 & Hd & Hne & H2 & Hta
          & E).
    exists first, ws1, d, ws2, tail. repeat split; auto.
    rewrite E. destruct (split m_sep tail) as [|p ps] eqn:Ep.
    + exfalso. exact (split_nonempty _ _ Ep).
    + reflexivity.
Qed.

Lemma splitNameAndTitle_cases_witness :
  decode (lit "Mary-Jane Roe") <> [] /\
  ~ hasSeparator (decode (lit "Mary-Jane Roe")) /\
  splitNameAndTitle (lit "Mary-Jane Roe") =
    mkNameTitle (Some (decode (lit "Mary-Jane Roe"))) None.
Proof.
  assert (H1 : decode (lit "Mary-Jane Roe") <> [])
    by (intros H; vm_compute in H; discriminate H).
  assert (H2 : ~ hasSeparator (decode (lit "Mary-Jane Roe"))).
  { destruct (split_sep_first (decode (lit "Mary-Jane Roe")))
      as [[Hno _]|(first & ws1 & d & ws2 & tail & _ & _ & _ & _ & _ & _ & _
                   & E)]; [exact Hno|].
    assert (Es : split m_sep (decode (lit "Mary-Jane Roe")) =
                 [decode (lit "Mary-Jane Roe")]) by (vm_compute; reflexivity).
    rewrite Es in E. injection E as _ E. symmetry in E.
    exfalso. exact (split_nonempty _ _ E). }
  split; [exact H1|]. split; [exact H2|].
  exact (proj1 (proj2 (splitNameAndTitle_cases (lit "Mary-Jane Roe")))
           H1 H2).
Defined.

(** C9 as stated fails when the text starts with the separator: the
    first segment of "- Pilot" is empty, and name is null, not the
    (empty) trimmed first segment. *)
Lemma splitNameAndTitle_empty_name_counterexample :
  split m_sep (decode (lit "- Pilot")) = [[]; lit "Pilot"] /\
  splitNameAndTitle (lit "- Pilot") = mkNameTitle None (Some (lit "Pilot")) /\
  nt_name (splitNameAndTitle (lit "- Pilot")) <> Some (trim []).
Proof.
  repeat split; try (vm_compute; reflexivity). vm_compute. discriminate.
Qed.

(** *** Phone Normalizer *)

(** Deleting the matches of [/\D+/g] keeps the digits. *)
Lemma strip_nondigits (s : jsstring) :
  replaceAll m_nondigits [] s = filter isDigit s.
Proof.
  induction s as [s IH] using length_ind.
  destruct s as [|c r]; [reflexivity|].
  rewrite replaceAll_cons. unfold m_nondigits. cbn [takeWhile filter].
  destruct (isDigit c) eqn:E; cbn [negb length].
  - rewrite IH by (simpl; lia). reflexivity.
  - rewrite skipn_takeWhile.
    rewrite IH by (simpl; pose proof (dropWhile_length
                     (fun c => negb (isDigit c)) r); lia).
    cbn [app]. clear IH E.
    induction r as [|x r IHr]; simpl; [reflexivity|].
    destruct (isDigit x) eqn:Ex; simpl; [rewrite Ex; reflexivity|exact IHr].
Qed.

(** C6. The result of the Phone Normalizer is determined by the digit
    characters of the decoded text: an empty text gives four null
    fields; a text without digits gives digits null and pretty equal to
    the text; exactly 10 digits give e164 "+1" followed by the digits
    and pretty "(AAA) BBB-CCCC"; exactly 7 digits give pretty "AAA-BBBB"
    and e164 null; 11 or more digits give e164 "+" followed by the
    digits and pretty equal to the text; any other count gives e164
    null and pretty equal to the text. *)
Theorem parsePhone_by_digit_count (raw : jsstring) :
  let text := decode raw in
  let digits := filter isDigit text in
  let count := length digits in
  let r := parsePhone raw in
  (text = [] -> r = Contact.mk None None None None) /\
  (text <> [] -> count = 0%nat ->
   r = Contact.mk (Some text) None None (Some text)) /\
  (count = 10%nat ->
   exists a b c,
     digits = a ++ b ++ c /\
     length a = 3%nat /\ length b = 3%nat /\ length c = 4%nat /\
     r = Contact.mk (Some text) (Some digits) (Some (lit "+1" ++ digits))
           (Some (lit "(" ++ a ++ lit ") " ++ b ++ lit "-" ++ c))) /\
  (count = 7%nat ->
   exists a b,
     digits = a ++ b /\ length a = 3%nat /\ length b = 4%nat /\
     r = Contact.mk (Some text) (Some digits) None
           (Some (a ++ lit "-" ++ b))) /\
  ((11 <= count)%nat ->
   r = Contact.mk (Some text) (Some digits) (Some (lit "+" ++ digits))
         (Some text)) /\
  ((0 < count)%nat -> (count < 11)%nat -> count <> 7%nat ->
   count <> 10%nat ->
   r = Contact.mk (Some text) (Some digits) None (Some text)).
Proof.
  cbv zeta. unfold parsePhone. rewrite strip_nondigits.
  destruct (decode raw) as [|t0 text'] eqn:Et.
  { cbn [filter length]. repeat split; intros; try reflexivity;
      try congruence; try lia; discriminate. }
  set (text := t0 :: text') in *.
  destruct (filter isDigit text) as [|d0 digits'] eqn:Ed.
  { cbn [length]. repeat split; intros; try reflexivity; try lia;
      discriminate. }
  set (digits := d0 :: digits') in *.
  assert (Hnz : length digits <> 0%nat) by (subst digits; simpl; lia).
  destruct (Nat.eqb_spec (length digits) 10) as [E10|N10];
    [|destruct (Nat.eqb_spec (length digits) 7) as [E7|N7]].
  - repeat split; intros; try lia; try (subst text; discriminate).
    exists (firstn 3 digits), (firstn 3 (skipn 3 digits)), (skipn 6 digits).
    repeat split.
    + replace (skipn 6 digits) with (skipn 3 (skipn 3 digits))
        by (rewrite skipn_skipn; reflexivity).
      rewrite !firstn_skipn. reflexivity.
    + rewrite length_firstn. lia.
    + rewrite length_firstn, length_skipn. lia.
    + rewrite length_skipn. lia.
  - repeat split; intros; try lia; try (subst text; discriminate).
    exists (firstn 3 digits), (skipn 3 digits).
    repeat split.
    + rewrite firstn_skipn. reflexivity.
    + rewrite length_firstn. lia.
    + rewrite length_skipn. lia.
  - destruct (Nat.leb_spec 11 (length digits)) as [L|L];
      repeat split; intros; try lia; try (subst text; discriminate);
      reflexivity.
Qed.

Lemma parsePhone_by_digit_count_witness :
  let text := decode (lit "701.777.7868") in
  let digits := filter isDigit text in
  length digits = 10%nat /\
  exists a b c,
    digits = a ++ b ++ c /\
    length a = 3%nat /\ length b = 3%nat /\ length c = 4%nat /\
    parsePhone (lit "701.777.7868") =
      Contact.mk (Some text) (Some digits) (Some (lit "+1" ++ digits))
        (Some (lit "(" ++ a ++ lit ") " ++ b ++ lit "-" ++ c)).
Proof.
  assert (H : length (filter isDigit (decode (lit "701.777.7868")))
              = 10%nat) by (vm_compute; reflexivity).
  split; [exact H|].
  exact (proj1 (proj2 (proj2
           (parsePhone_by_digit_count (lit "701.777.7868")))) H).
Defined.

Example parsePhone_sample :
  parsePhone (lit "701.777.7868") =
    Contact.mk (Some (lit "701.777.7868")) (Some (lit "7017777868"))
      (Some (lit "+17017777868")) (Some (lit "(701) 777-7868")) /\
  parsePhone [] = Contact.mk None None None None.
Proof. split; vm_compute; reflexivity. Qed.

(** *** Returning-Time Parser *)

Lemma digitsAt_spec (n : nat) (s h r : jsstring) :
  digitsAt n s = Some (h, r) ->
  s = h ++ r /\ length h = n /\ forallb isDigit h = true.
Proof.
  unfold digitsAt.
  destruct (Nat.eqb_spec (length (firstn n s)) n) as [E|E]; [|discriminate].
  destruct (forallb isDigit (firstn n s)) eqn:D; [|discriminate].
  cbn [andb]. intros H; injection H as <- <-.
  rewrite firstn_skipn. auto.
Qed.

Lemma ampmAt_spec (s ap : jsstring) :
  ampmAt s = Some ap ->
  exists rest,
    s = takeWhile isSpace s ++ ap ++ rest /\
    (toUpperCase ap = lit "AM" \/ toUpperCase ap = lit "PM") /\
    isWordAt (hd_error rest) = false.
Proof.
  unfold ampmAt.
  assert (K : forall p,
    (toUpperCase p = lit "AM" \/ toUpperCase p = lit "PM") ->
    length p = 2%nat ->
    match stripPrefixCI p (dropWhile isSpace s) with
    | Some rest =>
        if wordBoundary (Some 77) (hd_error rest)
        then Some (firstn 2 (dropWhile isSpace s)) else None
    | None => None
    end = Some ap ->
    exists rest,
      s = takeWhile isSpace s ++ ap ++ rest /\
      (toUpperCase ap = lit "AM" \/ toUpperCase ap = lit "PM") /\
      isWordAt (hd_error rest) = false).
  { intros p Hp Lp.
    destruct (stripPrefixCI p (dropWhile isSpace s)) as [rest|] eqn:E;
      [|discriminate].
    apply stripPrefixCI_spec in E as (q & Hq & Uq).
    destruct (wordBoundary (Some 77) (hd_error rest)) eqn:B; [|discriminate].
    assert (Lq : length q = 2%nat).
    { rewrite <- Lp, <- (length_map upperCU q), Uq, length_map. reflexivity. }
    assert (F : firstn 2 (dropWhile isSpace s) = q).
    { rewrite Hq, firstn_app, Lq, Nat.sub_diag, firstn_O, app_nil_r.
      apply firstn_all2. lia. }
    rewrite F. intros H; injection H as <-.
    exists rest. repeat split.
    - rewrite <- Hq. symmetry. apply takeWhile_dropWhile.
    - unfold toUpperCase in *. rewrite Uq. exact Hp.
    - unfold wordBoundary in B. cbn in B.
      destruct (isWordAt (hd_error rest)); [discriminate | reflexivity]. }
  destruct (stripPrefixCI (lit "AM") (dropWhile isSpace s)) as [rest|] eqn:E1.
  - destruct (wordBoundary (Some 77) (hd_error rest)) eqn:B1.
    + cbn [orElse]. intros H. apply (K (lit "AM")); [now left|reflexivity|].
      rewrite E1, B1. exact H.
    + cbn [orElse]. apply (K (lit "PM")); [now right|reflexivity].
  - cbn [orElse]. apply (K (lit "PM")); [now right|reflexivity].
Qed.

Lemma meridiemAt_spec (prev : option cu) (s : jsstring) (m : Meridiem) :
  meridiemAt prev s = Some m ->
  isWordAt prev = false /\
  exists colon ws post,
    s = m_hour m ++ colon ++ orEmpty (m_minutes m) ++ ws ++ m_ampm m ++ post /\
    (length (m_hour m) = 1%nat \/ length (m_hour m) = 2%nat) /\
    forallb isDigit (m_hour m) = true /\
    (colon = [] \/ colon = lit ":") /\
    (m_minutes m = None \/
     exists x, m_minutes m = Some x /\ length x = 2%nat /\
               forallb isDigit x = true) /\
    forallb isSpace ws = true /\
    (toUpperCase (m_ampm m) = lit "AM" \/
     toUpperCase (m_ampm m) = lit "PM") /\
    isWordAt (hd_error post) = false.
Proof.
  (* the tail of the pattern after the minutes *)
  assert (Kmin : forall s mm ap,
    minutesAt s = Some (mm, ap) ->
    exists ws post,
      s = orEmpty mm ++ ws ++ ap ++ post /\
      (mm = None \/
       exists x, mm = Some x /\ length x = 2%nat /\
                 forallb isDigit x = true) /\
      forallb isSpace ws = true /\
      (toUpperCase ap = lit "AM" \/ toUpperCase ap = lit "PM") /\
      isWordAt (hd_error post) = false).
  { clear. intros s mm ap. unfold minutesAt.
    assert (Kno : option_map (pair (@None jsstring)) (ampmAt s)
                  = Some (mm, ap) ->
      exists ws post,
        s = orEmpty mm ++ ws ++ ap ++ post /\
        (mm = None \/
         exists x, mm = Some x /\ length x = 2%nat /\
                   forallb isDigit x = true) /\
        forallb isSpace ws = true /\
        (toUpperCase ap = lit "AM" \/ toUpperCase ap = lit "PM") /\
        isWordAt (hd_error post) = false).
    { destruct (ampmAt s) as [ap'|] eqn:E; [|discriminate].
      cbn [option_map]. intros H; injection H as <- <-.
      apply ampmAt_spec in E as (post & Hs & Hap & Hw).
      exists (takeWhile isSpace s), post. cbn [orEmpty app].
      repeat split; auto using takeWhile_all. }
    destruct (digitsAt 2 s) as [[x r]|] eqn:D; [|exact Kno].
    destruct (ampmAt r) as [ap'|] eqn:E; [|exact Kno].
    cbn [option_map orElse]. intros H; injection H as <- <-.
    apply digitsAt_spec in D as (-> & Lx & Dx).
    apply ampmAt_spec in E as (post & Hr & Hap & Hw).
    exists (takeWhile isSpace r), post. cbn [orEmpty].
    repeat split; auto using takeWhile_all.
    - rewrite <- Hr. reflexivity.
    - right. exists x. auto. }
  assert (Kcol : forall s mm ap,
    colonAt s = Some (mm, ap) ->
    exists colon ws post,
      s = colon ++ orEmpty mm ++ ws ++ ap ++ post /\
      (colon = [] \/ colon = lit ":") /\
      (mm = None \/
       exists x, mm = Some x /\ length x = 2%nat /\
                 forallb isDigit x = true) /\
      forallb isSpace ws = true /\
      (toUpperCase ap = lit "AM" \/ toUpperCase ap = lit "PM") /\
      isWordAt (hd_error post) = false).
  { intros t mm ap. unfold colonAt.
    assert (Kno : minutesAt t = Some (mm, ap) ->
      exists colon ws post,
        t = colon ++ orEmpty mm ++ ws ++ ap ++ post /\
        (colon = [] \/ colon = lit ":") /\
        (mm = None \/
         exists x, mm = Some x /\ length x = 2%nat /\
                   forallb isDigit x = true) /\
        forallb isSpace ws = true /\
        (toUpperCase ap = lit "AM" \/ toUpperCase ap = lit "PM") /\
        isWordAt (hd_error post) = false).
    { intros H. apply Kmin in H as (ws & post & Ht & H).
      exists [], ws, post. cbn [app]. split; [exact Ht|]. split; [now left|].
      exact H. }
    destruct t as [|c r]; [exact Kno|].
    destruct (N.eqb_spec c 58) as [->|Hc]; [|exact Kno].
    destruct (minutesAt r) as [[mm' ap']|] eqn:E; [|exact Kno].
    cbn [orElse]. intros H; injection H as <- <-.
    apply Kmin in E as (ws & post & Hr & H).
    exists (lit ":"), ws, post. split; [rewrite Hr; reflexivity|].
    split; [now right | exact H]. }
  unfold meridiemAt.
  destruct (wordBoundary prev (hd_error s)) eqn:B; [|discriminate].
  assert (Khour : forall n,
    (n = 1%nat \/ n = 2%nat) ->
    match digitsAt n s with
    | Some (h, r) =>
        option_map (fun x => mkMeridiem h (fst x) (snd x)) (colonAt r)
    | None => None
    end = Some m ->
    isWordAt prev = false /\
    exists colon ws post,
      s = m_hour m ++ colon ++ orEmpty (m_minutes m) ++ ws ++ m_ampm m ++
          post /\
      (length (m_hour m) = 1%nat \/ length (m_hour m) = 2%nat) /\
      forallb isDigit (m_hour m) = true /\
      (colon = [] \/ colon = lit ":") /\
      (m_minutes m = None \/
       exists x, m_minutes m = Some x /\ length x = 2%nat /\
                 forallb isDigit x = true) /\
      forallb isSpace ws = true /\
      (toUpperCase (m_ampm m) = lit "AM" \/
       toUpperCase (m_ampm m) = lit "PM") /\
      isWordAt (hd_error post) = false).
  { intros n Hn.
    destruct (digitsAt n s) as [[h r]|] eqn:D; [|discriminate].
    destruct (colonAt r) as [[mm ap]|] eqn:E; [|discriminate].
    cbn [option_map fst snd]. intros H; injection H as <-.
    cbn [m_hour m_minutes m_ampm].
    apply digitsAt_spec in D as (Hs & Lh & Dh).
    apply Kcol in E as (colon & ws & post & Hr & H).
    split.
    - (* the text starts with a digit, a word character *)
      destruct h as [|d h']; [simpl in Lh; lia|].
      rewrite Hs in B. cbn [app hd_error] in B.
      cbn [forallb] in Dh. apply andb_true_iff in Dh as [Dd _].
      unfold wordBoundary in B. cbn [isWordAt] in B.
      unfold isWord in B. rewrite Dd, orb_true_r in B. cbn [orb] in B.
      destruct (isWordAt prev); [discriminate | reflexivity].
    - exists colon, ws, post. split; [rewrite Hs, Hr; reflexivity|].
      split; [lia|]. split; [exact Dh | exact H]. }
  pose proof (Khour 2%nat (or_intror eq_refl)) as K2.
  pose proof (Khour 1%nat (or_introl eq_refl)) as K1.
  cbv zeta. revert K2.
  match goal with |- context [orElse ?a _] => destruct a as [m2|] end;
    cbn [orElse]; intros K2 H; auto.
Qed.

Lemma meridiemFrom_spec (s : jsstring) :
  forall prev m,
    meridiemFrom prev s = Some m ->
    exists pre rest,
      s = pre ++ rest /\
      meridiemAt (orElse (hd_error (rev pre)) prev) rest = Some m.
Proof.
  induction s as [|c r IH]; intros prev m; cbn [meridiemFrom].
  - destruct (meridiemAt prev []) eqn:E; [|discriminate].
    intros H; injection H as <-. exists [], []. auto.
  - destruct (meridiemAt prev (c :: r)) eqn:E.
    + intros H; injection H as <-. exists [], (c :: r). auto.
    + intros H. apply IH in H as (pre & rest & -> & H).
      exists (c :: pre), rest. split; [reflexivity|].
      rewrite hd_error_rev_cons.
      destruct (hd_error (rev pre)); exact H.
Qed.

Lemma matchMeridiem_shape (text : jsstring) (m : Meridiem) :
  matchMeridiem text = Some m -> MeridiemIn text m.
Proof.
  intros H. apply meridiemFrom_spec in H as (pre & rest & -> & H).
  apply meridiemAt_spec in H as (Hb & colon & ws & post & -> & H).
  exists pre, colon, ws, post. split; [reflexivity|]. split; [|exact H].
  destruct (hd_error (rev pre)); exact Hb.
Qed.

(** Conversely, the regex finds a match in every text that holds a
    meridiem-shaped time. *)
Lemma ampm_letters (ap : jsstring) :
  toUpperCase ap = lit "AM" \/ toUpperCase ap = lit "PM" ->
  exists a b,
    ap = [a; b] /\ isSpace a = false /\ upperCU b = 77 /\
    (upperCU a = 65 \/ upperCU a = 80).
Proof.
  assert (K : forall a x, upperCU a = x -> x = 65 \/ x = 80 ->
                          isSpace a = false).
  { intros a x <- Hx. unfold upperCU in Hx.
    destruct (between 97 122 a) eqn:B.
    - apply between_spec in B.
      destruct Hx as [Hx|Hx]; [assert (a = 97) as -> by lia
                              | assert (a = 112) as -> by lia];
        reflexivity.
    - destruct Hx as [->| ->]; reflexivity. }
  unfold toUpperCase.
  intros [H|H]; destruct ap as [|a [|b [|c ap]]]; try discriminate H;
    cbn [map] in H; injection H as Ha Hb; exists a, b;
    (split; [reflexivity|]); (split; [eapply K; eauto|]); auto.
Qed.

Lemma ampmAt_complete (ws ap post : jsstring) :
  forallb isSpace ws = true ->
  toUpperCase ap = lit "AM" \/ toUpperCase ap = lit "PM" ->
  isWordAt (hd_error post) = false ->
  ampmAt (ws ++ ap ++ post) = Some ap.
Proof.
  intros Hws Hap Hpost.
  destruct (ampm_letters _ Hap) as (a & b & -> & Ha & Hb & Hab).
  unfold ampmAt. cbn [app]. rewrite (dropWhile_app_stop _ _ _ _ Hws Ha).
  change (lit "AM") with [65; 77]. change (lit "PM") with [80; 77].
  cbn [stripPrefixCI firstn]. unfold ciEq.
  change (upperCU 77) with 77. change (upperCU 65) with 65.
  change (upperCU 80) with 80.
  rewrite Hb. cbn [N.eqb Pos.eqb].
  destruct Hab as [E|E]; rewrite E; cbn [N.eqb Pos.eqb orElse];
    unfold wordBoundary; rewrite Hpost; reflexivity.
Qed.

Lemma digitsAt_complete (h rest : jsstring) :
  forallb isDigit h = true ->
  digitsAt (length h) (h ++ rest) = Some (h, rest).
Proof.
  intros Hd. unfold digitsAt.
  rewrite firstn_app, Nat.sub_diag, firstn_O, app_nil_r, firstn_all.
  rewrite Nat.eqb_refl, Hd. cbn [andb].
  rewrite (skipn_app_exact h rest _ eq_refl). reflexivity.
Qed.

Lemma minutesAt_complete (mins : option jsstring) (ws ap post : jsstring) :
  (mins = None \/
   exists x, mins = Some x /\ length x = 2%nat /\ forallb isDigit x = true) ->
  forallb isSpace ws = true ->
  toUpperCase ap = lit "AM" \/ toUpperCase ap = lit "PM" ->
  isWordAt (hd_error post) = false ->
  minutesAt (orEmpty mins ++ ws ++ ap ++ post) <> None.
Proof.
  intros Hm Hws Hap Hpost. unfold minutesAt.
  destruct Hm as [->|(x & -> & Lx & Dx)]; cbn [orEmpty].
  - cbn [app]. rewrite (ampmAt_complete _ _ _ Hws Hap Hpost).
    cbn [option_map]. destruct (digitsAt 2 _) as [[mm r]|];
      [destruct (option_map _ (ampmAt r))|]; discriminate.
  - pose proof (digitsAt_complete x (ws ++ ap ++ post) Dx) as E.
    rewrite Lx in E. rewrite E, (ampmAt_complete _ _ _ Hws Hap Hpost).
    discriminate.
Qed.

Lemma colonAt_complete (colon s : jsstring) :
  colon = [] \/ colon = lit ":" ->
  minutesAt s <> None -> colonAt (colon ++ s) <> None.
Proof.
  intros [->| ->] Hs; unfold colonAt.
  - cbn [app]. destruct s as [|c r].
    + cbn [orElse]. exact Hs.
    + destruct (if c =? 58 then minutesAt r else None); cbn [orElse];
        [discriminate | exact Hs].
  - change (lit ":" ++ s) with (58 :: s). cbv iota.
    change (58 =? 58) with true. cbv iota.
    destruct (minutesAt s); [discriminate | congruence].
Qed.

Lemma meridiemAt_complete (prev : option cu) (h rest : jsstring) :
  isWordAt prev = false ->
  length h = 1%nat \/ length h = 2%nat ->
  forallb isDigit h = true ->
  colonAt rest <> None ->
  meridiemAt prev (h ++ rest) <> None.
Proof.
  intros Hprev Lh Dh Hrest. unfold meridiemAt.
  assert (B : wordBoundary prev (hd_error (h ++ rest)) = true).
  { destruct h as [|d h']; [destruct Lh; discriminate|].
    cbn [app hd_error forallb] in *. apply andb_true_iff in Dh as [Dd _].
    unfold wordBoundary. rewrite Hprev. cbn [isWordAt]. unfold isWord.
    rewrite Dd, orb_true_r. reflexivity. }
  rewrite B.
  pose proof (digitsAt_complete h rest Dh) as E.
  destruct (colonAt rest) as [x|] eqn:Ec; [|congruence].
  destruct Lh as [L|L]; rewrite L in E; rewrite E, Ec; cbn [option_map].
  - destruct (digitsAt 2 (h ++ rest)) as [[h2 r2]|];
      [destruct (option_map _ (colonAt r2))|]; discriminate.
  - discriminate.
Qed.

Lemma meridiemFrom_complete (pre s : jsstring) :
  forall prev,
    meridiemAt (orElse (hd_error (rev pre)) prev) s <> None ->
    meridiemFrom prev (pre ++ s) <> None.
Proof.
  induction pre as [|c pre IH]; intros prev H.
  - cbn [app]. cbn [rev hd_error orElse] in H.
    destruct s as [|x s']; cbn [meridiemFrom];
      destruct (meridiemAt prev _); congruence.
  - cbn [app meridiemFrom].
    destruct (meridiemAt prev (c :: pre ++ s)); [discriminate|].
    apply IH. rewrite hd_error_rev_cons in H.
    destruct (hd_error (rev pre)); exact H.
Qed.

(** The regex finds no match exactly in the texts that hold no
    meridiem-shaped time. *)
Lemma matchMeridiem_none_iff (text : jsstring) :
  matchMeridiem text = None <-> ~ exists m, MeridiemIn text m.
Proof.
  split.
  - intros Hnone (m & pre & colon & ws & post & -> & Hb & Lh & Dh & Hc &
                  Hmin & Hws & Hap & Ha).
    revert Hnone. apply meridiemFrom_complete.
    cbn [orElse]. destruct (hd_error (rev pre)) as [x|] eqn:Ex;
      (apply meridiemAt_complete; [exact Hb | lia | exact Dh |]);
      apply colonAt_complete; auto; apply minutesAt_complete; auto.
  - intros H. destruct (matchMeridiem text) as [m|] eqn:E; [|reflexivity].
    exfalso. apply H. exists m. apply matchMeridiem_shape. exact E.
Qed.

Lemma ampm_not_digit (ap : jsstring) :
  toUpperCase ap = lit "AM" \/ toUpperCase ap = lit "PM" ->
  forallb isDigit ap = false.
Proof.
  assert (K : forall a x, upperCU a = x -> 65 <= x -> isDigit a = false).
  { intros a x <- Hx. unfold upperCU in Hx. unfold isDigit.
    destruct (between 48 57 a) eqn:D; [|reflexivity].
    apply between_spec in D.
    destruct (between 97 122 a) eqn:L.
    - apply between_spec in L. lia.
    - lia. }
  destruct ap as [|a ap]; [intros [H|H]; discriminate H|].
  unfold toUpperCase. cbn [map forallb].
  intros [H|H]; injection H as Ha _;
    rewrite (K a _ Ha) by (clear; lia); reflexivity.
Qed.

Lemma meridiem_not_digits (text : jsstring) (m : Meridiem) :
  MeridiemIn text m -> forallb isDigit text = false.
Proof.
  intros (pre & colon & ws & post & -> & _ & _ & _ & _ & _ & _ & Hap & _).
  destruct (forallb isDigit _) eqn:E; [|reflexivity].
  apply forallb_app_true in E as [_ E].
  apply forallb_app_true in E as [_ E].
  apply forallb_app_true in E as [_ E].
  apply forallb_app_true in E as [_ E].
  apply forallb_app_true in E as [_ E].
  apply forallb_app_true in E as [E _].
  rewrite (ampm_not_digit _ Hap) in E. discriminate.
Qed.

Lemma Number_of_digits_zeros (k : nat) (s : jsstring) :
  Number_of_digits (repeat 48 k ++ s) = Number_of_digits s.
Proof.
  unfold Number_of_digits. rewrite fold_left_app.
  replace (fold_left (fun acc c => 10 * acc + (c - 48)) (repeat 48 k) 0)
    with 0; [reflexivity|].
  induction k as [|k IH]; simpl; [reflexivity | exact IH].
Qed.

Lemma forallb_repeat_digit (k : nat) : forallb isDigit (repeat 48 k) = true.
Proof. induction k; simpl; auto. Qed.

Lemma padStart0_length (n : nat) (s : jsstring) :
  (length s <= n)%nat -> length (padStart0 n s) = n.
Proof.
  intros H. unfold padStart0. rewrite length_app, repeat_length. lia.
Qed.

Lemma padStart0_digits (n : nat) (s : jsstring) :
  forallb isDigit s = true -> forallb isDigit (padStart0 n s) = true.
Proof.
  intros H. unfold padStart0.
  rewrite forallb_app, forallb_repeat_digit, H. reflexivity.
Qed.

Lemma padStart0_full (n : nat) (s : jsstring) :
  (n <= length s)%nat -> padStart0 n s = s.
Proof.
  intros H. unfold padStart0.
  replace (n - length s)%nat with 0%nat by lia. reflexivity.
Qed.

(** C7 (amended). For every input in which the Returning-Time Parser
    finds a meridiem-shaped time (hour of one or two digits, optional
    minutes, AM or PM), the returned [hhmm] is the hour as written,
    zero-padded to two digits, a colon and the two minute digits ("00"
    when there are none): the hour keeps its 12-hour value and is not
    converted to the 24-hour clock, while [pretty] is the hour without
    padding, the minutes and the upper-cased meridiem, which is also the
    only token. *)
Theorem parseReturning_meridiem (raw : jsstring) (m : Meridiem) :
  matchMeridiem (decode raw) = Some m ->
  let text := decode raw in
  let r := parseReturning raw in
  let hh := padStart0 2 (m_hour m) in
  let mm := minutesOf m in
  let ap := toUpperCase (m_ampm m) in
  MeridiemIn text m /\
  Returning.raw r = Some text /\
  Returning.hhmm r = Some (hh ++ lit ":" ++ mm) /\
  length hh = 2%nat /\ forallb isDigit hh = true /\
  length mm = 2%nat /\ forallb isDigit mm = true /\
  Number_of_digits hh = Number_of_digits (m_hour m) /\
  (ap = lit "AM" \/ ap = lit "PM") /\
  Returning.pretty r =
    Some (String_of_N (Number_of_digits (m_hour m)) ++ lit ":" ++ mm ++
          lit " " ++ ap) /\
  Returning.tokens r = [ap].
Proof.
  intros Hm. cbv zeta.
  pose proof (matchMeridiem_shape _ _ Hm) as Hshape.
  pose proof (meridiem_not_digits _ _ Hshape) as Hnd.
  destruct Hshape as (pre & colon & ws & post & Ht & Hb & Lh & Dh & Hc &
                      Hmin & Hws & Hap & Ha).
  assert (Hmm : padStart0 2
                  match orEmpty (m_minutes m) with
                  | [] => lit "00"
                  | x => x
                  end = minutesOf m /\
                length (minutesOf m) = 2%nat /\
                forallb isDigit (minutesOf m) = true).
  { unfold minutesOf. destruct Hmin as [E|(x & E & Lx & Dx)]; rewrite E.
    - cbn [orEmpty]. repeat split; reflexivity.
    - cbn [orEmpty]. destruct x as [|x0 x']; [discriminate Lx|].
      rewrite padStart0_full by lia. auto. }
  destruct Hmm as (Emm & Lmm & Dmm).
  assert (Hnum : Number_of_digits (padStart0 2 (m_hour m))
                 = Number_of_digits (m_hour m))
    by apply Number_of_digits_zeros.
  split.
  { exists pre, colon, ws, post. repeat split; assumption. }
  unfold parseReturning.
  destruct (decode raw) as [|t0 t'] eqn:Et.
  { exfalso. destruct pre; [|discriminate Ht].
    destruct (m_hour m); [destruct Lh; discriminate | discriminate Ht]. }
  unfold isHHMM. rewrite Hnd. cbn [andb]. rewrite Hm.
  cbn [Returning.raw Returning.hhmm Returning.pretty Returning.tokens].
  rewrite Emm, Hnum. unfold COLON.
  repeat split; auto.
  - apply padStart0_length. lia.
  - apply padStart0_digits. exact Dh.
Qed.

Lemma parseReturning_meridiem_witness :
  matchMeridiem (decode (lit "9:30 PM")) =
    Some (mkMeridiem (lit "9") (Some (lit "30")) (lit "PM")) /\
  Returning.hhmm (parseReturning (lit "9:30 PM")) = Some (lit "09:30") /\
  Returning.pretty (parseReturning (lit "9:30 PM")) = Some (lit "9:30 PM").
Proof.
  assert (H : matchMeridiem (decode (lit "9:30 PM")) =
              Some (mkMeridiem (lit "9") (Some (lit "30")) (lit "PM")))
    by (vm_compute; reflexivity).
  split; [exact H|].
  destruct (parseReturning_meridiem (lit "9:30 PM") _ H)
    as (_ & _ & Hh & _ & _ & _ & _ & _ & _ & Hp & _).
  split; [rewrite Hh | rewrite Hp]; vm_compute; reflexivity.
Defined.

(** C7 as stated fails: "9:30 PM" carries a meridiem time whose 24-hour
    form is 21:30, and the parser returns "09:30". *)
Lemma parseReturning_24h_counterexample :
  matchMeridiem (decode (lit "9:30 PM")) =
    Some (mkMeridiem (lit "9") (Some (lit "30")) (lit "PM")) /\
  Returning.hhmm (parseReturning (lit "9:30 PM")) = Some (lit "09:30") /\
  Returning.hhmm (parseReturning (lit "9:30 PM")) <> Some (lit "21:30").
Proof.
  repeat split; try (vm_compute; reflexivity). vm_compute. discriminate.
Qed.

(** [text.match(/[A-Za-z]+/g)] finds the alphabetic words. *)
Lemma matchAll_alphas_words (s : jsstring) :
  AlphaWords s (matchAll m_alphas s).
Proof.
  induction s as [s IH] using length_ind.
  destruct s as [|c r]; [constructor|].
  rewrite matchAll_cons. unfold m_alphas. cbn [takeWhile].
  destruct (isAlpha c) eqn:E; cbn [length].
  - rewrite firstn_takeWhile, skipn_takeWhile.
    rewrite <- (takeWhile_dropWhile isAlpha r) at 1.
    apply (AW_word (c :: takeWhile isAlpha r)).
    + discriminate.
    + cbn [forallb]. rewrite E, takeWhile_all. reflexivity.
    + apply dropWhile_head.
    + apply IH. simpl. pose proof (dropWhile_length isAlpha r). lia.
  - apply AW_skip; [exact E|]. apply IH. simpl. lia.
Qed.

Lemma isHHMM_spec (text : jsstring) :
  isHHMM text = true <->
  forallb isDigit text = true /\
  (length text = 3%nat \/ length text = 4%nat).
Proof.
  unfold isHHMM. rewrite andb_true_iff, orb_true_iff, !Nat.eqb_eq.
  reflexivity.
Qed.

(** C8 (amended). The Returning-Time Parser tries its branches in
    order.  A decoded text of 3 or 4 digits is left-padded to 4 digits
    and gives [hhmm] "HH:MM" ("1145" gives "11:45").  A non-empty
    decoded text that has neither the digit form nor a meridiem time
    gives [hhmm] null, [pretty] equal to the decoded text, and for
    tokens the alphabetic words of the text in their order ("Thu PM mod"
    gives "Thu", "PM", "mod").  An empty decoded text gives [raw],
    [hhmm] and [pretty] null and no tokens. *)
Theorem parseReturning_branches (raw : jsstring) :
  let text := decode raw in
  let r := parseReturning raw in
  (forallb isDigit text = true ->
   length text = 3%nat \/ length text = 4%nat ->
   let padded := padStart0 4 text in
   length padded = 4%nat /\
   Number_of_digits padded = Number_of_digits text /\
   Returning.raw r = Some text /\
   Returning.hhmm r = Some (firstn 2 padded ++ lit ":" ++ skipn 2 padded) /\
   Returning.pretty r =
     Some (String_of_N (Number_of_digits (firstn 2 padded)) ++ lit ":" ++
           skipn 2 padded)) /\
  (text <> [] ->
   ~ (forallb isDigit text = true /\
      (length text = 3%nat \/ length text = 4%nat)) ->
   ~ (exists m, MeridiemIn text m) ->
   r = Returning.mk (Some text) None (Some text) (Returning.tokens r) /\
   AlphaWords text (Returning.tokens r)) /\
  (text = [] -> r = Returning.mk None None None []) /\
  Returning.hhmm (parseReturning (lit "1145")) = Some (lit "11:45") /\
  parseReturning (lit "Thu PM mod") =
    Returning.mk (Some (lit "Thu PM mod")) None (Some (lit "Thu PM mod"))
      [lit "Thu"; lit "PM"; lit "mod"].
Proof.
  cbv zeta. split; [|split; [|split; [|split; vm_compute; reflexivity]]].
  - intros Hd Hl.
    assert (H : isHHMM (decode raw) = true) by (apply isHHMM_spec; auto).
    unfold parseReturning. rewrite H.
    destruct (decode raw) as [|t0 t'] eqn:Et;
      [destruct Hl; discriminate|].
    assert (L4 : length (padStart0 4 (t0 :: t')) = 4%nat)
      by (apply padStart0_length; lia).
    cbn [Returning.raw Returning.hhmm Returning.pretty]. unfold COLON.
    replace (firstn 2 (skipn 2 (padStart0 4 (t0 :: t'))))
      with (skipn 2 (padStart0 4 (t0 :: t'))).
    + repeat split; auto. apply Number_of_digits_zeros.
    + symmetry. apply firstn_all2. rewrite length_skipn. lia.
  - intros Hne Hh Hm. apply matchMeridiem_none_iff in Hm.
    rewrite <- isHHMM_spec in Hh. apply not_true_is_false in Hh.
    unfold parseReturning.
    destruct (decode raw) as [|t0 t'] eqn:Et; [congruence|].
    rewrite Hh, Hm. cbn [Returning.tokens]. split; [reflexivity|].
    apply matchAll_alphas_words.
  - intros Et. unfold parseReturning. rewrite Et. reflexivity.
Qed.

Lemma parseReturning_branches_witness :
  let text := decode (lit "945") in
  forallb isDigit text = true /\
  (length text = 3%nat \/ length text = 4%nat) /\
  Returning.hhmm (parseReturning (lit "945")) =
    Some (firstn 2 (padStart0 4 text) ++ lit ":" ++
          skipn 2 (padStart0 4 text)).
Proof.
  assert (Hd : forallb isDigit (decode (lit "945")) = true)
    by (vm_compute; reflexivity).
  assert (Hl : length (decode (lit "945")) = 3%nat \/
               length (decode (lit "945")) = 4%nat)
    by (left; vm_compute; reflexivity).
  split; [exact Hd|]. split; [exact Hl|].
  exact (proj1 (proj2 (proj2 (proj2
           (proj1 (parseReturning_branches (lit "945")) Hd Hl))))).
Defined.

(** C8 as stated fails on the empty input: it has neither the digit
    form nor a meridiem time, and [pretty] is null, not the decoded
    text (the empty string); all of [raw], [hhmm] and [pretty] are
    null there, and there is no token. *)
Lemma parseReturning_empty_counterexample :
  decode [] = [] /\
  isHHMM (decode []) = false /\
  ~ (exists m, MeridiemIn (decode []) m) /\
  parseReturning [] = Returning.mk None None None [] /\
  Returning.pretty (parseReturning []) = None /\
  Returning.pretty (parseReturning []) <> Some (decode []).
Proof.
  split; [reflexivity|]. split; [reflexivity|].
  split; [apply matchMeridiem_none_iff; reflexivity|].
  split; [reflexivity|].
  split; [reflexivity|]. vm_compute. discriminate.
Qed.

(** *** Updated-Timestamp Parser *)

Lemma isFormatToken_shape (text : jsstring) :
  isFormatToken text = true -> FormatToken text.
Proof.
  unfold isFormatToken, FormatToken.
  destruct (stripPrefixCI (lit "MM/dd") text) as [r|] eqn:E1; [|discriminate].
  destruct (takeWhile isSpace r) as [|w ws] eqn:E2; [discriminate|].
  destruct (stripPrefixCI (lit "HH:mm") (dropWhile isSpace r)) as [[|]|] eqn:E3;
    try discriminate.
  intros _.
  apply stripPrefixCI_spec in E1 as (p & -> & Hp).
  apply stripPrefixCI_spec in E3 as (q & Hq & Hq').
  rewrite app_nil_r in Hq.
  exists p, (w :: ws), q. repeat split.
  - rewrite <- Hq, <- E2, takeWhile_dropWhile. reflexivity.
  - exact Hp.
  - discriminate.
  - rewrite <- E2. apply takeWhile_all.
  - exact Hq'.
Qed.

Lemma isFormatToken_complete (text : jsstring) :
  FormatToken text -> isFormatToken text = true.
Proof.
  intros (p & ws & q & -> & Hp & Hws & Sws & Hq). unfold isFormatToken.
  assert (E1 : stripPrefixCI (lit "MM/dd") (p ++ ws ++ q) = Some (ws ++ q)).
  { apply stripPrefixCI_spec. exists p. split; [reflexivity|].
    rewrite Hp. reflexivity. }
  rewrite E1.
  destruct q as [|h q']; [discriminate Hq|].
  assert (Hh : isSpace h = false).
  { cbn [map] in Hq. injection Hq as Hh _. unfold upperCU in Hh.
    destruct (between 97 122 h) eqn:B.
    - apply between_spec in B. assert (h = 104) as -> by lia. reflexivity.
    - subst h. reflexivity. }
  rewrite (takeWhile_app_stop _ _ _ _ Sws Hh).
  rewrite (dropWhile_app_stop _ _ _ _ Sws Hh).
  destruct ws as [|w ws']; [congruence|].
  assert (E2 : stripPrefixCI (lit "HH:mm") (h :: q') = Some []).
  { apply stripPrefixCI_spec. exists (h :: q'). rewrite app_nil_r.
    split; [reflexivity|]. rewrite Hq. reflexivity. }
  rewrite E2. reflexivity.
Qed.

(** C4 (amended). For every Updated cell whose extracted text matches
    the unpopulated-template pattern [MM/dd HH:mm] (case-insensitive),
    the Updated-Timestamp Parser returns local null, isoGuess null,
    epochMs null and debug equal to the string "FormatTokenSeen". *)
Theorem parseUpdated_format_token dp iso (td : Cell) :
  FormatToken (extractCellText td) ->
  parseUpdatedFromCell dp iso td =
    Updated.mk None None None (Some (lit "FormatTokenSeen")).
Proof.
  intros H. apply isFormatToken_complete in H.
  unfold parseUpdatedFromCell. rewrite H. reflexivity.
Qed.

Lemma parseUpdated_format_token_witness :
  FormatToken (extractCellText placeholderCell) /\
  parseUpdatedFromCell Date_parse0 toISOString0 placeholderCell =
    Updated.mk None None None (Some (lit "FormatTokenSeen")).
Proof.
  assert (H : FormatToken (extractCellText placeholderCell)).
  { apply isFormatToken_shape. vm_compute. reflexivity. }
  split; [exact H|].
  exact (parseUpdated_format_token Date_parse0 toISOString0
           placeholderCell H).
Defined.

(** C4 as stated fails: on a cell that renders the format token the
    parser tags the result "FormatTokenSeen", not "template
    placeholder". *)
Lemma parseUpdated_debug_counterexample :
  extractCellText placeholderCell = lit "MM/dd HH:mm" /\
  isFormatToken (extractCellText placeholderCell) = true /\
  Updated.debug
    (parseUpdatedFromCell Date_parse0 toISOString0 placeholderCell)
  <> Some (lit "template placeholder").
Proof.
  split; [vm_compute; reflexivity|].
  split; [vm_compute; reflexivity | vm_compute; discriminate].
Qed.

(** *** Row Assembler *)

Lemma rowToRecord_status clock dp iso tr n r n' :
  rowToRecord clock dp iso tr n = (Some r, n') ->
  (exists c t, rec_status r = normalizeStatus c t) /\
  meta_flags (rec_meta r) =
    mkFlags (jseqb (rec_status r) (lit "In"))
            (jseqb (rec_status r) (lit "Out"))
            (jseqb (rec_status r) (lit "Unavailable")).
Proof.
  unfold rowToRecord.
  destruct (cells tr) as [|td0 [|td1 [|td2 [|td3 [|td4 [|td5 [|td6 rest]]]]]]];
    try discriminate.
  destruct (orElse _ _) as [id|]; [|discriminate].
  intros H. cbv beta iota delta [bind now ret] in H.
  apply (f_equal (fun p => match fst p with Some x => x | None => r end))
    in H.
  cbv beta iota delta [fst] in H. subst r.
  cbn [rec_status rec_meta meta_flags].
  split; [eexists; eexists; reflexivity | reflexivity].
Qed.

(** C10. Every record the Row Assembler produces has flags that agree
    with its status: [isIn] holds exactly when the status is "In",
    [isOut] exactly when it is "Out", [isUnavailable] exactly when it is
    "Unavailable", and the three are all false exactly when the status
    is "Unknown". *)
Theorem flags_agree_with_status clock dp iso tr n r n' :
  rowToRecord clock dp iso tr n = (Some r, n') ->
  let f := meta_flags (rec_meta r) in
  (isIn f = true <-> rec_status r = lit "In") /\
  (isOut f = true <-> rec_status r = lit "Out") /\
  (isUnavailable f = true <-> rec_status r = lit "Unavailable") /\
  (isIn f = false /\ isOut f = false /\ isUnavailable f = false
   <-> rec_status r = lit "Unknown").
Proof.
  intros H. destruct (rowToRecord_status _ _ _ _ _ _ _ H) as [[c [t Hs]] Hf].
  cbv zeta. rewrite Hf. cbn [isIn isOut isUnavailable].
  rewrite !jseqb_eq.
  split; [tauto|]. split; [tauto|]. split; [tauto|].
  split.
  - intros (H1 & H2 & H3).
    pose proof (normalizeStatus_closed c t) as Hin. rewrite <- Hs in Hin.
    apply jseqb_neq in H1, H2, H3.
    destruct Hin as [E|[E|[E|[E|[]]]]]; congruence.
  - intros E; rewrite E. repeat split; vm_compute; reflexivity.
Qed.

Lemma flags_agree_with_status_witness :
  exists r,
    rowToRecord clock0 Date_parse0 toISOString0 (sampleRow "OutItem" "7f3a" "Out")
      0%nat = (Some r, 1%nat) /\
    (isOut (meta_flags (rec_meta r)) = true <-> rec_status r = lit "Out").
Proof.
  eexists. split.
  - lazy. reflexivity.
  - refine (proj1 (proj2 (flags_agree_with_status clock0 Date_parse0
      toISOString0 (sampleRow "OutItem" "7f3a" "Out") 0%nat _ 1%nat _))).
    lazy. reflexivity.
Defined.

(** *** Board Reducer *)

Section OwnProperties.
Context {V : Type}.

Lemma hasOwn_false_under (k : jsstring) (o : list (jsstring * V)) :
  hasOwn k o = false -> storedUnder k o = [].
Proof.
  unfold storedUnder. induction o as [|[k' v'] o IH]; cbn [hasOwn filter fst].
  - reflexivity.
  - rewrite orb_false_iff. intros [E H].
    assert (E' : jseqb k' k = false).
    { apply jseqb_neq. apply jseqb_neq in E. congruence. }
    rewrite E'. exact (IH H).
Qed.

Lemma overwrite_under (k k0 : jsstring) (v : V) (o : list (jsstring * V)) :
  storedUnder k (overwrite k0 v o) =
    if jseqb k0 k then
      match storedUnder k o with
      | [] => []
      | _ :: rest => v :: rest
      end
    else storedUnder k o.
Proof.
  unfold storedUnder. induction o as [|[k' v'] o IH]; cbn [overwrite].
  - destruct (jseqb k0 k); reflexivity.
  - destruct (jseqb k0 k') eqn:E0.
    + apply jseqb_eq in E0. subst k'. cbn [filter fst].
      destruct (jseqb k0 k); reflexivity.
    + cbn [filter fst]. destruct (jseqb k' k) eqn:E1; cbn [map snd].
      * rewrite IH. destruct (jseqb k0 k) eqn:E2; [|reflexivity].
        apply jseqb_eq in E1, E2. subst. rewrite jseqb_refl in E0.
        discriminate.
      * exact IH.
Qed.

Lemma insertIndex_split (n : N) (k : jsstring) (v : V)
    (o : list (jsstring * V)) :
  exists o1 o2, o = o1 ++ o2 /\ insertIndex n k v o = o1 ++ (k, v) :: o2.
Proof.
  induction o as [|[k' v'] o IH]; cbn [insertIndex].
  - exists [], []. auto.
  - destruct (arrayIndex k') as [n'|].
    + destruct (n <? n').
      * exists [], ((k', v') :: o). auto.
      * destruct IH as (o1 & o2 & -> & ->).
        exists ((k', v') :: o1), o2. auto.
    + exists [], ((k', v') :: o). auto.
Qed.

Lemma setProp_new (o : JSObject V) (k : jsstring) (v : V) :
  k <> PROTO -> hasOwn k (obj_own o) = false ->
  exists o1 o2,
    obj_own o = o1 ++ o2 /\ obj_own (setProp o k v) = o1 ++ (k, v) :: o2.
Proof.
  intros Hk Hn. unfold setProp. apply jseqb_neq in Hk. rewrite Hk, Hn.
  destruct (arrayIndex k) as [n|]; cbn [obj_own].
  - apply insertIndex_split.
  - exists (obj_own o), []. rewrite app_nil_r. auto.
Qed.

Lemma under_insert (k k0 : jsstring) (v : V) (o1 o2 : list (jsstring * V)) :
  storedUnder k (o1 ++ (k0, v) :: o2) =
    if jseqb k0 k then storedUnder k o1 ++ v :: storedUnder k o2
    else storedUnder k (o1 ++ o2).
Proof.
  unfold storedUnder. rewrite !filter_app. cbn [filter fst].
  destruct (jseqb k0 k); rewrite !map_app; reflexivity.
Qed.

(** [o[k0] = v]: afterwards [v] is what is stored storedUnder [k0], unless
    [k0] is [__proto__], and the other keys keep their values. *)
Lemma setProp_under (o : JSObject V) (k k0 : jsstring) (v : V) :
  (length (storedUnder k (obj_own o)) <= 1)%nat ->
  storedUnder k (obj_own (setProp o k0 v)) =
    if jseqb k0 PROTO then storedUnder k (obj_own o)
    else if jseqb k0 k then [v]
    else storedUnder k (obj_own o).
Proof.
  intros Hle. destruct (jseqb k0 PROTO) eqn:Ep.
  { unfold setProp. rewrite Ep. reflexivity. }
  destruct (hasOwn k0 (obj_own o)) eqn:Eh.
  - unfold setProp. rewrite Ep, Eh. cbn [obj_own].
    rewrite overwrite_under. destruct (jseqb k0 k) eqn:Ek; [|reflexivity].
    apply jseqb_eq in Ek. subst k0.
    destruct (storedUnder k (obj_own o)) as [|x [|y l]] eqn:Eu.
    + exfalso. clear - Eh Eu. unfold storedUnder in Eu.
      induction (obj_own o) as [|[k' v'] l IH]; [discriminate|].
      cbn [hasOwn filter fst] in *.
      destruct (jseqb k k') eqn:E.
      * apply jseqb_eq in E. subst k'. rewrite jseqb_refl in Eu.
        discriminate.
      * assert (E' : jseqb k' k = false).
        { apply jseqb_neq. apply jseqb_neq in E. congruence. }
        rewrite E' in Eu. auto.
    + reflexivity.
    + simpl in Hle. lia.
  - apply jseqb_neq in Ep.
    destruct (setProp_new o k0 v Ep Eh) as (o1 & o2 & E1 & E2).
    rewrite E2, under_insert. destruct (jseqb k0 k) eqn:Ek.
    + apply jseqb_eq in Ek. subst k0.
      pose proof (hasOwn_false_under _ _ Eh) as Hu.
      rewrite E1 in Hu. unfold storedUnder in Hu |- *.
      rewrite filter_app, map_app in Hu. apply app_eq_nil in Hu as [-> ->].
      reflexivity.
    + rewrite E1. reflexivity.
Qed.

(** Nothing is ever stored storedUnder [__proto__]. *)
Lemma setProp_under_proto (o : JSObject V) (k0 : jsstring) (v : V) :
  storedUnder PROTO (obj_own o) = [] ->
  storedUnder PROTO (obj_own (setProp o k0 v)) = [].
Proof.
  intros H. rewrite setProp_under by (rewrite H; simpl; lia).
  destruct (jseqb k0 PROTO); exact H.
Qed.

Lemma setProp_keys (P : jsstring * V -> Prop) (o : JSObject V)
    (k0 : jsstring) (v : V) :
  P (k0, v) -> Forall P (obj_own o) -> Forall P (obj_own (setProp o k0 v)).
Proof.
  intros Hp Ho. unfold setProp.
  destruct (jseqb k0 PROTO); [exact Ho|].
  destruct (hasOwn k0 (obj_own o)) eqn:Eh; cbn [obj_own].
  - clear Eh. induction Ho as [|[k' v'] l Hx Hl IH]; cbn [overwrite].
    + constructor.
    + destruct (jseqb k0 k') eqn:E.
      * apply jseqb_eq in E. subst k'. constructor; assumption.
      * constructor; assumption.
  - destruct (arrayIndex k0) as [n|]; cbn [obj_own].
    + destruct (insertIndex_split n k0 v (obj_own o)) as (o1 & o2 & E1 & E2).
      rewrite E2. rewrite E1 in Ho. apply Forall_app in Ho as [H1 H2].
      apply Forall_app. split; [exact H1 | constructor; assumption].
    + apply Forall_app. split; [exact Ho | constructor; [exact Hp|constructor]].
Qed.
End OwnProperties.

Lemma lastWithId_snoc (k : jsstring) (items : list Rec) (r : Rec) :
  lastWithId k (items ++ [r]) =
    if jseqb (rec_id r) k then Some r else lastWithId k items.
Proof.
  unfold lastWithId. rewrite rev_app_distr. reflexivity.
Qed.

Lemma withId_values (k : jsstring) (o : list (jsstring * Rec)) :
  Forall (fun kv => rec_id (snd kv) = fst kv) o ->
  withId k (map snd o) = storedUnder k o.
Proof.
  unfold withId, storedUnder. induction 1 as [|[k' v] o Hx Ho IH].
  - reflexivity.
  - cbn [map filter fst snd] in *. rewrite Hx.
    destruct (jseqb k' k); cbn [map snd]; rewrite IH; reflexivity.
Qed.

(** What the object of [dedupe] holds after the records were stored. *)
Lemma dedupe_object (items : list Rec) :
  let o := fold_left (fun acc r => setProp acc (rec_id r) r) items
             emptyObject in
  Forall (fun kv => rec_id (snd kv) = fst kv) (obj_own o) /\
  forall k,
    storedUnder k (obj_own o) =
      if jseqb k PROTO then []
      else match lastWithId k items with
           | Some r => [r]
           | None => []
           end.
Proof.
  cbv zeta. induction items as [|r items IH] using rev_ind.
  - split; [constructor|]. intros k. destruct (jseqb k PROTO); reflexivity.
  - rewrite fold_left_app. cbn [fold_left]. destruct IH as [Hids Hst].
    split; [apply setProp_keys; [reflexivity | exact Hids]|].
    intros k. rewrite lastWithId_snoc.
    rewrite setProp_under.
    2:{ rewrite Hst. destruct (jseqb k PROTO); [simpl; lia|].
        destruct (lastWithId k items); simpl; lia. }
    rewrite Hst.
    destruct (jseqb (rec_id r) PROTO) eqn:Ep.
    + destruct (jseqb k PROTO) eqn:Ek; [reflexivity|].
      destruct (jseqb (rec_id r) k) eqn:Er; [|reflexivity].
      apply jseqb_eq in Ep, Er. apply jseqb_neq in Ek. congruence.
    + destruct (jseqb (rec_id r) k) eqn:Er; [|reflexivity].
      apply jseqb_eq in Er. subst k. rewrite Ep. reflexivity.
Qed.

(** Dedup by id keeps the last record of every id, except that a
    record whose id is [__proto__] is lost. *)
Lemma dedupe_keeps_last (items : list Rec) (k : jsstring) :
  withId k (dedupe items) =
    if jseqb k PROTO then []
    else match lastWithId k items with
         | Some r => [r]
         | None => []
         end.
Proof.
  destruct (dedupe_object items) as [Hids Hst].
  unfold dedupe, Object_values. rewrite withId_values by exact Hids.
  apply Hst.
Qed.

Lemma Permutation_filter_Rec (f : Rec -> bool) (l l' : list Rec) :
  Permutation l l' -> Permutation (filter f l) (filter f l').
Proof.
  induction 1 as [|x l l' H IH|x y l|l l' l'' H1 IH1 H2 IH2]; cbn [filter].
  - constructor.
  - destruct (f x); [constructor|]; exact IH.
  - destruct (f x), (f y); try apply Permutation_refl. constructor.
  - eapply Permutation_trans; eassumption.
Qed.

Section SortFacts.
Context {A : Type} (cmp : A -> A -> Z).
Hypothesis cmp_swap : forall a b, (0 < cmp a b)%Z -> (cmp b a <= 0)%Z.

Local Abbreviation le := (fun a b : A => (cmp a b <= 0)%Z).

Lemma insertBy_perm (x : A) (l : list A) :
  Permutation (insertBy cmp x l) (x :: l).
Proof.
  induction l as [|y l IH]; cbn [insertBy]; [apply Permutation_refl|].
  destruct (0 <? cmp x y)%Z; [|apply Permutation_refl].
  eapply Permutation_trans; [apply perm_skip, IH | apply perm_swap].
Qed.

Lemma sortBy_perm (l : list A) : Permutation (sortBy cmp l) l.
Proof.
  induction l as [|x l IH]; cbn [sortBy fold_right]; [constructor|].
  eapply Permutation_trans; [apply insertBy_perm | apply perm_skip, IH].
Qed.

Lemma insertBy_hd (a x : A) (l : list A) :
  le a x -> HdRel le a l -> HdRel le a (insertBy cmp x l).
Proof.
  intros Hax Hal. destruct l as [|y l]; cbn [insertBy].
  - constructor. exact Hax.
  - destruct (0 <? cmp x y)%Z; constructor.
    + exact (HdRel_inv Hal).
    + exact Hax.
Qed.

Lemma insertBy_sorted (x : A) (l : list A) :
  Sorted le l -> Sorted le (insertBy cmp x l).
Proof.
  induction 1 as [|y l Hl IH Hy]; cbn [insertBy].
  - repeat constructor.
  - destruct (0 <? cmp x y)%Z eqn:E.
    + constructor; [exact IH|]. apply insertBy_hd; [|exact Hy].
      apply Z.ltb_lt in E. exact (cmp_swap _ _ E).
    + constructor; [constructor; assumption|]. constructor.
      apply Z.ltb_ge in E. exact E.
Qed.

(** Every adjacent pair of the sorted list is in order. *)
Lemma sortBy_sorted (l : list A) : Sorted le (sortBy cmp l).
Proof.
  induction l as [|x l IH]; cbn [sortBy fold_right]; [constructor|].
  apply insertBy_sorted. exact IH.
Qed.
End SortFacts.

Lemma compareRecords_keyLe lc (a b : Rec) :
  (compareRecords lc a b <= 0)%Z <-> keyLe lc a b.
Proof.
  unfold compareRecords, keyLe.
  destruct (Z.eqb_spec (statusOrder (rec_status a))
              (statusOrder (rec_status b))) as [E|E]; cbn [negb]; lia.
Qed.

Lemma compareRecords_swap lc :
  Consistent lc ->
  forall a b, (0 < compareRecords lc a b)%Z -> (compareRecords lc b a <= 0)%Z.
Proof.
  intros Hc a b. unfold compareRecords.
  destruct (Z.eqb_spec (statusOrder (rec_status a))
              (statusOrder (rec_status b))) as [E|E];
    destruct (Z.eqb_spec (statusOrder (rec_status b))
                (statusOrder (rec_status a))) as [E'|E'];
    cbn [negb]; try lia.
  apply Hc.
Qed.

(** The Board Reducer on the ids it handles: for every id other than
    [__proto__] exactly the last record of that id survives, and every
    adjacent pair of the output is ordered by status priority, then by
    name. *)
Lemma reduceBoard_spec lc (items : list Rec) :
  Consistent lc ->
  (forall k, k <> PROTO ->
     withId k (reduceBoard lc items) =
       match lastWithId k items with
       | Some r => [r]
       | None => []
       end) /\
  Sorted (keyLe lc) (reduceBoard lc items) /\
  Permutation (reduceBoard lc items) (dedupe items).
Proof.
  intros Hc. unfold reduceBoard. split; [|split].
  - intros k Hk.
    pose proof (Permutation_filter_Rec (fun r => jseqb (rec_id r) k) _ _
                  (sortBy_perm (compareRecords lc) (dedupe items))) as Hp.
    fold (withId k (sortBy (compareRecords lc) (dedupe items))) in Hp.
    fold (withId k (dedupe items)) in Hp.
    rewrite dedupe_keeps_last in Hp. apply jseqb_neq in Hk.
    rewrite Hk in Hp. destruct (lastWithId k items) as [r|].
    + apply Permutation_sym, Permutation_length_1_inv in Hp. exact Hp.
    + apply Permutation_sym, Permutation_nil in Hp. exact Hp.
  - eapply Sorted_weaken; [|apply sortBy_sorted, compareRecords_swap, Hc].
    intros a b. apply compareRecords_keyLe.
  - apply sortBy_perm.
Qed.

(** The comparison by code units is consistent, so the lemma above
    applies to it. *)
Lemma compareUnits_consistent : Consistent compareUnits.
Proof.
  intros x. induction x as [|a x IH]; intros [|b y]; cbn [compareUnits];
    try lia.
  destruct (N.ltb_spec a b), (N.ltb_spec b a); try lia. apply IH.
Qed.

Lemma reduceBoard_spec_compareUnits (items : list Rec) :
  (forall k, k <> PROTO ->
     withId k (reduceBoard compareUnits items) =
       match lastWithId k items with
       | Some r => [r]
       | None => []
       end) /\
  Sorted (keyLe compareUnits) (reduceBoard compareUnits items).
Proof.
  destruct (reduceBoard_spec compareUnits items compareUnits_consistent)
    as (H1 & H2 & _).
  split; assumption.
Qed.

(** C3, where the program departs from it.  Dedup by id stores the
    records in an ordinary object; a record whose id is [__proto__] is
    assigned to the prototype slot instead of becoming a property, so
    it is missing from the board although it is the last (and only)
    record of its id. *)
Theorem reduceBoard_loses_proto lc :
  let a := sampleRec "7f3a" "Out" "Ann" in
  let p := sampleRec "__proto__" "In" "Bob" in
  let page := Loaded [sampleRow "InItem" "__proto__" "In"] in
  lastWithId (rec_id p) [a; p] = Some p /\
  withId (rec_id p) (reduceBoard lc [a; p]) = [] /\
  reduceBoard lc [a; p] = [a] /\
  reduceBoard lc [p] = [] /\
  map rec_id
    (fst (collect clock0 Date_parse0 toISOString0
            [sampleRow "InItem" "__proto__" "In"] 0%nat)) = [lit "__proto__"] /\
  items (fst (fetchBoard clock0 Date_parse0 toISOString0 lc page cache0
                0%nat)) = [].
Proof.
  cbv zeta. repeat split; vm_compute; reflexivity.
Qed.

(** *** Snapshot Cache *)

Section Refresh.
Variable clock : nat -> jsstring.
Variable Date_parse : jsstring -> option Z.
Variable toISOString : Z -> jsstring.
Variable localeCompare : jsstring -> jsstring -> Z.

Local Abbreviation fetch :=
  (fetchBoard clock Date_parse toISOString localeCompare).
Local Abbreviation refresh :=
  (refreshAll clock Date_parse toISOString localeCompare).
Local Abbreviation gather := (collect clock Date_parse toISOString).

Lemma fetchBoard_thrown (e : option jsstring) (cache : Cache) (n : nat) :
  exists msg,
    msg <> [] /\
    fetch (Thrown e) cache n =
      (mkCache (lastFetched cache) (items cache)
         (Some (mkErrorInfo msg (clock n))), S n).
Proof.
  unfold fetchBoard, bind, now, ret.
  destruct (orEmpty e) as [|c m].
  - exists (lit "Unknown error"). split; [discriminate | reflexivity].
  - exists (c :: m). split; [discriminate | reflexivity].
Qed.

Lemma fetchBoard_loaded (rows : list Row) (cache : Cache) (n : nat) :
  fetch (Loaded rows) cache n =
    (mkCache (Some (clock (snd (gather rows n))))
       (reduceBoard localeCompare (fst (gather rows n))) None,
     S (snd (gather rows n))).
Proof.
  unfold fetchBoard, bind, now, ret.
  destruct (collect clock Date_parse toISOString rows n) as [its k].
  reflexivity.
Qed.

Lemma refreshAll_cons (p : Fetched) (ps : list Fetched) (cache : Cache)
    (n : nat) :
  refresh (p :: ps) cache n =
    refresh ps (fst (fetch p cache n)) (snd (fetch p cache n)).
Proof.
  cbn [refreshAll]. unfold bind.
  destruct (fetchBoard _ _ _ _ p cache n) as [c' n']. reflexivity.
Qed.

Lemma refreshAll_app (ps qs : list Fetched) (cache : Cache) (n : nat) :
  refresh (ps ++ qs) cache n =
    refresh qs (fst (refresh ps cache n)) (snd (refresh ps cache n)).
Proof.
  revert cache n; induction ps as [|p ps IH]; intros cache n.
  - reflexivity.
  - rewrite <- app_comm_cons, !refreshAll_cons. apply IH.
Qed.

Lemma refreshAll_failures (es : list (option jsstring)) (cache : Cache)
    (n : nat) :
  items (fst (refresh (map Thrown es) cache n)) = items cache /\
  lastFetched (fst (refresh (map Thrown es) cache n)) = lastFetched cache.
Proof.
  revert cache n; induction es as [|e es IH]; intros cache n.
  - split; reflexivity.
  - cbn [map]. rewrite refreshAll_cons.
    destruct (fetchBoard_thrown e cache n) as (msg & _ & E).
    rewrite E. cbn [fst snd].
    destruct (IH (mkCache (lastFetched cache) (items cache)
                    (Some (mkErrorInfo msg (clock n)))) (S n)) as [H1 H2].
    split; [rewrite H1 | rewrite H2]; reflexivity.
Qed.

(** C1. In every refresh cycle: when the fetch or the parse fails,
    [items] and [lastFetched] keep the values they had, which are
    those of the last successful refresh, and [error] becomes a
    non-null record [{message, time}] whose time is a new reading of
    the clock; when the refresh succeeds, the whole snapshot is
    replaced (nothing of the old one is kept) and [error] is null.
    Over a run, after a successful cycle followed by any number of
    failed ones, [items] and [lastFetched] are still those that
    successful cycle stored. *)
Theorem refresh_cycle (cache : Cache) (n : nat) :
  (forall e,
      let r := fetch (Thrown e) cache n in
      items (fst r) = items cache /\
      lastFetched (fst r) = lastFetched cache /\
      (exists msg,
          msg <> [] /\
          error (fst r) = Some (mkErrorInfo msg (clock n))) /\
      snd r = S n) /\
  (forall rows,
      let r := fetch (Loaded rows) cache n in
      items (fst r) = reduceBoard localeCompare (fst (gather rows n)) /\
      lastFetched (fst r) = Some (clock (snd (gather rows n))) /\
      error (fst r) = None /\
      r = fetch (Loaded rows) cache0 n) /\
  (forall before rows es,
      let good := refresh (before ++ [Loaded rows]) cache n in
      let last := refresh (before ++ [Loaded rows] ++ map Thrown es)
                    cache n in
      items (fst last) = items (fst good) /\
      lastFetched (fst last) = lastFetched (fst good)).
Proof.
  split; [|split].
  - intros e r. subst r.
    destruct (fetchBoard_thrown e cache n) as (msg & Hmsg & E).
    rewrite E. simpl. repeat split; try reflexivity.
    exists msg. split; [exact Hmsg | reflexivity].
  - intros rows r. subst r.
    rewrite !fetchBoard_loaded. simpl. repeat split; reflexivity.
  - intros before rows es good last. subst good last.
    rewrite app_assoc, refreshAll_app.
    apply refreshAll_failures.
Qed.
End Refresh.

(* ================================================================= *)
(** ** Further properties of the pipeline *)

(** *** Cell Decoder and cell text *)

Lemma trim_length (u : jsstring) : (length (trim u) <= length u)%nat.
Proof.
  destruct (trim_middle u) as (a & b & E).
  rewrite E at 2. rewrite !length_app. lia.
Qed.

(** X1. [decode] never lengthens a text: every pass replaces a match by
    a text that is not longer than the match, and [trim] only drops
    code units. *)
Theorem decode_length (s : jsstring) :
  (length (decode s) <= length s)%nat.
Proof.
  assert (H1 : (length (replaceAll m_nbsp (lit " ") s) <= length s)%nat).
  { apply replaceAll_length_le. intros c r n E. unfold m_nbsp in E.
    destruct (c =? NBSP).
    - injection E as <-. simpl. lia.
    - destruct (prefixb (lit "&nbsp;") (c :: r)) eqn:Ep; [|discriminate].
      injection E as <-. apply prefixb_length in Ep. simpl in *. lia. }
  set (s1 := replaceAll m_nbsp (lit " ") s) in *.
  destruct (entity_pass (lit "&amp;") (lit "&") s1 eq_refl
              ltac:(simpl; lia)) as (_ & _ & L2).
  set (s2 := replaceAll (m_lit (lit "&amp;")) (lit "&") s1) in *.
  destruct (entity_pass (lit "&lt;") (lit "<") s2 eq_refl
              ltac:(simpl; lia)) as (_ & _ & L3).
  set (s3 := replaceAll (m_lit (lit "&lt;")) (lit "<") s2) in *.
  destruct (entity_pass (lit "&gt;") (lit ">") s3 eq_refl
              ltac:(simpl; lia)) as (_ & _ & L4).
  pose proof (decode_spaces_length (decode_entities s)) as L5.
  unfold decode. unfold decode_entities in L5 |- *.
  fold s1 in L5 |- *. fold s2 in L5 |- *. fold s3 in L5 |- *. lia.
Qed.

Lemma dropWhile_nil_iff (f : cu -> bool) (r : jsstring) :
  dropWhile f r = [] <-> forallb f r = true.
Proof.
  induction r as [|x r IH]; cbn [dropWhile forallb]; [tauto|].
  destruct (f x); cbn [andb]; [exact IH|].
  split; discriminate.
Qed.

Lemma m_tag_some (c : cu) (r : jsstring) (n : nat) :
  m_tag (c :: r) = Some n ->
  c = 60 /\ In 62 r /\ (2 <= n)%nat /\ (n <= S (length r))%nat.
Proof.
  unfold m_tag. destruct (N.eqb_spec c 60) as [->|Hc]; [|discriminate].
  rewrite skipn_takeWhile.
  pose proof (takeWhile_length (fun x => negb (x =? 62)) r) as L.
  pose proof (takeWhile_dropWhile (fun x => negb (x =? 62)) r) as E.
  pose proof (dropWhile_head (fun x => negb (x =? 62)) r) as Hh.
  destruct (dropWhile (fun x => negb (x =? 62)) r) as [|y l] eqn:Ed;
    [discriminate|].
  intros H. injection H as <-.
  apply negb_false_iff, N.eqb_eq in Hh. subst y.
  split; [reflexivity|]. split.
  - rewrite <- E. apply in_or_app. right. left. reflexivity.
  - apply (f_equal (@length N)) in E. rewrite length_app in E.
    simpl in E. lia.
Qed.

Lemma m_tag_none (c : cu) (r : jsstring) :
  c <> 60 \/ ~ In 62 r -> m_tag (c :: r) = None.
Proof.
  intros H. destruct (m_tag (c :: r)) as [n|] eqn:E; [|reflexivity].
  apply m_tag_some in E as (E1 & E2 & _). tauto.
Qed.

(** X2. Stripping the tags of a cell's markup, that is replacing every
    match of [/<[^>]*>/g] by the empty text, is complete: in what is
    left no [<] is followed by a [>], so the regex matches nowhere in
    it and a second stripping changes nothing; and the stripped text
    is never longer than the markup. *)
Theorem strip_tags_complete (html : jsstring) :
  let out := replaceAll m_tag [] html in
  StronglySorted noTagLeft out /\
  (forall pre t, out = pre ++ t -> m_tag t = None) /\
  replaceAll m_tag [] out = out /\
  (length out <= length html)%nat.
Proof.
  cbv zeta.
  assert (S : StronglySorted noTagLeft (replaceAll m_tag [] html)).
  { induction html as [html IH] using length_ind.
    destruct html as [|c r]; [constructor|].
    rewrite replaceAll_cons.
    destruct (m_tag (c :: r)) as [[|n]|] eqn:E.
    - apply m_tag_some in E. lia.
    - apply IH. apply skipn_length_lt.
    - constructor; [apply IH; simpl; lia|].
      destruct (N.eq_dec c 60) as [->|Hc].
      + apply replaceAll_Forall; [constructor|].
        apply Forall_forall. intros x Hx [_ ->].
        destruct (in_dec N.eq_dec 62 r) as [Hin|Hin]; [|exact (Hin Hx)].
        destruct r as [|y r']; [exact Hx|].
        assert (Hs : exists k, m_tag (60 :: y :: r') = Some k).
        { unfold m_tag. change (60 =? 60) with true. cbv iota.
          rewrite skipn_takeWhile.
          destruct (dropWhile (fun x => negb (x =? 62)) (y :: r')) eqn:Ed.
          - apply dropWhile_nil_iff in Ed.
            rewrite forallb_forall in Ed. specialize (Ed _ Hin).
            discriminate Ed.
          - eexists. reflexivity. }
        destruct Hs as [k Hk]. rewrite Hk in E. discriminate.
      + apply Forall_forall. intros x _ [H _]. exact (Hc H). }
  assert (Hno : forall pre t,
    replaceAll m_tag [] html = pre ++ t -> m_tag t = None).
  { intros pre t E. rewrite E in S. clear E.
    induction pre as [|p pre IHp]; cbn [app] in S.
    - destruct t as [|c r]; [reflexivity|]. apply m_tag_none.
      apply StronglySorted_inv in S as [_ Hf].
      destruct (N.eq_dec c 60) as [->|Hc]; [right|left; exact Hc].
      intros Hin. rewrite Forall_forall in Hf. apply (Hf _ Hin). auto.
    - apply StronglySorted_inv in S as [S _]. exact (IHp S). }
  split; [exact S|]. split; [exact Hno|]. split.
  - apply replaceAll_fixed. intros pre c r n E Hm.
    rewrite (Hno _ _ E) in Hm. discriminate.
  - apply replaceAll_length_le. intros c r n E.
    apply m_tag_some in E. simpl. lia.
Qed.

Lemma jseqb_nil (t : jsstring) : jseqb t [] = true <-> t = [].
Proof. apply jseqb_eq. Qed.

(** X3. The text [extractCellText] takes from a cell: it is the decoded
    visible text unless that is empty, an em dash or the unpopulated
    template; it is then the decoded markup without its tags when this
    is not empty.  In every case the result has the decoded form, and
    it is empty only when both the visible text and the stripped markup
    decode to the empty text. *)
Theorem extractCellText_spec (td : Cell) :
  let text := decode (cell_text td) in
  let stripped := decode (replaceAll m_tag [] (orEmpty (cell_html td))) in
  Decoded (extractCellText td) /\
  (text <> [] -> text <> [EM_DASH] -> ~ FormatToken text ->
   extractCellText td = text) /\
  (text = [] \/ text = [EM_DASH] \/ FormatToken text ->
   extractCellText td = match stripped with [] => text | _ => stripped end) /\
  (extractCellText td = [] <-> text = [] /\ stripped = []).
Proof.
  cbv zeta. unfold extractCellText.
  set (text := decode (cell_text td)).
  set (stripped := decode (replaceAll m_tag [] (orEmpty (cell_html td)))).
  assert (Dt : Decoded text) by apply decode_Decoded.
  assert (Ds : Decoded stripped) by apply decode_Decoded.
  assert (Hc : isFormatToken text || jseqb text [] || jseqb text [EM_DASH]
               = true <->
               text = [] \/ text = [EM_DASH] \/ FormatToken text).
  { rewrite !orb_true_iff, !jseqb_eq. split.
    - intros [[H|H]|H]; auto using isFormatToken_shape.
    - intros [H|[H|H]]; auto using isFormatToken_complete. }
  destruct (isFormatToken text || jseqb text [] || jseqb text [EM_DASH]).
  - assert (Hp : text = [] \/ text = [EM_DASH] \/ FormatToken text)
      by (apply Hc; reflexivity).
    split; [|split; [|split]].
    + destruct stripped; [exact Dt|exact Ds].
    + tauto.
    + reflexivity.
    + destruct stripped as [|x l].
      * split; [intros E; split; [exact E|reflexivity] | tauto].
      * split; [discriminate | intros [_ E]; discriminate E].
  - assert (Hp : ~ (text = [] \/ text = [EM_DASH] \/ FormatToken text)).
    { intros H. apply Hc in H. discriminate H. }
    split; [|split; [|split]].
    + exact Dt.
    + reflexivity.
    + tauto.
    + split; [intros E; tauto | tauto].
Qed.

(** Texts that are decoded already. *)

Lemma isDigit_range (c : cu) : isDigit c = true -> 48 <= c /\ c <= 57.
Proof. apply between_spec. Qed.

Lemma isDigit_not_space (c : cu) : isDigit c = true -> isSpace c = false.
Proof.
  intros H. apply isDigit_range in H.
  assert (E : c = 48 \/ c = 49 \/ c = 50 \/ c = 51 \/ c = 52 \/ c = 53 \/
              c = 54 \/ c = 55 \/ c = 56 \/ c = 57) by lia.
  repeat (destruct E as [->|E]; [reflexivity|]). subst c. reflexivity.
Qed.

Lemma Sorted_of_Forall_r (R : cu -> cu -> Prop) (l : jsstring) :
  Forall (fun b => forall a, R a b) l -> Sorted R l.
Proof.
  induction 1 as [|b l Hb Hl IH]; constructor; [exact IH|].
  destruct Hl; constructor. auto.
Qed.

Lemma Sorted_of_Forall_l (R : cu -> cu -> Prop) (l : jsstring) :
  Forall (fun a => forall b, R a b) l -> Sorted R l.
Proof.
  induction 1 as [|a l Ha Hl IH]; constructor; [exact IH|].
  destruct l; constructor. auto.
Qed.

Lemma trim_fixed (p : jsstring) :
  noSpaceAhead p -> noSpaceAhead (rev p) -> trim p = p.
Proof.
  intros H1 H2. unfold trim, trimStart, trimEnd.
  rewrite (dropWhile_stop isSpace p) by exact H1.
  rewrite (dropWhile_stop isSpace (rev p)) by exact H2.
  apply rev_involutive.
Qed.

(** A text whose only whitespace is single spaces inside it has the
    decoded form. *)
Lemma plain_Decoded (p : jsstring) :
  Forall (fun x => isSpace x = false \/ x = SP) p ->
  Sorted notTwoSpaces p ->
  noSpaceAhead p -> noSpaceAhead (rev p) ->
  Decoded p.
Proof.
  intros Hp Hs H1 H2.
  assert (Hx : forall c, isSpace c = true -> c <> SP ->
                         Forall (fun x => x <> c) p).
  { intros c Hc Hne. eapply Forall_impl; [|exact Hp].
    intros x [H|H] E; [congruence|]. apply Hne. congruence. }
  pose proof (Hx NBSP eq_refl ltac:(discriminate)) as Hn.
  pose proof (Hx TAB eq_refl ltac:(discriminate)) as Ht.
  pose proof (Hx LF eq_refl ltac:(discriminate)) as Hl.
  repeat split; auto.
  - apply Sorted_of_Forall_r. eapply Forall_impl; [|exact Hl].
    intros b Hb a [_ E]. exact (Hb E).
  - apply Sorted_of_Forall_l. eapply Forall_impl; [|exact Hl].
    intros a Ha b [E _]. exact (Ha E).
  - apply trim_fixed; assumption.
Qed.

(** *** Status Classifier *)

Lemma lowerCU_upperCU (a b : cu) :
  upperCU a = upperCU b -> lowerCU a = lowerCU b.
Proof.
  unfold upperCU, lowerCU, between. intros H.
  destruct (N.leb_spec 97 a), (N.leb_spec a 122); cbn [andb] in H;
  destruct (N.leb_spec 97 b), (N.leb_spec b 122); cbn [andb] in H;
  destruct (N.leb_spec 65 a), (N.leb_spec a 90); cbn [andb];
  destruct (N.leb_spec 65 b), (N.leb_spec b 90); cbn [andb];
  try lia; try (f_equal; lia);
  destruct (N.eqb_spec a 304), (N.eqb_spec b 304); try lia;
  try reflexivity;
  destruct (N.eqb_spec a 8490), (N.eqb_spec b 8490); try lia;
  try reflexivity; try (f_equal; lia).
Qed.

Lemma toLowerCase_upperCU (s s' : jsstring) :
  map upperCU s = map upperCU s' -> toLowerCase s = toLowerCase s'.
Proof.
  revert s'. induction s as [|a s IH]; intros [|b s'] H;
    try discriminate H; [reflexivity|].
  cbn [map] in H. injection H as Hab Hs.
  unfold toLowerCase. cbn [flat_map].
  rewrite (lowerCU_upperCU _ _ Hab). f_equal. exact (IH _ Hs).
Qed.

(** X4. The Status Classifier does not tell the ASCII letter cases
    apart: two class attributes, and two cell texts, that differ only
    in the case of their ASCII letters get the same status. *)
Theorem normalizeStatus_ignores_case (c c' t t' : jsstring) :
  map upperCU c = map upperCU c' ->
  map upperCU t = map upperCU t' ->
  normalizeStatus c t = normalizeStatus c' t'.
Proof.
  intros Hc Ht. unfold normalizeStatus.
  rewrite (toLowerCase_upperCU _ _ Hc), (toLowerCase_upperCU _ _ Ht).
  reflexivity.
Qed.

Lemma normalizeStatus_ignores_case_witness :
  map upperCU (lit "sel OutItem") = map upperCU (lit "SEL OUTITEM") /\
  map upperCU (lit "Out") = map upperCU (lit "OUT") /\
  normalizeStatus (lit "sel OutItem") (lit "Out") =
    normalizeStatus (lit "SEL OUTITEM") (lit "OUT").
Proof.
  assert (Hc : map upperCU (lit "sel OutItem") = map upperCU (lit "SEL OUTITEM"))
    by (vm_compute; reflexivity).
  assert (Ht : map upperCU (lit "Out") = map upperCU (lit "OUT"))
    by (vm_compute; reflexivity).
  split; [exact Hc|]. split; [exact Ht|].
  exact (normalizeStatus_ignores_case _ _ _ _ Hc Ht).
Defined.

(** X5. The status of an assembled record is one of the four values
    the sort ranks, so its rank lies between 0 and 3 and the default
    [?? 99] of the comparator is never taken for it; and no record has
    two of its three flags set. *)
Theorem assembled_status_ranked clock dp iso tr n r n' :
  rowToRecord clock dp iso tr n = (Some r, n') ->
  In (rec_status r) [lit "In"; lit "Out"; lit "Unavailable"; lit "Unknown"] /\
  (0 <= statusOrder (rec_status r) <= 3)%Z /\
  let f := meta_flags (rec_meta r) in
  isIn f && isOut f = false /\
  isIn f && isUnavailable f = false /\
  isOut f && isUnavailable f = false.
Proof.
  intros H. destruct (rowToRecord_status _ _ _ _ _ _ _ H) as [[c [t Hs]] Hf].
  pose proof (normalizeStatus_closed c t) as Hin. rewrite <- Hs in Hin.
  split; [exact Hin|]. cbv zeta. rewrite Hf. cbn [isIn isOut isUnavailable].
  destruct Hin as [E|[E|[E|[E|[]]]]]; rewrite <- E;
    (split; [vm_compute; split; discriminate|]);
    repeat split; vm_compute; reflexivity.
Qed.

Lemma assembled_status_ranked_witness :
  exists r,
    rowToRecord clock0 Date_parse0 toISOString0
      (sampleRow "Unavailable" "7f3a" "") 0%nat = (Some r, 1%nat) /\
    statusOrder (rec_status r) = 2%Z /\
    (0 <= statusOrder (rec_status r) <= 3)%Z.
Proof.
  eexists. split; [lazy; reflexivity|]. split; [vm_compute; reflexivity|].
  refine (proj1 (proj2 (assembled_status_ranked clock0 Date_parse0
    toISOString0 (sampleRow "Unavailable" "7f3a" "") 0%nat _ 1%nat _))).
  lazy. reflexivity.
Defined.

(** *** Name/Title Splitter *)

Lemma orNull_trim (s x : jsstring) :
  orNull (trim s) = Some x -> x <> [] /\ trim x = x.
Proof.
  destruct (trim s) as [|c l] eqn:E; [discriminate|].
  cbn [orNull]. intros H. injection H as <-.
  split; [discriminate|]. rewrite <- E. apply trim_idempotent.
Qed.

(** X6. What the Name/Title Splitter returns is clean: a name or title
    that is present is not empty and has no whitespace at either end,
    a title is present only when the decoded text holds a separator,
    and the Row Assembler's [name || null] and [title || null] change
    nothing. *)
Theorem splitNameAndTitle_clean (raw : jsstring) :
  let r := splitNameAndTitle raw in
  (forall x, nt_name r = Some x -> x <> [] /\ trim x = x) /\
  (forall x, nt_title r = Some x ->
     x <> [] /\ trim x = x /\ hasSeparator (decode raw)) /\
  orNull (orEmpty (nt_name r)) = nt_name r /\
  orNull (orEmpty (nt_title r)) = nt_title r.
Proof.
  cbv zeta.
  assert (Hor : forall o : option jsstring,
    (forall x, o = Some x -> x <> []) -> orNull (orEmpty o) = o).
  { intros [[|c l]|] H; try reflexivity. exfalso. exact (H [] eq_refl eq_refl). }
  assert (Main :
    (forall x, nt_name (splitNameAndTitle raw) = Some x ->
               x <> [] /\ trim x = x) /\
    (forall x, nt_title (splitNameAndTitle raw) = Some x ->
               x <> [] /\ trim x = x /\ hasSeparator (decode raw))).
  { unfold splitNameAndTitle.
    pose proof (decode_Decoded raw) as Hd.
    destruct (decode raw) as [|t0 t'] eqn:Et.
    { split; intros x H; discriminate H. }
    destruct (split_sep_first (t0 :: t')) as [[_ E]|H].
    - rewrite E. cbn [nt_name nt_title]. split; intros x H; [|discriminate H].
      injection H as <-. split; [discriminate|]. apply Hd.
    - destruct H as (first & ws1 & d & ws2 & tail & Ht & _ & _ & Hdash &
                     Hne & H2 & _ & E).
      rewrite E. destruct (split m_sep tail) as [|p ps] eqn:Ep.
      { exfalso. exact (split_nonempty _ _ Ep). }
      cbn [nt_name nt_title]. split; intros x H.
      + exact (orNull_trim _ _ H).
      + destruct (orNull_trim _ _ H) as [H1 H3].
        split; [exact H1|]. split; [exact H3|]. rewrite Ht.
        destruct ws2 as [|w ws2]; [congruence|].
        exists (first ++ ws1), d, w, (ws2 ++ tail).
        split; [rewrite <- app_assoc; reflexivity|]. split; [exact Hdash|].
        cbn [forallb] in H2. apply andb_true_iff in H2 as [Hw _]. exact Hw. }
  destruct Main as [Hn Ht].
  split; [exact Hn|]. split; [exact Ht|]. split; apply Hor.
  - intros x H. apply (Hn x H).
  - intros x H. apply (Ht x H).
Qed.

(** A name and a title, joined and split again. *)

Lemma dropWhile_app_all (f : cu -> bool) (a b : jsstring) :
  forallb f a = true -> dropWhile f (a ++ b) = dropWhile f b.
Proof.
  induction a as [|c a IH]; [reflexivity|]. cbn [forallb app dropWhile].
  intros H. apply andb_true_iff in H as [Hc Ha]. rewrite Hc. exact (IH Ha).
Qed.

Lemma forallb_rev_N (f : cu -> bool) (a : jsstring) :
  forallb f a = true -> forallb f (rev a) = true.
Proof.
  rewrite !forallb_forall. intros H x Hx. apply H, in_rev, Hx.
Qed.

(** Whitespace put after a text is trimmed away. *)
Lemma trim_app_spaces (x ws : jsstring) :
  forallb isSpace ws = true -> trim (x ++ ws) = trim x.
Proof.
  intros Hws. unfold trim, trimStart.
  induction x as [|c x IH].
  - cbn [app dropWhile]. rewrite <- (app_nil_r ws), dropWhile_app_all
      by exact Hws. reflexivity.
  - cbn [app dropWhile]. destruct (isSpace c) eqn:Ec; [exact IH|].
    unfold trimEnd. change (c :: x ++ ws) with ((c :: x) ++ ws).
    rewrite rev_app_distr, dropWhile_app_all
      by (apply forallb_rev_N; exact Hws).
    reflexivity.
Qed.

Lemma trim_fixed_inv (y : jsstring) :
  trim y = y -> noSpaceAhead y /\ noSpaceAhead (rev y).
Proof.
  intros H.
  assert (L1 : (length (trim y) <= length (trimStart y))%nat).
  { unfold trim, trimEnd. rewrite length_rev.
    etransitivity; [apply dropWhile_length|]. rewrite length_rev. lia. }
  assert (L2 : (length (trimStart y) <= length y)%nat)
    by apply dropWhile_length.
  assert (E1 : trimStart y = y).
  { unfold trimStart in *.
    pose proof (takeWhile_dropWhile isSpace y) as E.
    apply (f_equal (@length N)) in E. rewrite length_app in E.
    rewrite H in L1.
    destruct (takeWhile isSpace y) eqn:Et; [|simpl in E; lia].
    pose proof (takeWhile_dropWhile isSpace y) as E'. rewrite Et in E'.
    exact E'. }
  split.
  - rewrite <- E1. apply dropWhile_head.
  - unfold trim in H. rewrite E1 in H. unfold trimEnd in H.
    apply (f_equal (@rev N)) in H. rewrite rev_involutive in H.
    rewrite <- H. apply dropWhile_head.
Qed.

Lemma Sorted_glue (R : cu -> cu -> Prop) (a b : jsstring) :
  Sorted R a -> Sorted R b ->
  (forall x y, hd_error (rev a) = Some x -> hd_error b = Some y -> R x y) ->
  Sorted R (a ++ b).
Proof.
  induction a as [|c a IH]; intros Ha Hb Hg; [exact Hb|].
  apply Sorted_inv in Ha as [Ha Hc]. cbn [app]. constructor.
  - apply IH; [exact Ha|exact Hb|]. intros x y Hx Hy. apply Hg; [|exact Hy].
    rewrite hd_error_rev_cons, Hx. reflexivity.
  - destruct a as [|a0 a']; cbn [app].
    + destruct b as [|b0 b']; constructor. apply Hg; reflexivity.
    + constructor. apply HdRel_inv in Hc. exact Hc.
Qed.

Lemma no_separator_split (t : jsstring) :
  ~ hasSeparator t <-> split m_sep t = [t].
Proof.
  destruct (split_sep_first t)
    as [[Hno E]|(first & ws1 & d & ws2 & tail & Ht & _ & _ & Hd & Hne & H2
                 & _ & E)].
  - tauto.
  - split.
    + intros Hno. exfalso. apply Hno. rewrite Ht.
      destruct ws2 as [|w ws2]; [congruence|].
      exists (first ++ ws1), d, w, (ws2 ++ tail).
      split; [rewrite <- app_assoc; reflexivity|]. split; [exact Hd|].
      cbn [forallb] in H2. apply andb_true_iff in H2 as [Hw _]. exact Hw.
    + intros E'. rewrite E' in E. injection E as _ E. symmetry in E.
      exfalso. exact (split_nonempty _ _ E).
Qed.

(** Where the first separator of a text starts. *)
Lemma first_separator_unique (p : jsstring) :
  forall p' d w r d' w' r',
    p ++ d :: w :: r = p' ++ d' :: w' :: r' ->
    ~ hasSeparator p -> ~ hasSeparator p' ->
    isDash d = true -> isSpace w = true ->
    isDash d' = true -> isSpace w' = true ->
    p = p'.
Proof.
  assert (Hstart : forall q d w r d' w' r' x,
    d :: w :: r = (x :: q) ++ d' :: w' :: r' ->
    ~ hasSeparator (x :: q) ->
    isDash d = true -> isSpace w = true -> isDash d' = true -> False).
  { intros q d w r d' w' r' x E Hno Hd Hw Hd'. cbn [app] in E.
    injection E as <- E. destruct q as [|y q]; cbn [app] in E.
    - injection E as <- _. rewrite (isDash_not_space _ Hd') in Hw.
      discriminate.
    - injection E as <- _. apply Hno. exists [], d, w, q. auto. }
  induction p as [|x p IH]; intros [|x' p'] d w r d' w' r' E Hno Hno' Hd Hw
    Hd' Hw'.
  - reflexivity.
  - exfalso. exact (Hstart _ _ _ _ _ _ _ _ E Hno' Hd Hw Hd').
  - exfalso. symmetry in E. exact (Hstart _ _ _ _ _ _ _ _ E Hno Hd' Hw' Hd).
  - cbn [app] in E. injection E as <- E. f_equal.
    apply (IH _ _ _ _ _ _ _ E); auto.
    + intros H. apply Hno. apply hasSeparator_cons. auto.
    + intros H. apply Hno'. apply hasSeparator_cons. auto.
Qed.

(** X7. A name and a title that are joined by a hyphen, an en dash or
    an em dash between two spaces are split back into themselves,
    provided both are decoded and not empty, hold no ampersand, and
    hold no separator of their own (the name not ending in a dash). *)
Theorem splitNameAndTitle_joined (name title : jsstring) (d : cu) :
  decode name = name -> decode title = title ->
  name <> [] -> title <> [] ->
  ~ In AMP name -> ~ In AMP title ->
  isDash d = true ->
  ~ hasSeparator (name ++ [SP]) -> ~ hasSeparator title ->
  splitNameAndTitle (name ++ SP :: d :: SP :: title) =
    mkNameTitle (Some name) (Some title).
Proof.
  intros En Et Hn Ht An At Hd Nsep Tsep.
  pose proof (proj1 (no_separator_split _) Tsep) as St.
  assert (Dn : Decoded name) by (rewrite <- En; apply decode_Decoded).
  assert (Dt : Decoded title) by (rewrite <- Et; apply decode_Decoded).
  destruct Dn as (N1 & N2 & N3 & N4 & N5 & N6).
  destruct Dt as (T1 & T2 & T3 & T4 & T5 & T6).
  destruct (trim_fixed_inv _ N6) as [Nh Nl].
  destruct (trim_fixed_inv _ T6) as [Th Tl].
  pose proof (isDash_not_space _ Hd) as Hds.
  assert (Hd1 : d <> NBSP /\ d <> TAB /\ d <> SP /\ d <> LF /\ d <> AMP).
  { unfold isDash in Hd. rewrite !orb_true_iff, !N.eqb_eq in Hd.
    destruct Hd as [[->| ->]| ->]; repeat split; discriminate. }
  destruct Hd1 as (D1 & D2 & D3 & D4 & D5).
  set (joined := name ++ SP :: d :: SP :: title).
  assert (Tfirst : forall y, hd_error title = Some y -> isSpace y = false).
  { intros y Hy. destruct title as [|t0 t']; [discriminate|].
    injection Hy as <-. exact Th. }
  assert (Nlast : forall x, hd_error (rev name) = Some x -> isSpace x = false).
  { intros x Hx. destruct (rev name) as [|n0 n']; [discriminate|].
    injection Hx as <-. exact Nl. }
  assert (Hglue : forall R : cu -> cu -> Prop,
    Sorted R name -> Sorted R title ->
    (forall x, isSpace x = false -> R x SP) -> R SP d -> R d SP ->
    (forall y, isSpace y = false -> R SP y) ->
    Sorted R joined).
  { intros R Sa Sb H1 H2 H3 H4. apply Sorted_glue; [exact Sa| |].
    - repeat constructor; auto.
      destruct title as [|t0 t']; constructor. apply H4. exact Th.
    - intros x y Hx Hy. injection Hy as <-. apply H1, Nlast, Hx. }
  assert (Dj : Decoded joined).
  { unfold Decoded. repeat split.
    - apply Forall_app. split; [exact N1|].
      repeat constructor; try discriminate; auto.
    - apply Forall_app. split; [exact N2|].
      repeat constructor; try discriminate; auto.
    - apply Hglue; auto.
      + intros x Hx [-> _]. discriminate Hx.
      + intros [_ H]. exact (D3 H).
      + intros [H _]. exact (D3 H).
      + intros y Hy [_ ->]. discriminate Hy.
    - apply Hglue; auto.
      + intros x Hx [_ H]. discriminate H.
      + intros [_ H]. exact (D4 H).
      + intros [_ H]. discriminate H.
      + intros y Hy [_ ->]. discriminate Hy.
    - apply Hglue; auto.
      + intros x Hx [-> _]. discriminate Hx.
      + intros [H _]. discriminate H.
      + intros [H _]. exact (D4 H).
      + intros y Hy [H _]. discriminate H.
    - apply trim_fixed.
      + unfold joined. destruct name as [|n0 n']; [congruence|]. exact Nh.
      + unfold joined. rewrite rev_app_distr. cbn [rev]. rewrite <- !app_assoc.
        destruct (rev title) as [|t0 t'] eqn:Er.
        * apply (f_equal (@rev N)) in Er. rewrite rev_involutive in Er.
          contradiction.
        * exact Tl. }
  assert (Ej : hasEntity joined = false).
  { apply no_amp_no_entity. unfold joined. apply Forall_app. split.
    - apply Forall_forall. intros c Hc ->. exact (An Hc).
    - repeat constructor; try discriminate; auto.
      apply Forall_forall. intros c Hc ->. exact (At Hc). }
  assert (Hs : splitNameAndTitle joined =
    match split m_sep joined with
    | first :: ((_ :: _) as rest) =>
        mkNameTitle (orNull (trim first))
                    (orNull (trim (join (lit " - ") rest)))
    | _ => mkNameTitle (Some joined) None
    end).
  { unfold splitNameAndTitle. rewrite (Decoded_fixed _ Dj Ej).
    unfold joined. destruct name; [congruence|]. reflexivity. }
  rewrite Hs. clear Hs.
  destruct (split_sep_first joined)
    as [[Hno _]|(first & ws1 & d' & ws2 & tail & Hj & Hno & H1 & Hd' & Hne
                 & H2 & Hta & E)].
  { exfalso. apply Hno. exists (name ++ [SP]), d, SP, title.
    split; [unfold joined; rewrite <- app_assoc; reflexivity|]. auto. }
  destruct ws2 as [|w ws2]; [congruence|].
  cbn [forallb] in H2. apply andb_true_iff in H2 as [Hw H2].
  assert (Ep : name ++ [SP] = first ++ ws1).
  { apply (first_separator_unique _ _ d SP title d' w (ws2 ++ tail)); auto.
    rewrite <- !app_assoc. exact Hj. }
  assert (Er : d :: SP :: title = d' :: w :: ws2 ++ tail).
  { apply (app_inv_head (name ++ [SP])). rewrite Ep at 2.
    rewrite <- !app_assoc. exact Hj. }
  injection Er as <- <- Er.
  assert (Ews : ws2 = []).
  { destruct ws2 as [|x ws2]; [reflexivity|]. exfalso.
    cbn [forallb] in H2. apply andb_true_iff in H2 as [Hx _].
    rewrite Er in Th. cbn [app noSpaceAhead] in Th. congruence. }
  subst ws2. cbn [app] in Er. subst tail.
  rewrite E, St. cbn [join].
  assert (Efirst : trim first = name).
  { rewrite <- (trim_app_spaces first ws1 H1), <- Ep.
    rewrite trim_app_spaces by reflexivity. exact N6. }
  rewrite Efirst, T6.
  destruct name as [|n0 n']; [congruence|].
  destruct title as [|t0 t']; [congruence|]. reflexivity.
Qed.

Lemma splitNameAndTitle_joined_witness :
  let name := lit "Mary-Jane Roe" in
  let title := lit "Co-pilot" in
  decode name = name /\ decode title = title /\
  name <> [] /\ title <> [] /\ ~ In AMP name /\ ~ In AMP title /\
  isDash 8211 = true /\
  ~ hasSeparator (name ++ [SP]) /\ ~ hasSeparator title /\
  splitNameAndTitle (name ++ SP :: 8211 :: SP :: title) =
    mkNameTitle (Some name) (Some title).
Proof.
  cbv zeta.
  assert (H1 : decode (lit "Mary-Jane Roe") = lit "Mary-Jane Roe")
    by (vm_compute; reflexivity).
  assert (H2 : decode (lit "Co-pilot") = lit "Co-pilot")
    by (vm_compute; reflexivity).
  assert (H3 : lit "Mary-Jane Roe" <> []) by (vm_compute; discriminate).
  assert (H4 : lit "Co-pilot" <> []) by (vm_compute; discriminate).
  assert (H5 : ~ In AMP (lit "Mary-Jane Roe")).
  { vm_compute. intuition discriminate. }
  assert (H6 : ~ In AMP (lit "Co-pilot")).
  { vm_compute. intuition discriminate. }
  assert (H7 : isDash 8211 = true) by reflexivity.
  assert (H8 : ~ hasSeparator (lit "Mary-Jane Roe" ++ [SP]))
    by (apply no_separator_split; vm_compute; reflexivity).
  assert (H9 : ~ hasSeparator (lit "Co-pilot"))
    by (apply no_separator_split; vm_compute; reflexivity).
  repeat (split; [assumption|]).
  exact (splitNameAndTitle_joined _ _ _ H1 H2 H3 H4 H5 H6 H7 H8 H9).
Defined.

(** *** Phone Normalizer *)

Lemma filter_isDigit_all (s : jsstring) :
  forallb isDigit (filter isDigit s) = true.
Proof.
  induction s as [|c s IH]; [reflexivity|]. cbn [filter].
  destruct (isDigit c) eqn:E; [|exact IH].
  cbn [forallb]. rewrite E, IH. reflexivity.
Qed.

(** X8. An [e164] number, when the Phone Normalizer gives one, is a
    plus sign followed by at least eleven digits and nothing else: the
    digits of the text, with the country code 1 put before them when
    there are ten. *)
Theorem parsePhone_e164_shape (raw e : jsstring) :
  Contact.e164 (parsePhone raw) = Some e ->
  exists d ds,
    Contact.digits (parsePhone raw) = Some d /\
    d = filter isDigit (decode raw) /\
    e = 43 :: ds /\
    forallb isDigit ds = true /\ (11 <= length ds)%nat /\
    ((length d = 10%nat /\ ds = 49 :: d) \/
     ((11 <= length d)%nat /\ ds = d)).
Proof.
  unfold parsePhone.
  destruct (decode raw) as [|t0 t'] eqn:Et; [discriminate|].
  rewrite strip_nondigits.
  pose proof (filter_isDigit_all (t0 :: t')) as Hd.
  destruct (filter isDigit (t0 :: t')) as [|d0 d'] eqn:Ed; [discriminate|].
  destruct (Nat.eqb (length (d0 :: d')) 10) eqn:E10.
  - apply Nat.eqb_eq in E10. cbn [Contact.e164 Contact.digits].
    intros H. injection H as <-.
    exists (d0 :: d'), (49 :: d0 :: d').
    repeat split; auto.
    simpl in E10 |- *. lia.
  - destruct (Nat.eqb (length (d0 :: d')) 7); [discriminate|].
    cbn [Contact.e164 Contact.digits].
    destruct (Nat.leb 11 (length (d0 :: d'))) eqn:E11; [|discriminate].
    apply Nat.leb_le in E11. intros H. injection H as <-.
    exists (d0 :: d'), (d0 :: d'). repeat split; auto.
Qed.

Lemma parsePhone_e164_shape_witness :
  Contact.e164 (parsePhone (lit "701.777.7868")) = Some (lit "+17017777868") /\
  exists d ds,
    Contact.digits (parsePhone (lit "701.777.7868")) = Some d /\
    d = filter isDigit (decode (lit "701.777.7868")) /\
    lit "+17017777868" = 43 :: ds /\
    forallb isDigit ds = true /\ (11 <= length ds)%nat /\
    ((length d = 10%nat /\ ds = 49 :: d) \/
     ((11 <= length d)%nat /\ ds = d)).
Proof.
  assert (H : Contact.e164 (parsePhone (lit "701.777.7868")) =
              Some (lit "+17017777868")) by (vm_compute; reflexivity).
  split; [exact H|].
  exact (parsePhone_e164_shape (lit "701.777.7868") (lit "+17017777868") H).
Defined.

Lemma parsePhone_fixed (raw : jsstring) :
  hasEntity (decode raw) = false -> parsePhone (decode raw) = parsePhone raw.
Proof.
  intros H. unfold parsePhone.
  rewrite (Decoded_fixed _ (decode_Decoded raw) H). reflexivity.
Qed.

Lemma filter_keep (f : cu -> bool) (x : cu) (l : jsstring) :
  f x = true -> filter f (x :: l) = x :: filter f l.
Proof. intros H. cbn [filter]. rewrite H. reflexivity. Qed.

Lemma filter_drop (f : cu -> bool) (x : cu) (l : jsstring) :
  f x = false -> filter f (x :: l) = filter f l.
Proof. intros H. cbn [filter]. rewrite H. reflexivity. Qed.

Ltac filter_digits :=
  repeat first
    [ rewrite filter_keep by assumption
    | rewrite filter_drop by reflexivity ];
  change (filter isDigit []) with (@nil N).

Ltac digit_facts :=
  match goal with
  | H : forallb isDigit (_ :: _) = true |- _ =>
      cbn [forallb] in H;
      repeat (let D := fresh "D" in apply andb_true_iff in H as [D H])
  end.

Ltac plain_chars :=
  repeat first
    [ apply Forall_nil
    | apply Forall_cons;
      [ first [ left; apply isDigit_not_space; assumption
              | left; reflexivity
              | right; reflexivity ] | ] ].

Ltac spaced_once :=
  repeat first
    [ apply Sorted_nil | apply HdRel_nil
    | apply Sorted_cons
    | apply HdRel_cons;
      let H1 := fresh in let H2 := fresh in
      intros [H1 H2];
      first [ discriminate H1 | discriminate H2
            | match goal with
              | D : isDigit ?c = true |- _ =>
                  first [ rewrite H1 in D | rewrite H2 in D ];
                  discriminate D
              end ] ].

(** X9. The Phone Normalizer is stable on its own [pretty] text: when
    that text holds none of the entities [decode] unescapes, which is
    always so for a text the normalizer formatted itself, parsing it
    again finds the same digits and the same [e164] number and gives it
    back as [raw] and as [pretty]. *)
Theorem parsePhone_pretty_stable (raw p : jsstring) :
  Contact.pretty (parsePhone raw) = Some p ->
  hasEntity p = false ->
  parsePhone p =
    Contact.mk (Some p) (Contact.digits (parsePhone raw))
      (Contact.e164 (parsePhone raw)) (Some p).
Proof.
  intros Hp He.
  assert (Hfix : decode raw <> [] -> p = decode raw ->
                 Contact.raw (parsePhone raw) = Some p ->
                 parsePhone p =
                   Contact.mk (Some p) (Contact.digits (parsePhone raw))
                     (Contact.e164 (parsePhone raw)) (Some p)).
  { intros Hne -> Hraw. rewrite parsePhone_fixed by exact He.
    destruct (parsePhone raw) as [r d e q]. cbn in Hp, Hraw |- *.
    congruence. }
  revert Hp. unfold parsePhone at 1.
  destruct (decode raw) as [|t0 t'] eqn:Et; [discriminate|].
  rewrite strip_nondigits.
  pose proof (filter_isDigit_all (t0 :: t')) as Hd.
  destruct (filter isDigit (t0 :: t')) as [|d0 d'] eqn:Ed.
  { cbn [Contact.pretty]. intros H. injection H as <-.
    apply Hfix; [discriminate|reflexivity|].
    unfold parsePhone. rewrite Et, strip_nondigits, Ed. reflexivity. }
  destruct (Nat.eqb (length (d0 :: d')) 10) eqn:E10.
  - apply Nat.eqb_eq in E10. clear Hfix.
    destruct d' as [|d1 [|d2 [|d3 [|d4 [|d5 [|d6 [|d7 [|d8 [|d9 [|]]]]]]]]]];
      try discriminate E10.
    digit_facts. cbn [Contact.pretty]. intros Hq. injection Hq as Hq.
    cbv [lit list_ascii_of_string map N_of_ascii N_of_digits firstn skipn
         app] in Hq.
    cbn in Hq. subst p.
    match goal with |- parsePhone ?q = _ =>
      assert (Dq : Decoded q) by
        (apply plain_Decoded;
         [plain_chars | spaced_once | reflexivity
         | cbn [rev app noSpaceAhead]; apply isDigit_not_space; assumption])
    end.
    unfold parsePhone at 1.
    rewrite (Decoded_fixed _ Dq He), strip_nondigits.
    filter_digits. cbn [length Nat.eqb firstn skipn app].
    unfold parsePhone. rewrite Et, strip_nondigits, Ed.
    cbn [length Nat.eqb Contact.digits Contact.e164].
    reflexivity.
  - destruct (Nat.eqb (length (d0 :: d')) 7) eqn:E7.
    + apply Nat.eqb_eq in E7. clear Hfix.
      destruct d' as [|d1 [|d2 [|d3 [|d4 [|d5 [|d6 [|]]]]]]];
        try discriminate E7.
      digit_facts. cbn [Contact.pretty]. intros Hq. injection Hq as Hq.
      cbn in Hq. subst p.
      match goal with |- parsePhone ?q = _ =>
        assert (Dq : Decoded q) by
          (apply plain_Decoded;
           [plain_chars | spaced_once
           | cbn [noSpaceAhead]; apply isDigit_not_space; assumption
           | cbn [rev app noSpaceAhead]; apply isDigit_not_space; assumption])
      end.
      unfold parsePhone at 1.
      rewrite (Decoded_fixed _ Dq He), strip_nondigits.
      filter_digits. cbn [length Nat.eqb firstn skipn app].
      unfold parsePhone. rewrite Et, strip_nondigits, Ed.
      cbn [length Nat.eqb Contact.digits Contact.e164].
      reflexivity.
    + cbn [Contact.pretty]. intros H. injection H as <-.
      apply Hfix; [discriminate|reflexivity|].
      unfold parsePhone. rewrite Et, strip_nondigits, Ed, E10, E7.
      reflexivity.
Qed.

Lemma parsePhone_pretty_stable_witness :
  Contact.pretty (parsePhone (lit "701.777.7868")) =
    Some (lit "(701) 777-7868") /\
  hasEntity (lit "(701) 777-7868") = false /\
  parsePhone (lit "(701) 777-7868") =
    Contact.mk (Some (lit "(701) 777-7868"))
      (Contact.digits (parsePhone (lit "701.777.7868")))
      (Contact.e164 (parsePhone (lit "701.777.7868")))
      (Some (lit "(701) 777-7868")).
Proof.
  assert (H1 : Contact.pretty (parsePhone (lit "701.777.7868")) =
               Some (lit "(701) 777-7868")) by (vm_compute; reflexivity).
  assert (H2 : hasEntity (lit "(701) 777-7868") = false)
    by (vm_compute; reflexivity).
  split; [exact H1|]. split; [exact H2|].
  exact (parsePhone_pretty_stable _ _ H1 H2).
Defined.

(** *** Returning-Time Parser *)



Lemma AlphaWords_nonempty (s : jsstring) (ws : list jsstring) :
  AlphaWords s ws -> Forall (fun w => w <> [] /\ forallb isAlpha w = true) ws.
Proof. induction 1; auto. Qed.



(** X11. The other fields of a parsed Returning cell: [raw] is the
    decoded text, or null when that is empty; [pretty] is null only
    then; without an [hhmm], [pretty] is [raw]; and no token is ever
    the empty string. *)
Theorem parseReturning_fields (raw : jsstring) :
  let r := parseReturning raw in
  Returning.raw r = orNull (decode raw) /\
  (Returning.pretty r = None <-> decode raw = []) /\
  (Returning.hhmm r = None -> Returning.pretty r = Returning.raw r) /\
  Forall (fun t => t <> []) (Returning.tokens r).
Proof.
  cbv zeta. unfold parseReturning.
  destruct (decode raw) as [|t0 t'] eqn:Et.
  { cbn. repeat split; auto. }
  destruct (isHHMM (t0 :: t')) eqn:Eh.
  - cbn [Returning.raw Returning.hhmm Returning.pretty Returning.tokens
         orNull].
    repeat split; try discriminate.
    constructor; [|constructor]. unfold COLON.
    destruct (String_of_N _); discriminate.
  - destruct (matchMeridiem (t0 :: t')) as [m|] eqn:Em.
    + destruct (matchMeridiem_shape _ _ Em)
        as (pre & colon & ws & post & _ & _ & _ & _ & _ & _ & _ & Hap & _).
      cbn [Returning.raw Returning.hhmm Returning.pretty Returning.tokens
           orNull].
      repeat split; try discriminate.
      constructor; [|constructor].
      destruct Hap as [E|E]; rewrite E; discriminate.
    + cbn [Returning.raw Returning.hhmm Returning.pretty Returning.tokens
           orNull].
      repeat split; try discriminate.
      pose proof (AlphaWords_nonempty _ _ (matchAll_alphas_words (t0 :: t')))
        as Hw.
      eapply Forall_impl; [|exact Hw]. intros w [H _]. exact H.
Qed.

(** *** Updated-Timestamp Parser *)

(** X12. The fields of a parsed Updated cell hang together: [isoGuess]
    is the ISO rendering of [epochMs], so both are null or both are
    set; [debug] is set exactly for the unpopulated template; [local]
    is the cell text, and null exactly when that is empty or the
    template; and the date parser is applied to the cell text itself,
    never to an empty text. *)
Theorem parseUpdated_fields dp iso (td : Cell) :
  let text := extractCellText td in
  let u := parseUpdatedFromCell dp iso td in
  Updated.isoGuess u = option_map iso (Updated.epochMs u) /\
  (Updated.isoGuess u = None <-> Updated.epochMs u = None) /\
  (Updated.debug u <> None <-> FormatToken text) /\
  (Updated.local u = None <-> text = [] \/ FormatToken text) /\
  (forall x, Updated.local u = Some x ->
     x = text /\ Updated.epochMs u = dp x) /\
  (Updated.local u = None -> Updated.epochMs u = None).
Proof.
  cbv zeta. unfold parseUpdatedFromCell.
  destruct (isFormatToken (extractCellText td)) eqn:Ef.
  - apply isFormatToken_shape in Ef.
    cbn [Updated.local Updated.isoGuess Updated.epochMs Updated.debug
         option_map].
    repeat split; auto; try discriminate.
  - assert (Hnf : ~ FormatToken (extractCellText td)).
    { intros H. apply isFormatToken_complete in H. congruence. }
    cbn [Updated.local Updated.isoGuess Updated.epochMs Updated.debug].
    destruct (extractCellText td) as [|c l]; cbn [orNull option_map].
    + repeat split; auto; try discriminate; try tauto.
    + split; [reflexivity|]. split.
      { destruct (dp (c :: l)); cbn [option_map]; split; congruence. }
      split; [split; [congruence|tauto]|].
      split; [split; [discriminate|intros [H|H]; [discriminate H|tauto]]|].
      split; [|discriminate].
      intros x H. injection H as <-. auto.
Qed.

(** *** Row Assembler *)

Lemma Contact_eta (p : Contact.t) :
  Contact.mk (Contact.raw p) (Contact.digits p) (Contact.e164 p)
    (Contact.pretty p) = p.
Proof. destruct p; reflexivity. Qed.

Lemma Returning_eta (p : Returning.t) :
  Returning.mk (Returning.raw p) (Returning.hhmm p) (Returning.pretty p)
    (Returning.tokens p) = p.
Proof. destruct p; reflexivity. Qed.

Lemma Updated_eta (p : Updated.t) :
  Updated.mk (Updated.local p) (Updated.isoGuess p) (Updated.epochMs p)
    (Updated.debug p) = p.
Proof. destruct p; reflexivity. Qed.

Lemma splitNameAndTitle_nonempty (raw : jsstring) :
  orNull (orEmpty (nt_name (splitNameAndTitle raw))) =
    nt_name (splitNameAndTitle raw) /\
  orNull (orEmpty (nt_title (splitNameAndTitle raw))) =
    nt_title (splitNameAndTitle raw).
Proof.
  assert (Hor : forall s, orNull (orEmpty (orNull s)) = orNull s)
    by (intros [|c l]; reflexivity).
  unfold splitNameAndTitle.
  destruct (decode raw) as [|t0 t']; [split; reflexivity|].
  destruct (split m_sep (t0 :: t')) as [|first [|p ps]];
    cbn [nt_name nt_title]; auto.
Qed.

(** What [rowToRecord] returns, and what it does to the clock. *)
Lemma rowToRecord_inv clock dp iso (tr : Row) (n : nat) :
  (accepted tr = false /\ rowToRecord clock dp iso tr n = (None, n)) \/
  (accepted tr = true /\
   exists r, rowToRecord clock dp iso tr n = (Some r, S n) /\
             rec_id r = rowId tr /\ rec_id r <> [] /\
             meta_parsedAt (rec_meta r) = clock n).
Proof.
  unfold accepted, rowId, cellAt, rowToRecord.
  destruct (cells tr) as [|td0 [|td1 [|td2 [|td3 [|td4 [|td5 [|td6 rest]]]]]]];
    try (left; split; reflexivity).
  cbn [length Nat.leb nth andb].
  destruct (extractCellText td0) as [|x0 x] eqn:E0; cbn [orNull orElse].
  - destruct (stripRow (orEmpty (attr_id tr))) as [|y0 y] eqn:E1;
      cbn [orNull].
    + left. split; reflexivity.
    + right. split; [reflexivity|]. eexists. split; [reflexivity|].
      cbn [rec_id rec_meta meta_parsedAt]. repeat split. discriminate.
  - right. split; [reflexivity|]. eexists. split; [reflexivity|].
    cbn [rec_id rec_meta meta_parsedAt]. repeat split. discriminate.
Qed.

(** X13. The Row Assembler accepts a row exactly when it has at least
    seven cells and an id, the text of the hidden first cell or else
    the [id] attribute without its [Row] prefix.  A rejected row leaves the clock
    alone; an accepted one reads it once, for [parsedAt], and its
    fields come from the columns in order: status, name and title,
    contact, remarks, returning, updated. *)
Theorem rowToRecord_columns clock dp iso (tr : Row) (n : nat) :
  (accepted tr = false -> rowToRecord clock dp iso tr n = (None, n)) /\
  (accepted tr = true ->
   exists r,
     rowToRecord clock dp iso tr n = (Some r, S n) /\
     rec_id r = rowId tr /\ rec_id r <> [] /\
     rec_status r =
       normalizeStatus (trim (orEmpty (attr_class tr)))
         (extractCellText (cellAt 1 tr)) /\
     rec_name r = nt_name (splitNameAndTitle (extractCellText (cellAt 2 tr))) /\
     rec_title r =
       nt_title (splitNameAndTitle (extractCellText (cellAt 2 tr))) /\
     rec_contact r = parsePhone (extractCellText (cellAt 3 tr)) /\
     rec_remarks r = orNull (extractCellText (cellAt 4 tr)) /\
     rec_returning r = parseReturning (extractCellText (cellAt 5 tr)) /\
     rec_updated r = parseUpdatedFromCell dp iso (cellAt 6 tr) /\
     meta_parsedAt (rec_meta r) = clock n).
Proof.
  unfold accepted, rowId, cellAt, rowToRecord.
  destruct (cells tr) as [|td0 [|td1 [|td2 [|td3 [|td4 [|td5 [|td6 rest]]]]]]];
    try (split; [reflexivity|discriminate]).
  cbn [length Nat.leb nth andb].
  destruct (splitNameAndTitle_nonempty (extractCellText td2)) as [Hn Ht].
  assert (Hid : forall id,
    orElse (orNull (extractCellText td0))
           (orNull (stripRow (orEmpty (attr_id tr)))) = Some id ->
    id <> [] /\
    id = match extractCellText td0 with
         | [] => stripRow (orEmpty (attr_id tr))
         | x => x
         end).
  { intros id. destruct (extractCellText td0) as [|x0 x]; cbn [orNull orElse].
    - destruct (stripRow (orEmpty (attr_id tr))) as [|y0 y]; cbn [orNull];
        [discriminate|].
      intros H. injection H as <-. split; [discriminate|reflexivity].
    - intros H. injection H as <-. split; [discriminate|reflexivity]. }
  assert (Hacc : negb (jseqb match extractCellText td0 with
                             | [] => stripRow (orEmpty (attr_id tr))
                             | x => x
                             end []) =
                 match orElse (orNull (extractCellText td0))
                         (orNull (stripRow (orEmpty (attr_id tr)))) with
                 | Some _ => true
                 | None => false
                 end).
  { destruct (extractCellText td0) as [|x0 x]; cbn [orNull orElse];
      [|reflexivity].
    destruct (stripRow (orEmpty (attr_id tr))); reflexivity. }
  rewrite Hacc. clear Hacc.
  destruct (orElse (orNull (extractCellText td0))
              (orNull (stripRow (orEmpty (attr_id tr))))) as [id|] eqn:Eid.
  - split; [discriminate|]. intros _.
    destruct (Hid id eq_refl) as [Hne Hrow].
    eexists. split; [reflexivity|].
    cbn [rec_id rec_status rec_name rec_title rec_contact rec_remarks
         rec_returning rec_updated rec_meta meta_parsedAt].
    rewrite Contact_eta, Returning_eta, Updated_eta, Hn, Ht.
    repeat split; auto.
  - split; [reflexivity|discriminate].
Qed.

Lemma collect_cons clock dp iso (tr : Row) (rest : list Row) (n : nat) :
  collect clock dp iso (tr :: rest) n =
    let r := rowToRecord clock dp iso tr n in
    let c := collect clock dp iso rest (snd r) in
    (match fst r with
     | Some x => match rec_id x with [] => fst c | _ => x :: fst c end
     | None => fst c
     end, snd c).
Proof.
  cbn [collect]. unfold bind at 1.
  destruct (rowToRecord clock dp iso tr n) as [r n1].
  unfold bind at 1. cbn [fst snd].
  destruct (collect clock dp iso rest n1) as [c n2]. reflexivity.
Qed.

Lemma collect_ids clock dp iso (rows : list Row) :
  forall n,
    map rec_id (fst (collect clock dp iso rows n)) =
      map rowId (filter accepted rows).
Proof.
  induction rows as [|tr rest IH]; intros n; [reflexivity|].
  rewrite collect_cons. cbv zeta. cbn [filter fst].
  destruct (rowToRecord_inv clock dp iso tr n)
    as [[Ha E]|[Ha (r & E & Hid & Hne & _)]]; rewrite E, Ha;
    cbn [fst snd]; [apply IH|].
  destruct (rec_id r) as [|i0 i'] eqn:Er; [congruence|].
  cbn [map]. rewrite IH, <- Hid, Er. reflexivity.
Qed.

(** X14. The records [rows.each] collects are those of the accepted
    rows, in source order; each has an id that is not empty; the clock
    is read once for each of them, so that their [parsedAt] stamps are
    the successive readings of the clock. *)
Theorem collect_spec clock dp iso (rows : list Row) (n : nat) :
  let items := fst (collect clock dp iso rows n) in
  map rec_id items = map rowId (filter accepted rows) /\
  Forall (fun r => rec_id r <> []) items /\
  (length items <= length rows)%nat /\
  snd (collect clock dp iso rows n) = (n + length items)%nat /\
  map (fun r => meta_parsedAt (rec_meta r)) items =
    map clock (seq n (length items)).
Proof.
  cbv zeta. split; [apply collect_ids|].
  revert n. induction rows as [|tr rest IH]; intros n.
  { cbn. repeat split; auto. }
  rewrite collect_cons. cbv zeta.
  destruct (rowToRecord_inv clock dp iso tr n)
    as [[Ha E]|[Ha (r & E & Hid & Hne & Hat)]]; rewrite E;
    cbn [fst snd].
  - destruct (IH n) as (I2 & I3 & I4 & I5).
    repeat split; auto. simpl. lia.
  - destruct (IH (S n)) as (I2 & I3 & I4 & I5).
    destruct (rec_id r) as [|i0 i'] eqn:Er; [congruence|].
    cbn [map length seq]. rewrite I4, I5, Hat.
    repeat split; auto; try lia.
    constructor; [rewrite Er; discriminate|exact I2].
Qed.

(** *** Board Reducer *)

Lemma withId_In (k : jsstring) (l : list Rec) (r : Rec) :
  In r (withId k l) <-> In r l /\ rec_id r = k.
Proof. unfold withId. rewrite filter_In, jseqb_eq. reflexivity. Qed.

Lemma lastWithId_In (k : jsstring) (l : list Rec) (r : Rec) :
  lastWithId k l = Some r -> In r l /\ rec_id r = k.
Proof.
  unfold lastWithId. intros H. apply find_some in H as [H1 H2].
  apply in_rev in H1. apply jseqb_eq in H2. auto.
Qed.

Lemma lastWithId_found (k : jsstring) (l : list Rec) :
  In k (map rec_id l) -> lastWithId k l <> None.
Proof.
  intros H E. apply in_map_iff in H as (r & Hr & Hin).
  unfold lastWithId in E. apply in_rev in Hin.
  pose proof (find_none _ _ E r Hin) as Hf. cbv beta in Hf.
  subst k. rewrite jseqb_refl in Hf. discriminate.
Qed.

Lemma NoDup_ids (l : list Rec) :
  (forall k, (length (withId k l) <= 1)%nat) -> NoDup (map rec_id l).
Proof.
  induction l as [|a l IH]; intros H; cbn [map]; constructor.
  - intros Hin. apply in_map_iff in Hin as (b & Hb & Hin).
    specialize (H (rec_id a)). unfold withId in H. cbn [filter] in H.
    rewrite jseqb_refl in H. cbn [length] in H.
    assert (Hb' : In b (filter (fun r => jseqb (rec_id r) (rec_id a)) l)).
    { apply filter_In. split; [exact Hin|]. apply jseqb_eq. exact Hb. }
    destruct (filter (fun r => jseqb (rec_id r) (rec_id a)) l);
      [exact Hb' | simpl in H; lia].
  - apply IH. intros k. specialize (H k). unfold withId in H |- *.
    cbn [filter] in H. destruct (jseqb (rec_id a) k); simpl in H; lia.
Qed.

Lemma dedupe_NoDup (items : list Rec) : NoDup (map rec_id (dedupe items)).
Proof.
  apply NoDup_ids. intros k. rewrite dedupe_keeps_last.
  destruct (jseqb k PROTO); [simpl; lia|].
  destruct (lastWithId k items); simpl; lia.
Qed.

Lemma dedupe_In (items : list Rec) (r : Rec) :
  In r (dedupe items) -> In r items /\ rec_id r <> PROTO.
Proof.
  intros Hr.
  assert (Hw : In r (withId (rec_id r) (dedupe items)))
    by (apply withId_In; auto).
  rewrite dedupe_keeps_last in Hw.
  destruct (jseqb (rec_id r) PROTO) eqn:Ep; [destruct Hw|].
  apply jseqb_neq in Ep. split; [|exact Ep].
  destruct (lastWithId (rec_id r) items) as [r'|] eqn:El; [|destruct Hw].
  destruct Hw as [<-|[]]. apply (lastWithId_In _ _ _ El).
Qed.

(** X15. What the dedup step keeps: no two of the records it returns
    share an id; each of them is one of the records it was given; the
    ids it returns are exactly the ids it was given, [__proto__] apart;
    and it never returns more records than it was given. *)
Theorem dedupe_distinct (items : list Rec) :
  NoDup (map rec_id (dedupe items)) /\
  incl (dedupe items) items /\
  (forall k, In k (map rec_id (dedupe items)) <->
             In k (map rec_id items) /\ k <> PROTO) /\
  (length (dedupe items) <= length items)%nat.
Proof.
  pose proof (dedupe_NoDup items) as Hnd.
  assert (Hids : forall k, In k (map rec_id (dedupe items)) <->
                           In k (map rec_id items) /\ k <> PROTO).
  { intros k. split.
    - intros H. apply in_map_iff in H as (r & <- & Hr).
      destruct (dedupe_In _ _ Hr) as [H1 H2]. split; [|exact H2].
      apply in_map. exact H1.
    - intros [H Hp]. pose proof (lastWithId_found _ _ H) as Hf.
      pose proof (dedupe_keeps_last items k) as Hk.
      apply jseqb_neq in Hp. rewrite Hp in Hk.
      destruct (lastWithId k items) as [r|] eqn:El; [|congruence].
      assert (Hr : In r (withId k (dedupe items)))
        by (rewrite Hk; left; reflexivity).
      apply withId_In in Hr as [Hr <-]. apply in_map. exact Hr. }
  split; [exact Hnd|]. split; [intros r Hr; apply (dedupe_In _ _ Hr)|].
  split; [exact Hids|].
  rewrite <- (length_map rec_id (dedupe items)).
  rewrite <- (length_map rec_id items).
  apply NoDup_incl_length; [exact Hnd|].
  intros k H. apply Hids in H. tauto.
Qed.

Section Stability.
Context {A : Type} (cmp : A -> A -> Z) (p : A -> bool).
Hypothesis p_tied :
  forall a b, p a = true -> p b = true -> (cmp a b <= 0)%Z.

Lemma insertBy_filter (x : A) (l : list A) :
  filter p (insertBy cmp x l) = filter p (x :: l).
Proof.
  induction l as [|y r IH]; [reflexivity|].
  cbn [insertBy]. destruct (Z.ltb_spec 0 (cmp x y)) as [H|H]; [|reflexivity].
  cbn [filter] in IH |- *. rewrite IH.
  destruct (p x) eqn:Ex, (p y) eqn:Ey; try reflexivity.
  specialize (p_tied x y Ex Ey). lia.
Qed.

Lemma sortBy_filter (l : list A) : filter p (sortBy cmp l) = filter p l.
Proof.
  induction l as [|x l IH]; [reflexivity|].
  cbn [sortBy fold_right]. fold (sortBy cmp l).
  rewrite insertBy_filter. cbn [filter]. rewrite IH. reflexivity.
Qed.
End Stability.

Lemma compareUnits_refl (x : jsstring) : compareUnits x x = 0%Z.
Proof.
  induction x as [|a x IH]; [reflexivity|].
  cbn [compareUnits]. rewrite N.ltb_irrefl. exact IH.
Qed.

(** X16. The sort of the board is stable, and a permutation: records
    with the same status rank and the same name leave the Board Reducer
    in the order [Object.values] gave them, whenever [localeCompare]
    does not put a name after itself; and the board has exactly the
    records the dedup step kept. *)
Theorem reduceBoard_stable lc (items : list Rec) (e : Rec) :
  (forall x, (lc x x <= 0)%Z) ->
  filter (sameKey e) (reduceBoard lc items) =
    filter (sameKey e) (dedupe items) /\
  Permutation (reduceBoard lc items) (dedupe items).
Proof.
  intros Hrefl. split; [|apply sortBy_perm].
  unfold reduceBoard. apply sortBy_filter.
  intros a b Ha Hb. unfold sameKey in Ha, Hb.
  apply andb_true_iff in Ha as [Ha1 Ha2], Hb as [Hb1 Hb2].
  apply Z.eqb_eq in Ha1, Hb1. apply jseqb_eq in Ha2, Hb2.
  unfold compareRecords. rewrite <- Ha1, <- Hb1, Z.eqb_refl. cbn [negb].
  rewrite <- Ha2, <- Hb2. apply Hrefl.
Qed.

Lemma reduceBoard_stable_witness :
  let a := sampleRec "b2" "Out" "Ann" in
  let b := sampleRec "a1" "Out" "Ann" in
  let c := sampleRec "c3" "In" "Zed" in
  (forall x, (compareUnits x x <= 0)%Z) /\
  reduceBoard compareUnits [a; b; c] = [c; a; b] /\
  filter (sameKey a) (reduceBoard compareUnits [a; b; c]) =
    filter (sameKey a) (dedupe [a; b; c]).
Proof.
  cbv zeta.
  assert (H : forall x, (compareUnits x x <= 0)%Z)
    by (intros x; rewrite compareUnits_refl; lia).
  split; [exact H|]. split; [vm_compute; reflexivity|].
  exact (proj1 (reduceBoard_stable compareUnits _ _ H)).
Defined.

(** The order of [Object.values]. *)

Lemma Number_of_digits_snoc (s : jsstring) (c : cu) :
  Number_of_digits (s ++ [c]) = 10 * Number_of_digits s + (c - 48).
Proof. unfold Number_of_digits. rewrite fold_left_app. reflexivity. Qed.

Lemma digits_same_length (s : jsstring) :
  forall t,
    length s = length t ->
    forallb isDigit s = true -> forallb isDigit t = true ->
    Number_of_digits s = Number_of_digits t -> s = t.
Proof.
  induction s as [|c s IH] using rev_ind; intros t.
  - destruct t; [reflexivity|discriminate].
  - induction t as [|d t _] using rev_ind.
    + rewrite length_app. simpl. lia.
    + rewrite !length_app, !forallb_app, !Number_of_digits_snoc.
      cbn [length forallb]. rewrite !andb_true_r.
      intros L Hs Ht E.
      apply andb_true_iff in Hs as [Hs Hc], Ht as [Ht Hd].
      apply isDigit_range in Hc, Hd.
      assert (E1 : Number_of_digits s = Number_of_digits t) by lia.
      assert (E2 : c = d) by lia.
      subst d. f_equal. apply IH; [lia|assumption..].
Qed.

Lemma digits_bounds (r : jsstring) :
  forall acc,
    forallb isDigit r = true ->
    acc * 10 ^ N.of_nat (length r) <=
      fold_left (fun a c => 10 * a + (c - 48)) r acc /\
    fold_left (fun a c => 10 * a + (c - 48)) r acc <
      (acc + 1) * 10 ^ N.of_nat (length r).
Proof.
  induction r as [|c r IH]; intros acc H.
  - cbn [length fold_left]. change (10 ^ N.of_nat 0) with 1. lia.
  - cbn [forallb] in H. apply andb_true_iff in H as [Hc Hr].
    apply isDigit_range in Hc.
    cbn [length fold_left]. rewrite Nat2N.inj_succ, N.pow_succ_r'.
    destruct (IH (10 * acc + (c - 48)) Hr) as [L U].
    set (P := 10 ^ N.of_nat (length r)) in *. nia.
Qed.

(** A canonical numeric string is determined by its number. *)
Lemma arrayIndex_inj (a b : jsstring) (n : N) :
  arrayIndex a = Some n -> arrayIndex b = Some n -> a = b.
Proof.
  assert (Hlen : forall x y m,
    arrayIndex x = Some m -> arrayIndex y = Some m ->
    (length x <= length y)%nat).
  { intros x y m Hx Hy. unfold arrayIndex in Hx, Hy.
    destruct x as [|c r]; [discriminate|].
    destruct y as [|d q]; [discriminate|].
    destruct (forallb isDigit (c :: r)) eqn:Dx; [|discriminate].
    destruct (forallb isDigit (d :: q)) eqn:Dy; [|discriminate].
    cbn [andb] in Hx, Hy.
    destruct (negb (c =? 48) || jseqb r []) eqn:Cx; [|discriminate].
    destruct (negb (d =? 48) || jseqb q []) eqn:Cy; [|discriminate].
    cbn [andb] in Hx, Hy.
    destruct (Number_of_digits (c :: r) <=? 4294967294); [|discriminate].
    destruct (Number_of_digits (d :: q) <=? 4294967294); [|discriminate].
    injection Hx as Hx. injection Hy as Hy.
    apply orb_true_iff in Cx as [Cx|Cx].
    2:{ apply jseqb_eq in Cx. subst r. simpl. lia. }
    apply negb_true_iff, N.eqb_neq in Cx.
    cbn [forallb] in Dx, Dy.
    apply andb_true_iff in Dx as [Dc Dr], Dy as [Dd Dq].
    apply isDigit_range in Dc, Dd.
    unfold Number_of_digits in Hx, Hy. cbn [fold_left] in Hx, Hy.
    destruct (digits_bounds r (10 * 0 + (c - 48)) Dr) as [Lx _].
    destruct (digits_bounds q (10 * 0 + (d - 48)) Dq) as [_ Uy].
    rewrite Hx in Lx. rewrite Hy in Uy.
    destruct (Nat.le_gt_cases (length (c :: r)) (length (d :: q)))
      as [H|H]; [exact H|exfalso].
    cbn [length] in H.
    assert (Hp : 10 * 10 ^ N.of_nat (length q) <= 10 ^ N.of_nat (length r)).
    { rewrite <- N.pow_succ_r', <- Nat2N.inj_succ.
      apply N.pow_le_mono_r; lia. }
    set (P := 10 ^ N.of_nat (length r)) in *.
    set (Q := 10 ^ N.of_nat (length q)) in *. nia. }
  intros Ha Hb.
  pose proof (Hlen _ _ _ Ha Hb) as L1. pose proof (Hlen _ _ _ Hb Ha) as L2.
  unfold arrayIndex in Ha, Hb.
  destruct a as [|c r]; [discriminate|].
  destruct b as [|d q]; [discriminate|].
  destruct (forallb isDigit (c :: r)) eqn:Dx; [|discriminate].
  destruct (forallb isDigit (d :: q)) eqn:Dy; [|discriminate].
  cbn [andb] in Ha, Hb.
  destruct (_ && _) in Ha; [|discriminate].
  destruct (_ && _) in Hb; [|discriminate].
  injection Ha as Ha. injection Hb as Hb.
  apply digits_same_length; [lia|assumption..|congruence].
Qed.

Lemma keyOrder_trans (a b c : jsstring) :
  keyOrder a b -> keyOrder b c -> keyOrder a c.
Proof.
  unfold keyOrder.
  destruct (arrayIndex a), (arrayIndex b), (arrayIndex c); try tauto. lia.
Qed.

Lemma StronglySorted_snoc {A : Type} (R : A -> A -> Prop) (l : list A)
    (k : A) :
  StronglySorted R l -> Forall (fun a => R a k) l ->
  StronglySorted R (l ++ [k]).
Proof.
  induction 1 as [|a l Hl IH Ha]; intros Hk; cbn [app].
  - repeat constructor.
  - apply Forall_cons_iff in Hk as [Hak Hk]. constructor; [auto|].
    apply Forall_app. split; [exact Ha|]. constructor; [exact Hak|constructor].
Qed.

Section OwnOrder.
Context {V : Type}.

Lemma overwrite_keys (k : jsstring) (v : V) (o : list (jsstring * V)) :
  map fst (overwrite k v o) = map fst o.
Proof.
  induction o as [|[k' v'] o IH]; [reflexivity|]. cbn [overwrite].
  destruct (jseqb k k'); cbn [map fst]; [reflexivity|]. rewrite IH.
  reflexivity.
Qed.

Lemma hasOwn_keys (k : jsstring) (o : list (jsstring * V)) :
  hasOwn k o = existsb (jseqb k) (map fst o).
Proof.
  induction o as [|[k' v'] o IH]; [reflexivity|].
  cbn [hasOwn map fst existsb]. rewrite IH. reflexivity.
Qed.

Lemma insertIndex_sorted (n : N) (k : jsstring) (v : V)
    (o : list (jsstring * V)) :
  arrayIndex k = Some n -> hasOwn k o = false ->
  StronglySorted keyOrder (map fst o) ->
  StronglySorted keyOrder (map fst (insertIndex n k v o)).
Proof.
  intros Hk. induction o as [|[k' v'] o IH]; intros Hno Hs.
  - cbn. repeat constructor.
  - cbn [hasOwn] in Hno. apply orb_false_iff in Hno as [Hne Hno].
    apply jseqb_neq in Hne.
    cbn [map fst] in Hs. apply StronglySorted_inv in Hs as [Hs Hf].
    assert (Hfront : keyOrder k k' ->
              StronglySorted keyOrder (map fst ((k, v) :: (k', v') :: o))).
    { intros Hkk. cbn [map fst]. constructor.
      - constructor; assumption.
      - constructor; [exact Hkk|]. eapply Forall_impl; [|exact Hf].
        intros x Hx. exact (keyOrder_trans _ _ _ Hkk Hx). }
    cbn [insertIndex]. destruct (arrayIndex k') as [n'|] eqn:Ek'.
    + destruct (N.ltb_spec n n') as [Hlt|Hge].
      * apply Hfront. unfold keyOrder. rewrite Hk, Ek'. exact Hlt.
      * cbn [map fst]. constructor; [exact (IH Hno Hs)|].
        destruct (insertIndex_split n k v o) as (o1 & o2 & Eo & Ei).
        rewrite Ei, map_app. cbn [map fst]. rewrite Eo, map_app in Hf.
        apply Forall_app in Hf as [H1 H2]. apply Forall_app.
        split; [exact H1|]. constructor; [|exact H2].
        unfold keyOrder. rewrite Ek', Hk.
        assert (n <> n').
        { intros ->. apply Hne. exact (arrayIndex_inj _ _ _ Hk Ek'). }
        lia.
    + apply Hfront. unfold keyOrder. rewrite Hk, Ek'. exact I.
Qed.

Lemma setProp_sorted (o : JSObject V) (k : jsstring) (v : V) :
  StronglySorted keyOrder (map fst (obj_own o)) ->
  StronglySorted keyOrder (map fst (obj_own (setProp o k v))).
Proof.
  intros Hs. unfold setProp.
  destruct (jseqb k PROTO); [exact Hs|].
  destruct (hasOwn k (obj_own o)) eqn:Ho.
  - cbn [obj_own]. rewrite overwrite_keys. exact Hs.
  - destruct (arrayIndex k) as [n|] eqn:Ek; cbn [obj_own].
    + apply insertIndex_sorted; assumption.
    + rewrite map_app. cbn [map fst]. apply StronglySorted_snoc; [exact Hs|].
      apply Forall_forall. intros a _. unfold keyOrder. rewrite Ek.
      destruct (arrayIndex a); exact I.
Qed.

Lemma setProp_others (o : JSObject V) (k : jsstring) (v : V) :
  filter (fun x => negb (isIndexKey x)) (map fst (obj_own (setProp o k v))) =
    let acc := filter (fun x => negb (isIndexKey x)) (map fst (obj_own o)) in
    if negb (isIndexKey k) && negb (jseqb k PROTO) then
      if existsb (jseqb k) acc then acc else acc ++ [k]
    else acc.
Proof.
  cbv zeta. unfold setProp.
  destruct (jseqb k PROTO) eqn:Ep.
  { rewrite andb_false_r. reflexivity. }
  rewrite andb_true_r.
  assert (Hex : isIndexKey k = false ->
    existsb (jseqb k)
      (filter (fun x => negb (isIndexKey x)) (map fst (obj_own o))) =
    hasOwn k (obj_own o)).
  { intros Hk. rewrite hasOwn_keys.
    induction (map fst (obj_own o)) as [|x l IH]; [reflexivity|].
    cbn [filter existsb]. destruct (isIndexKey x) eqn:Ex; cbn [negb].
    - rewrite IH. destruct (jseqb k x) eqn:E; [|reflexivity].
      apply jseqb_eq in E. congruence.
    - cbn [existsb]. rewrite IH. reflexivity. }
  destruct (hasOwn k (obj_own o)) eqn:Ho.
  - cbn [obj_own]. rewrite overwrite_keys.
    destruct (isIndexKey k) eqn:Ek; cbn [negb]; [reflexivity|].
    rewrite (Hex eq_refl). reflexivity.
  - unfold isIndexKey in Hex |- *.
    destruct (arrayIndex k) as [n|] eqn:Ek; cbn [obj_own negb].
    + destruct (insertIndex_split n k v (obj_own o)) as (o1 & o2 & Eo & Ei).
      rewrite Ei, Eo, !map_app, !filter_app. cbn [map fst filter].
      rewrite Ek. reflexivity.
    + rewrite (Hex eq_refl), map_app, filter_app. cbn [map fst filter].
      rewrite Ek. reflexivity.
Qed.
End OwnOrder.

Lemma firstSeen_snoc (ks : list jsstring) (k : jsstring) :
  firstSeen (ks ++ [k]) =
    if existsb (jseqb k) (firstSeen ks) then firstSeen ks
    else firstSeen ks ++ [k].
Proof. unfold firstSeen. rewrite fold_left_app. reflexivity. Qed.

(** X17. The order in which [Object.values] hands the kept records to
    the sort: the records whose id is an array index come first, by
    ascending index, and the others follow in the order in which their
    ids first occurred among the collected records. *)
Theorem dedupe_order (items : list Rec) :
  let ids := map rec_id (dedupe items) in
  StronglySorted keyOrder ids /\
  filter (fun k => negb (isIndexKey k)) ids =
    firstSeen
      (filter (fun k => negb (isIndexKey k) && negb (jseqb k PROTO))
         (map rec_id items)).
Proof.
  cbv zeta.
  destruct (dedupe_object items) as [Hkeys _].
  assert (Eids : map rec_id (dedupe items) =
    map fst (obj_own (fold_left (fun acc r => setProp acc (rec_id r) r)
                        items emptyObject))).
  { unfold dedupe, Object_values. revert Hkeys. cbv zeta.
    induction (obj_own _) as [|kv l IH]; intros H; [reflexivity|].
    apply Forall_cons_iff in H as [H1 H2]. cbn [map].
    rewrite H1, (IH H2). reflexivity. }
  rewrite Eids. clear Eids Hkeys.
  induction items as [|r items IH] using rev_ind.
  - split; [constructor|reflexivity].
  - destruct IH as [IH1 IH2]. rewrite fold_left_app. cbn [fold_left].
    split; [apply setProp_sorted; exact IH1|].
    rewrite setProp_others. cbv zeta.
    rewrite map_app, filter_app. cbn [map filter]. rewrite IH2.
    destruct (negb (isIndexKey (rec_id r)) && negb (jseqb (rec_id r) PROTO)).
    + rewrite firstSeen_snoc. reflexivity.
    + rewrite app_nil_r. reflexivity.
Qed.

(** The order of the whole board. *)

Lemma keyLe_trans lc :
  Transitive lc ->
  forall a b c, keyLe lc a b -> keyLe lc b c -> keyLe lc a c.
Proof.
  intros Ht a b c [H1|[H1 H2]] [H3|[H3 H4]]; unfold keyLe.
  - left. lia.
  - left. lia.
  - left. lia.
  - right. split; [lia|]. exact (Ht _ _ _ H2 H4).
Qed.

Lemma compareUnits_transitive : Transitive compareUnits.
Proof.
  intros x. induction x as [|a x IH]; intros y z.
  - destruct z; cbn [compareUnits]; lia.
  - destruct y as [|b y]; [cbn [compareUnits]; lia|].
    destruct z as [|c z]; [cbn [compareUnits]; lia|].
    cbn [compareUnits].
    destruct (N.ltb_spec a b), (N.ltb_spec b a), (N.ltb_spec b c),
             (N.ltb_spec c b), (N.ltb_spec a c), (N.ltb_spec c a);
      try lia.
    apply IH.
Qed.

(** X18. With a collation order that is consistent and transitive, the
    board is in order throughout, not only pair by pair: every record
    comes before all the later ones by status priority, then by name.
    And for every id other than [__proto__] the board holds the last
    collected record of that id and no other. *)
Theorem board_sorted_last_wins lc (items : list Rec) :
  Consistent lc -> Transitive lc ->
  StronglySorted (keyLe lc) (reduceBoard lc items) /\
  (forall k, k <> PROTO ->
     withId k (reduceBoard lc items) =
       match lastWithId k items with
       | Some r => [r]
       | None => []
       end).
Proof.
  intros Hc Ht. destruct (reduceBoard_spec lc items Hc) as (Hk & Hs & _).
  split; [|exact Hk].
  apply Sorted_StronglySorted; [|exact Hs].
  intros a b c. apply keyLe_trans. exact Ht.
Qed.

Lemma board_sorted_last_wins_witness :
  let a := sampleRec "7f3a" "Out" "Ann" in
  let b := sampleRec "12" "In" "Zed" in
  let c := sampleRec "7f3a" "In" "Ann" in
  Consistent compareUnits /\ Transitive compareUnits /\
  reduceBoard compareUnits [a; b; c] = [c; b] /\
  StronglySorted (keyLe compareUnits) (reduceBoard compareUnits [a; b; c]).
Proof.
  cbv zeta. split; [exact compareUnits_consistent|].
  split; [exact compareUnits_transitive|].
  split; [vm_compute; reflexivity|].
  exact (proj1 (board_sorted_last_wins compareUnits _
                  compareUnits_consistent compareUnits_transitive)).
Defined.

(** *** Snapshot Cache and routes *)

Lemma rowToRecord_wellformed clock dp iso (tr : Row) (n n' : nat) (r : Rec) :
  rowToRecord clock dp iso tr n = (Some r, n') ->
  rec_id r <> [] /\
  In (rec_status r) [lit "In"; lit "Out"; lit "Unavailable"; lit "Unknown"] /\
  meta_flags (rec_meta r) =
    mkFlags (jseqb (rec_status r) (lit "In"))
            (jseqb (rec_status r) (lit "Out"))
            (jseqb (rec_status r) (lit "Unavailable")) /\
  rec_name r <> Some [] /\ rec_title r <> Some [].
Proof.
  intros H.
  destruct (rowToRecord_status _ _ _ _ _ _ _ H) as [[c [t Hs]] Hf].
  pose proof (normalizeStatus_closed c t) as Hin. rewrite <- Hs in Hin.
  destruct (rowToRecord_inv clock dp iso tr n)
    as [[_ E]|[_ (r' & E & _ & Hne & _)]]; rewrite E in H;
    [discriminate|].
  injection H as <- _.
  split; [exact Hne|]. split; [exact Hin|]. split; [exact Hf|].
  clear - E. unfold rowToRecord in E.
  destruct (cells tr) as [|td0 [|td1 [|td2 [|td3 [|td4 [|td5 [|td6 rest]]]]]]];
    try discriminate.
  destruct (orElse _ _) as [id|]; [|discriminate].
  cbv beta iota delta [bind now ret] in E.
  apply (f_equal (fun p => match fst p with Some x => x | None => r' end))
    in E.
  cbv beta iota delta [fst] in E. subst r'.
  cbn [rec_name rec_title].
  split; [destruct (orEmpty (nt_name _)) | destruct (orEmpty (nt_title _))];
    discriminate.
Qed.

Lemma collect_wellformed clock dp iso (rows : list Row) :
  forall n,
    Forall (fun r =>
      rec_id r <> [] /\
      In (rec_status r)
         [lit "In"; lit "Out"; lit "Unavailable"; lit "Unknown"] /\
      meta_flags (rec_meta r) =
        mkFlags (jseqb (rec_status r) (lit "In"))
                (jseqb (rec_status r) (lit "Out"))
                (jseqb (rec_status r) (lit "Unavailable")) /\
      rec_name r <> Some [] /\ rec_title r <> Some [])
      (fst (collect clock dp iso rows n)).
Proof.
  induction rows as [|tr rest IH]; intros n; [constructor|].
  rewrite collect_cons. cbv zeta. cbn [fst].
  destruct (rowToRecord clock dp iso tr n) as [[r|] n1] eqn:E; cbn [fst snd];
    [|apply IH].
  destruct (rec_id r) eqn:Er; [apply IH|].
  constructor; [|apply IH].
  exact (rowToRecord_wellformed _ _ _ _ _ _ _ E).
Qed.

Lemma fetchBoard_BoardOK clock dp iso lc (page : Fetched) (c : Cache)
    (n : nat) :
  Consistent lc -> BoardOK lc c ->
  BoardOK lc (fst (fetchBoard clock dp iso lc page c n)).
Proof.
  intros Hlc (H1 & H2 & H3 & H4). destruct page as [e|rows].
  - destruct (fetchBoard_thrown clock dp iso lc e c n) as (msg & _ & E).
    rewrite E. cbn [fst]. repeat split; assumption.
  - rewrite fetchBoard_loaded. cbn [fst].
    set (its := fst (collect clock dp iso rows n)).
    destruct (reduceBoard_spec lc its Hlc) as (_ & Hs & Hp).
    unfold BoardOK. cbn [items lastFetched].
    split; [|split; [|split; [exact Hs|discriminate]]].
    + apply (Permutation_NoDup (l := map rec_id (dedupe its)));
        [|apply dedupe_NoDup].
      apply Permutation_map, Permutation_sym, Hp.
    + apply (Permutation_Forall (Permutation_sym Hp)).
      apply Forall_forall. intros r Hr.
      destruct (dedupe_In _ _ Hr) as [Hin Hnp].
      pose proof (collect_wellformed clock dp iso rows n) as Hw.
      rewrite Forall_forall in Hw.
      destruct (Hw r Hin) as (W1 & W2 & W3 & W4 & W5).
      repeat split; assumption.
Qed.

(** X19. Whatever the pages of a run bring, and with a consistent
    collation order, the snapshot the service holds stays fit to be
    served: its records have pairwise distinct
    ids, none of them empty or [__proto__]; each has one of the four
    statuses, the flags of its status, and a name and title that are
    null or not empty; the records are in the order of the board; and
    before the first successful refresh there is none. *)
Theorem served_board_invariant clock dp iso lc (pages : list Fetched)
    (c : Cache) (n : nat) :
  Consistent lc -> BoardOK lc c ->
  BoardOK lc (fst (refreshAll clock dp iso lc pages c n)).
Proof.
  intros Hlc. revert c n.
  induction pages as [|page rest IH]; intros c n Hc; [exact Hc|].
  rewrite refreshAll_cons. apply IH.
  apply fetchBoard_BoardOK; assumption.
Qed.

Lemma served_board_invariant_witness :
  let pages :=
    [ Thrown None;
      Loaded [sampleRow "OutItem" "7f3a" "Out"; sampleRow "InItem" "12" "";
              sampleRow "InItem" "7f3a" "In"];
      Thrown (Some (lit "timeout of 20000ms exceeded")) ] in
  Consistent compareUnits /\
  BoardOK compareUnits cache0 /\
  map rec_id
    (items (fst (refreshAll clock0 Date_parse0 toISOString0 compareUnits
                   pages cache0 0%nat))) = [lit "12"; lit "7f3a"] /\
  BoardOK compareUnits
    (fst (refreshAll clock0 Date_parse0 toISOString0 compareUnits pages
            cache0 0%nat)).
Proof.
  cbv zeta.
  assert (H0 : BoardOK compareUnits cache0).
  { unfold BoardOK, cache0. cbn [items lastFetched].
    repeat split; constructor. }
  split; [exact compareUnits_consistent|]. split; [exact H0|].
  split; [vm_compute; reflexivity|].
  exact (served_board_invariant clock0 Date_parse0 toISOString0 compareUnits
           _ cache0 0%nat compareUnits_consistent H0).
Defined.

(** X20. What [GET /] counts.  After a successful refresh, [count] is
    the number of distinct ids among the accepted rows of the page,
    [__proto__] not counted; a failed refresh leaves [count] and
    [lastFetched] as they were and shows its error. *)
Theorem root_count_distinct clock dp iso lc (c : Cache) (n : nat) :
  (forall rows,
     let r := getRoot (fst (fetchBoard clock dp iso lc (Loaded rows) c n)) in
     root_count r = length (boardIds rows) /\ root_error r = None) /\
  (forall e,
     let r := getRoot (fst (fetchBoard clock dp iso lc (Thrown e) c n)) in
     root_count r = root_count (getRoot c) /\
     root_lastFetched r = root_lastFetched (getRoot c) /\
     root_error r <> None).
Proof.
  split.
  - intros rows. cbv zeta. rewrite fetchBoard_loaded. unfold getRoot.
    cbn [fst items error root_count root_error]. split; [|reflexivity].
    set (its := fst (collect clock dp iso rows n)).
    unfold reduceBoard.
    rewrite (Permutation_length (sortBy_perm (compareRecords lc) (dedupe its))).
    rewrite <- (length_map rec_id (dedupe its)).
    apply Permutation_length, NoDup_Permutation.
    + apply dedupe_NoDup.
    + apply NoDup_nodup.
    + intros k. unfold boardIds. rewrite nodup_In, filter_In.
      rewrite <- (collect_ids clock dp iso rows n). fold its.
      rewrite negb_true_iff, jseqb_neq. split.
      * intros H. apply in_map_iff in H as (r & <- & Hr).
        destruct (dedupe_In _ _ Hr) as [H1 H2]. split; [|exact H2].
        apply in_map. exact H1.
      * intros [H Hp]. pose proof (lastWithId_found _ _ H) as Hf.
        pose proof (dedupe_keeps_last its k) as Hk.
        apply jseqb_neq in Hp. rewrite Hp in Hk.
        destruct (lastWithId k its) as [r|] eqn:El; [|congruence].
        assert (Hr : In r (withId k (dedupe its)))
          by (rewrite Hk; left; reflexivity).
        apply withId_In in Hr as [Hr <-]. apply in_map. exact Hr.
  - intros e. cbv zeta.
    destruct (fetchBoard_thrown clock dp iso lc e c n) as (msg & _ & E).
    rewrite E. unfold getRoot.
    cbn [fst items error lastFetched root_count root_error root_lastFetched].
    repeat split. discriminate.
Qed.



(** The board of a page does not depend on the time. *)

Section MapValues.
Context {V W : Type} (f : V -> W).

Lemma hasOwn_map (k : jsstring) (o : list (jsstring * V)) :
  hasOwn k (map (fun kv => (fst kv, f (snd kv))) o) = hasOwn k o.
Proof.
  induction o as [|[k' v'] o IH]; [reflexivity|].
  cbn [map hasOwn fst snd]. rewrite IH. reflexivity.
Qed.

Lemma overwrite_map (k : jsstring) (v : V) (o : list (jsstring * V)) :
  overwrite k (f v) (map (fun kv => (fst kv, f (snd kv))) o) =
    map (fun kv => (fst kv, f (snd kv))) (overwrite k v o).
Proof.
  induction o as [|[k' v'] o IH]; [reflexivity|].
  cbn [map overwrite fst snd]. destruct (jseqb k k'); cbn [map fst snd];
    [reflexivity|]. rewrite IH. reflexivity.
Qed.

Lemma insertIndex_map (n : N) (k : jsstring) (v : V)
    (o : list (jsstring * V)) :
  insertIndex n k (f v) (map (fun kv => (fst kv, f (snd kv))) o) =
    map (fun kv => (fst kv, f (snd kv))) (insertIndex n k v o).
Proof.
  induction o as [|[k' v'] o IH]; [reflexivity|].
  cbn [map insertIndex fst snd]. destruct (arrayIndex k') as [n'|];
    [|reflexivity].
  destruct (n <? n'); cbn [map fst snd]; [reflexivity|].
  rewrite IH. reflexivity.
Qed.

Lemma setProp_map (o : JSObject V) (k : jsstring) (v : V) :
  setProp (mapValues f o) k (f v) = mapValues f (setProp o k v).
Proof.
  unfold setProp, mapValues. cbn [obj_own obj_proto].
  destruct (jseqb k PROTO); [reflexivity|]. rewrite hasOwn_map.
  destruct (hasOwn k (obj_own o)); cbn [obj_own obj_proto].
  - rewrite overwrite_map. reflexivity.
  - destruct (arrayIndex k); cbn [obj_own obj_proto].
    + rewrite insertIndex_map. reflexivity.
    + rewrite map_app. reflexivity.
Qed.
End MapValues.

Lemma dedupe_map (f : Rec -> Rec) (l : list Rec) :
  (forall r, rec_id (f r) = rec_id r) ->
  dedupe (map f l) = map f (dedupe l).
Proof.
  intros Hid. unfold dedupe, Object_values.
  assert (H : forall o,
    fold_left (fun acc r => setProp acc (rec_id r) r) (map f l)
      (mapValues f o) =
    mapValues f (fold_left (fun acc r => setProp acc (rec_id r) r) l o)).
  { induction l as [|r l IH]; intros o; [reflexivity|].
    cbn [map fold_left]. rewrite Hid, setProp_map. apply IH. }
  change (@emptyObject Rec) with (mapValues f (@emptyObject Rec)) at 1.
  rewrite H. unfold mapValues. cbn [obj_own]. rewrite !map_map.
  reflexivity.
Qed.

Lemma sortBy_map {A : Type} (cmp : A -> A -> Z) (f : A -> A)
    (l : list A) :
  (forall a b, cmp (f a) (f b) = cmp a b) ->
  sortBy cmp (map f l) = map f (sortBy cmp l).
Proof.
  intros Hc.
  assert (Hi : forall x l0,
    insertBy cmp (f x) (map f l0) = map f (insertBy cmp x l0)).
  { intros x l0. induction l0 as [|y r IH]; [reflexivity|].
    cbn [map insertBy]. rewrite Hc.
    destruct (0 <? cmp x y)%Z; cbn [map]; [rewrite IH|]; reflexivity. }
  induction l as [|x l IH]; [reflexivity|].
  cbn [map sortBy fold_right]. fold (sortBy cmp (map f l)).
  fold (sortBy cmp l). rewrite IH. apply Hi.
Qed.

Lemma reduceBoard_unstamped lc (l l' : list Rec) :
  map unstamped l = map unstamped l' ->
  map unstamped (reduceBoard lc l) = map unstamped (reduceBoard lc l').
Proof.
  intros H.
  assert (E : forall x,
    map unstamped (reduceBoard lc x) = reduceBoard lc (map unstamped x)).
  { intros x. unfold reduceBoard.
    rewrite dedupe_map by reflexivity.
    rewrite sortBy_map by reflexivity. reflexivity. }
  rewrite !E, H. reflexivity.
Qed.

Lemma rowToRecord_unstamped clock clock' dp iso (tr : Row) (n n' : nat) :
  option_map unstamped (fst (rowToRecord clock dp iso tr n)) =
  option_map unstamped (fst (rowToRecord clock' dp iso tr n')).
Proof.
  unfold rowToRecord.
  destruct (cells tr) as [|td0 [|td1 [|td2 [|td3 [|td4 [|td5 [|td6 rest]]]]]]];
    try reflexivity.
  destruct (orElse _ _) as [id|]; reflexivity.
Qed.

Lemma collect_unstamped clock clock' dp iso (rows : list Row) :
  forall n n',
    map unstamped (fst (collect clock dp iso rows n)) =
    map unstamped (fst (collect clock' dp iso rows n')).
Proof.
  induction rows as [|tr rest IH]; intros n n'; [reflexivity|].
  rewrite !collect_cons. cbv zeta. cbn [fst].
  pose proof (rowToRecord_unstamped clock clock' dp iso tr n n') as H.
  destruct (fst (rowToRecord clock dp iso tr n)) as [r|],
           (fst (rowToRecord clock' dp iso tr n')) as [r'|];
    cbn [option_map] in H; try discriminate H; [|apply IH].
  assert (H' : unstamped r = unstamped r') by congruence.
  clear H. rename H' into H.
  assert (Hid : rec_id r = rec_id r')
    by exact (f_equal rec_id H).
  rewrite <- Hid. destruct (rec_id r); [apply IH|].
  cbn [map]. rewrite H. f_equal. apply IH.
Qed.

(** X22. The board of a page is a function of the page alone, but for
    the [parsedAt] stamps: whatever the clock, the time of the refresh
    and the cache before it, a successful refresh of the same rows
    stores the same records in the same order once their stamps are
    set aside. *)
Theorem board_ignores_clock clock clock' dp iso lc (rows : list Row)
    (c c' : Cache) (n n' : nat) :
  map unstamped
    (items (fst (fetchBoard clock dp iso lc (Loaded rows) c n))) =
  map unstamped
    (items (fst (fetchBoard clock' dp iso lc (Loaded rows) c' n'))).
Proof.
  rewrite !fetchBoard_loaded. cbn [fst items].
  apply reduceBoard_unstamped, collect_unstamped.
Qed.

(** *** The earlier versions *)

Lemma spaces_cons (c : cu) (r : jsstring) :
  replaceAll m_spaces [SP] (c :: r) =
    if isSpace c then SP :: replaceAll m_spaces [SP] (dropWhile isSpace r)
    else c :: replaceAll m_spaces [SP] r.
Proof.
  rewrite replaceAll_cons. unfold m_spaces. cbn [takeWhile].
  destruct (isSpace c); cbn [length]; [|reflexivity].
  rewrite skipn_takeWhile. reflexivity.
Qed.

Lemma spaces_sorted (s : jsstring) :
  Sorted notTwoSpaces (replaceAll m_spaces [SP] s).
Proof.
  induction s as [s IH] using length_ind.
  destruct s as [|c r]; [constructor|].
  rewrite spaces_cons. destruct (isSpace c) eqn:E.
  - constructor.
    + apply IH. simpl. pose proof (dropWhile_length isSpace r). lia.
    + pose proof (dropWhile_head isSpace r) as Hh.
      destruct (dropWhile isSpace r) as [|x l]; [constructor|].
      rewrite spaces_cons, Hh. constructor. intros [_ ->]. discriminate Hh.
  - constructor; [apply IH; simpl; lia|].
    destruct (replaceAll m_spaces [SP] r); constructor.
    intros [-> _]. discriminate E.
Qed.

Lemma spaces_plain (s : jsstring) :
  Forall plainOrSpace (replaceAll m_spaces [SP] s).
Proof.
  apply replaceAll_removes; [repeat constructor; right; reflexivity|].
  intros c r. destruct (isSpace c) eqn:E; [right|left; left; exact E].
  unfold m_spaces. cbn [takeWhile]. rewrite E. cbn [length].
  eexists. reflexivity.
Qed.

Lemma plain_no_nbsp (y : jsstring) :
  Forall plainOrSpace y -> Forall (fun c => c <> NBSP) y.
Proof.
  intros H. eapply Forall_impl; [|exact H].
  intros x [Hx|Hx] E; subst x; discriminate.
Qed.

Lemma nbsp_pass_fixed (y : jsstring) :
  Forall (fun c => c <> NBSP) y -> replaceAll (m_lit [NBSP]) (lit " ") y = y.
Proof.
  intros H. apply replaceAll_fixed. intros pre c r n -> E. exfalso.
  apply Forall_at in H as [Hc _]. unfold m_lit in E. cbn [prefixb] in E.
  apply N.eqb_neq in Hc. rewrite N.eqb_sym in Hc. rewrite Hc in E.
  discriminate.
Qed.

Lemma nbsp_pass_removes (s : jsstring) :
  Forall (fun c => c <> NBSP) (replaceAll (m_lit [NBSP]) (lit " ") s).
Proof.
  apply replaceAll_removes; [repeat constructor; discriminate|].
  intros c r. destruct (N.eqb_spec c NBSP) as [->|H]; [right|left; exact H].
  exists 0%nat. reflexivity.
Qed.

Lemma nbsp_pass_length (s : jsstring) :
  (length (replaceAll (m_lit [NBSP]) (lit " ") s) <= length s)%nat.
Proof.
  apply replaceAll_length_le. intros c r n E. unfold m_lit in E.
  destruct (prefixb [NBSP] (c :: r)); [|discriminate].
  injection E as <-. simpl. lia.
Qed.

(** X23. The decoder of the first scraper, which turns every run of
    whitespace into one space, is idempotent on every input: what it
    returns has no whitespace but single spaces between other code
    units, and is left as it is by a second decoding.  It never
    lengthens a text. *)
Theorem first_decode_idempotent (s : jsstring) :
  let y := First.decode s in
  Forall plainOrSpace y /\ Sorted notTwoSpaces y /\ trim y = y /\
  First.decode y = y /\
  (length y <= length s)%nat.
Proof.
  cbv zeta.
  assert (Fixed : forall y,
    Forall plainOrSpace y -> Sorted notTwoSpaces y -> trim y = y ->
    First.decode y = y).
  { intros y Hp Hs Ht. unfold First.decode.
    rewrite (nbsp_pass_fixed y (plain_no_nbsp y Hp)).
    assert (E : replaceAll m_spaces (lit " ") y = y); [|rewrite E; exact Ht].
    apply replaceAll_fixed. intros pre c r n -> E.
    apply Forall_at in Hp as [Hc Hr]. apply Sorted_app_r in Hs.
    apply Sorted_inv in Hs as [_ Hs].
    unfold m_spaces in E. cbn [takeWhile] in E.
    destruct (isSpace c) eqn:Ec; [|discriminate].
    destruct Hc as [Hc| ->]; [congruence|].
    assert (Hrun : takeWhile isSpace r = []).
    { destruct r as [|x r']; [reflexivity|]. cbn [takeWhile].
      destruct (isSpace x) eqn:Ex; [exfalso|reflexivity].
      apply Forall_cons_iff in Hr as [Hx _]. apply HdRel_inv in Hs.
      destruct Hx as [Hx| ->]; [congruence|]. apply Hs. auto. }
    rewrite Hrun in E. cbn [length] in E. injection E as <-. reflexivity. }
  unfold First.decode at 1 2 3 5.
  set (u := replaceAll m_spaces (lit " ")
              (replaceAll (m_lit [NBSP]) (lit " ") s)).
  assert (Hp : Forall plainOrSpace (trim u))
    by apply trim_Forall, spaces_plain.
  assert (Hs : Sorted notTwoSpaces (trim u))
    by apply trim_Sorted, spaces_sorted.
  assert (Ht : trim (trim u) = trim u) by apply trim_idempotent.
  split; [exact Hp|]. split; [exact Hs|]. split; [exact Ht|].
  split; [exact (Fixed _ Hp Hs Ht)|].
  pose proof (trim_length u) as L1.
  pose proof (nbsp_pass_length s) as L3.
  assert (L2 : (length u <=
                length (replaceAll (m_lit [NBSP]) (lit " ") s))%nat).
  { apply replaceAll_length_le. intros c r n E. unfold m_spaces in E.
    pose proof (takeWhile_length isSpace (c :: r)) as L.
    destruct (length (takeWhile isSpace (c :: r))); [discriminate|].
    injection E as <-. simpl in *. lia. }
  change (First.decode s) with (trim u). lia.
Qed.

(** X24. The decoder of the earlier [server.js], which has the
    whitespace passes of the later one but unescapes no entity, is
    idempotent on every input; what it returns has the decoded form;
    and on a text without an ampersand the later decoder returns the
    same. *)
Theorem earlier_decode_idempotent (s : jsstring) :
  Decoded (Earlier.decode s) /\
  Earlier.decode (Earlier.decode s) = Earlier.decode s /\
  (~ In AMP s -> decode s = Earlier.decode s).
Proof.
  assert (Hd : Decoded (Earlier.decode s)).
  { unfold Earlier.decode. apply decode_spaces_Decoded, nbsp_pass_removes. }
  split; [exact Hd|]. split.
  - unfold Earlier.decode at 1.
    rewrite nbsp_pass_fixed by apply Hd.
    exact (decode_spaces_fixed _ Hd).
  - intros Hx.
    assert (H0 : Forall (fun c => c <> AMP) s).
    { apply Forall_forall. intros c Hc ->. exact (Hx Hc). }
    assert (E1 : replaceAll m_nbsp (lit " ") s =
                 replaceAll (m_lit [NBSP]) (lit " ") s).
    { apply replaceAll_ext. intros pre t ->.
      destruct t as [|c r]; [reflexivity|].
      apply Forall_at in H0 as [Hc _]. unfold m_nbsp, m_lit.
      change (lit "&nbsp;") with (AMP :: lit "nbsp;"). cbn [prefixb].
      apply N.eqb_neq in Hc. rewrite N.eqb_sym in Hc. rewrite Hc.
      rewrite (N.eqb_sym NBSP c). cbn [andb].
      destruct (c =? NBSP); reflexivity. }
    assert (H1 : Forall (fun c => c <> AMP)
                   (replaceAll (m_lit [NBSP]) (lit " ") s)).
    { apply replaceAll_Forall; [|exact H0].
      repeat constructor. discriminate. }
    assert (Hlit : forall p rep u,
      Forall (fun c => c <> AMP) u ->
      replaceAll (m_lit (AMP :: p)) rep u = u).
    { intros p rep u Hu. apply replaceAll_fixed. intros pre c r n -> E.
      exfalso. apply Forall_at in Hu as [Hc _]. unfold m_lit in E.
      cbn [prefixb] in E. apply N.eqb_neq in Hc. rewrite N.eqb_sym in Hc.
      rewrite Hc in E. discriminate. }
    unfold decode, Earlier.decode, decode_entities. rewrite E1.
    change (lit "&amp;") with (AMP :: lit "amp;").
    change (lit "&lt;") with (AMP :: lit "lt;").
    change (lit "&gt;") with (AMP :: lit "gt;").
    rewrite (Hlit (lit "amp;") (lit "&") _ H1).
    rewrite (Hlit (lit "lt;") (lit "<") _ H1).
    rewrite (Hlit (lit "gt;") (lit ">") _ H1).
    reflexivity.
Qed.

(** X25. In the earlier [server.js] no status ever had a flag set:
    [pick] compares the status with the lower-case words "in", "out"
    and "unavailable", and the status it is given is "In", "Out",
    "Unavailable", "Unknown" or a text that starts with the upper case
    of a code unit, which is not empty and never starts with one of
    the small letters i, o, u, whatever the host's lower-casing of the
    cell text is.  The status itself was right: whenever the later
    classifier finds a status other than "Unknown", the earlier one
    returned the same. *)
Theorem earlier_flags_never_set (lowerText : jsstring -> jsstring)
    (upperFirst : cu -> jsstring) (trClass cellText : jsstring) :
  (forall x, exists u l,
      upperFirst x = u :: l /\ u <> 105 /\ u <> 111 /\ u <> 117) ->
  let s := Earlier.normalizeStatus lowerText upperFirst trClass cellText in
  Earlier.isIn s = false /\ Earlier.isOut s = false /\
  Earlier.isUnavailable s = false /\
  (normalizeStatus trClass cellText <> lit "Unknown" ->
   Earlier.value s = normalizeStatus trClass cellText).
Proof.
  intros Hup. cbv zeta. unfold Earlier.normalizeStatus, normalizeStatus.
  destruct (includes (lit "initem") (toLowerCase trClass) ||
            jseqb (toLowerCase cellText) (lit "in")).
  { repeat split. }
  destruct (includes (lit "outitem") (toLowerCase trClass) ||
            jseqb (toLowerCase cellText) (lit "out")).
  { repeat split. }
  destruct (includes (lit "unavailable") (toLowerCase trClass) ||
            jseqb (toLowerCase cellText) (lit "unavailable")).
  { repeat split. }
  destruct (lowerText cellText) as [|x r].
  { repeat split. }
  destruct (Hup x) as (u & l & -> & H1 & H2 & H3).
  apply N.eqb_neq in H1, H2, H3.
  unfold Earlier.pick.
  cbn [Earlier.isIn Earlier.isOut Earlier.isUnavailable Earlier.value app].
  change (lit "in") with (105 :: lit "n").
  change (lit "out") with (111 :: lit "ut").
  change (lit "unavailable") with (117 :: lit "navailable").
  cbn [jseqb]. rewrite H1, H2, H3. repeat split. congruence.
Qed.

Lemma earlier_flags_never_set_witness :
  (forall x, exists u l,
      [upperCU x] = u :: l /\ u <> 105 /\ u <> 111 /\ u <> 117) /\
  Earlier.value
    (Earlier.normalizeStatus toLowerCase (fun x => [upperCU x])
       (lit "InItem") (lit "In")) = lit "In" /\
  Earlier.isIn
    (Earlier.normalizeStatus toLowerCase (fun x => [upperCU x])
       (lit "InItem") (lit "In")) = false.
Proof.
  assert (H : forall x, exists u l,
    [upperCU x] = u :: l /\ u <> 105 /\ u <> 111 /\ u <> 117).
  { intros x. exists (upperCU x), []. split; [reflexivity|].
    unfold upperCU, between.
    destruct (N.leb_spec 97 x), (N.leb_spec x 122); cbn [andb]; lia. }
  split; [exact H|]. split; [vm_compute; reflexivity|].
  exact (proj1 (earlier_flags_never_set toLowerCase (fun x => [upperCU x])
                  (lit "InItem") (lit "In") H)).
Defined.
